(** * mcp-crawler core: crawl engine, redirect-following fetcher, URL
      canonicalizer and indexability auditor.

    Shallow embedding of
      - packages/core/src/types/contracts.ts
      - packages/core/src/utils/url.ts
      - packages/core/src/utils/robots.ts
      - packages/core/src/utils/sitemap.ts
      - packages/core/src/crawler/crawl.ts
      - packages/core/src/audit/indexability.ts
    followed by the properties stated about them.

    Strings are [string] (one [ascii] per code unit, code units below 256).
    The JS [Map] and [Set] of the crawl loop are [gmap] and [gset].
    What the code obtains from the platform or from npm packages is an
    interface: a type class for the URL parser and [normalize-url], one for
    the network behind [fetch], one for [cheerio], one for [robots-parser],
    one for [fast-xml-parser]. Node's [path.extname] is written out. An
    exception is [None]. *)

From stdpp Require Import gmap strings list fin_maps.
From Stdlib Require Import Ascii.

Set Warnings "-abstract-large-number".

(* ===================================================================== *)
(** ** JavaScript string primitives used by the sources *)
(* ===================================================================== *)

Module Js.

(** [String.prototype.toLowerCase] on one code unit of the Latin-1
    range: A-Z and the capitals 192..222, the multiplication sign (215)
    apart, move up by 32. *)
Definition lower_ascii (c : ascii) : ascii :=
  let n := nat_of_ascii c in
  if ((65 <=? n)%nat && (n <=? 90)%nat)
     || ((192 <=? n)%nat && (n <=? 222)%nat && negb (n =? 215)%nat)
  then ascii_of_nat (n + 32) else c.

Fixpoint toLowerCase (s : string) : string :=
  match s with
  | EmptyString => EmptyString
  | String c s' => String (lower_ascii c) (toLowerCase s')
  end.

(** White space and line terminators removed by [trim]. *)
Definition is_ws (c : ascii) : bool :=
  let n := nat_of_ascii c in
  ((9 <=? n)%nat && (n <=? 13)%nat) || (n =? 32)%nat || (n =? 160)%nat.

Fixpoint trimStart (s : string) : string :=
  match s with
  | EmptyString => EmptyString
  | String c s' => if is_ws c then trimStart s' else s
  end.

Definition trimEnd (s : string) : string :=
  String.rev (trimStart (String.rev s)).

Definition trim (s : string) : string := trimEnd (trimStart s).

(** Truthiness of a string: [Boolean(s)], [!s]. *)
Definition truthy (s : string) : bool :=
  match s with EmptyString => false | _ => true end.

(** Truthiness of a nullable string ([null], [undefined] and the empty
    string are falsy). *)
Definition truthy_opt (o : option string) : bool :=
  match o with Some s => truthy s | None => false end.

(** [s.split(/[...]+/)] for a character class [sep]: the pieces between
    maximal runs of separators (a leading or trailing run leaves an empty
    piece, as in JS). *)
Fixpoint split_go (sep : ascii -> bool) (acc : string) (insep : bool)
         (s : string) : list string :=
  match s with
  | EmptyString => [String.rev acc]
  | String c s' =>
      if sep c then
        if insep then split_go sep EmptyString true s'
        else String.rev acc :: split_go sep EmptyString true s'
      else split_go sep (String c acc) false s'
  end.

Definition split_runs (sep : ascii -> bool) (s : string) : list string :=
  split_go sep EmptyString false s.

(** [s.split(c)] for a one-character separator. *)
Fixpoint split_char_go (sep : ascii) (acc : string) (s : string) : list string :=
  match s with
  | EmptyString => [String.rev acc]
  | String c s' =>
      if Ascii.eqb c sep then String.rev acc :: split_char_go sep EmptyString s'
      else split_char_go sep (String c acc) s'
  end.

Definition split_char (sep : ascii) (s : string) : list string :=
  split_char_go sep EmptyString s.

(** [parts.join(sep)]. *)
Fixpoint join (sep : string) (parts : list string) : string :=
  match parts with
  | [] => EmptyString
  | [p] => p
  | p :: ps => p +:+ sep +:+ join sep ps
  end.

Definition startsWith (s p : string) : bool := String.prefix p s.

Definition endsWith (s suffix : string) : bool :=
  String.prefix (String.rev suffix) (String.rev s).

(** [s.includes(sub)]. *)
Fixpoint includes (s sub : string) : bool :=
  String.prefix sub s ||
  match s with
  | EmptyString => false
  | String _ s' => includes s' sub
  end.

(** [arr.includes(x)] on an array of strings. *)
Definition arr_includes (arr : list string) (x : string) : bool :=
  existsb (String.eqb x) arr.

(** [arr.slice(-2)]. *)
Definition slice_last2 {A} (l : list A) : list A :=
  drop (length l - 2) l.

End Js.

(* ===================================================================== *)
(** ** types/contracts.ts *)
(* ===================================================================== *)

Inductive DiscoveredBy := html | sitemap | both.

#[global] Instance DiscoveredBy_eq_dec : EqDecision DiscoveredBy.
Proof. solve_decision. Defined.

Record RedirectHop := mkHop {
  hop_from : string;
  hop_to : string;
  hop_status : nat;
}.

Record InventoryItem := mkItem {
  url : string;
  normalizedUrl : string;
  finalUrl : string;
  status : nat;
  contentType : option string;
  depth : nat;
  discoveredBy : DiscoveredBy;
  redirectChain : list RedirectHop;
}.

Record Edge := mkEdge { edge_from : string; edge_to : string }.

(** [RobotsDirectives]: six optional booleans; [None] is an absent key. *)
Record RobotsDirectives := mkRobots {
  noindex : option bool;
  nofollow : option bool;
  noarchive : option bool;
  nosnippet : option bool;
  noimageindex : option bool;
  nocache : option bool;
}.

Record HreflangLink := mkHreflang { lang : string; hl_href : string }.

Record NoindexFlags := mkNoindex { meta : bool; header : bool }.

Record AuditResult := mkAudit {
  a_url : string;
  a_finalUrl : string;
  a_status : nat;
  a_contentType : option string;
  a_canonical : option string;
  a_metaRobots : option RobotsDirectives;
  a_xRobots : option RobotsDirectives;
  a_noindex : NoindexFlags;
  a_hreflang : list HreflangLink;
  a_issues : list string;
  a_redirectChain : list RedirectHop;
}.

(* ===================================================================== *)
(** ** Platform interfaces *)
(* ===================================================================== *)

(** A WHATWG [URL] object: the fields the sources read or assign. *)
Record URL := mkURL {
  protocol : string;                       (* with its colon, "https:" *)
  hostname : string;
  port : string;                           (* empty when default *)
  pathname : string;
  searchParams : list (string * string);   (* in document order *)
  hash : string;                           (* "" or "#..." *)
}.

(** Getter [u.host]. *)
Definition host (u : URL) : string :=
  if Js.truthy (port u) then hostname u +:+ ":" +:+ port u else hostname u.

(** Setter [u.hash = h]. *)
Definition set_hash (h : string) (u : URL) : URL :=
  mkURL (protocol u) (hostname u) (port u) (pathname u) (searchParams u) h.

(** [u.searchParams.keys()] and [u.searchParams.delete(name)]. *)
Definition searchParams_keys (u : URL) : list string := (searchParams u).*1.

Definition searchParams_delete (name : string) (u : URL) : URL :=
  mkURL (protocol u) (hostname u) (port u) (pathname u)
        (filter (fun kv => negb (String.eqb kv.1 name)) (searchParams u))
        (hash u).

(** Options object handed to [normalize-url]. *)
Record NormalizeOptions := mkNormalizeOptions {
  removeDirectoryIndex : bool;
  sortQueryParameters : bool;
  removeTrailingSlash : bool;
  stripWWW : bool;
  forceHttp : bool;
  forceHttps : bool;
}.

(** The URL parser of the platform and the [normalize-url] package.
    [None] is a thrown [TypeError]. *)
Class UrlLib := {
  (** [new URL(s)] *)
  url_parse : string -> option URL;
  (** [new URL(rel, base)] *)
  url_resolve : string -> string -> option URL;
  (** [u.toString()], [u.href] *)
  url_href : URL -> string;
  (** [u.host = h] *)
  url_set_host : string -> URL -> URL;
  (** [normalizeUrl(s, opts)] *)
  normalizeUrl : string -> NormalizeOptions -> option string;
}.

(** A [fetch] request as the sources build it. *)
Record Request := mkRequest {
  req_url : string;
  req_headers : list (string * string);
  req_redirect : string;
  req_timeout : option nat;                (* abort signal, ms *)
}.

(** A [Response]: status, header entries as [Headers] iterates them, and
    what [res.text()] gives ([None] when it rejects). *)
Record Response := mkResponse {
  res_status : nat;
  res_headers : list (string * string);
  res_text : option string;
}.

(** [res.ok] *)
Definition res_ok (r : Response) : bool :=
  (200 <=? res_status r)%nat && (res_status r <=? 299)%nat.

(** [headers.get(name)] (names compare case-insensitively). *)
Definition headers_get (hs : list (string * string)) (name : string) : option string :=
  snd <$> List.find (fun kv => String.eqb (Js.toLowerCase kv.1) (Js.toLowerCase name)) hs.

(** The network: each [fetch] sees the current state of the world and
    moves it on; [None] is a rejected promise (network error, abort). *)
Class Network := {
  World : Type;
  net_fetch : Request -> World -> World * option Response;
}.

(** An asynchronous computation over the network that may throw. *)
Definition Async `{Network} (A : Type) : Type := World -> World * option A.

Definition aret `{Network} {A} (a : A) : Async A := fun w => (w, Some a).
Definition athrow `{Network} {A} : Async A := fun w => (w, None).
Definition abind `{Network} {A B} (m : Async A) (k : A -> Async B) : Async B :=
  fun w => match m w with
           | (w', Some a) => k a w'
           | (w', None) => (w', None)
           end.
(** [try { m } catch { h }] *)
Definition acatch `{Network} {A} (m : Async A) (h : Async A) : Async A :=
  fun w => match m w with
           | (w', Some a) => (w', Some a)
           | (w', None) => h w'
           end.

Notation "'await' x <- m 'in' k" := (abind m (fun x => k))
  (at level 10, x name, m at level 200, k at level 200, only parsing).

(** Node's [path.extname] (posix), scanning the path from its end. *)
Module NodePath.

Record scan := mkScan {
  startDot : option nat;
  startPart : nat;
  end_ : option nat;
  matchedSlash : bool;
  preDotState : Z;
}.

Definition scan0 : scan := mkScan None 0 None true 0.

(** The loop [for (i = path.length - 1; i >= 0; --i)]: [rpath] holds the
    characters at indices [i, i-1, ..., 0]. *)
Fixpoint extname_loop (rpath : list ascii) (st : scan) : scan :=
  match rpath with
  | [] => st
  | code :: rest =>
      let i := length rest in
      if Ascii.eqb code "/" then
        if negb (matchedSlash st) then
          mkScan (startDot st) (i + 1) (end_ st) (matchedSlash st) (preDotState st)
        else extname_loop rest st
      else
        let st1 :=
          match end_ st with
          | None => mkScan (startDot st) (startPart st) (Some (i + 1)) false (preDotState st)
          | Some _ => st
          end in
        let st2 :=
          if Ascii.eqb code "." then
            match startDot st1 with
            | None => mkScan (Some i) (startPart st1) (end_ st1) (matchedSlash st1) (preDotState st1)
            | Some _ =>
                if negb (preDotState st1 =? 1)%Z
                then mkScan (startDot st1) (startPart st1) (end_ st1) (matchedSlash st1) 1
                else st1
            end
          else
            match startDot st1 with
            | Some _ => mkScan (startDot st1) (startPart st1) (end_ st1) (matchedSlash st1) (-1)
            | None => st1
            end in
        extname_loop rest st2
  end.

Definition extname (path : string) : string :=
  let st := extname_loop (rev (String.list_ascii_of_string path)) scan0 in
  match startDot st, end_ st with
  | Some sd, Some e =>
      if (preDotState st =? 0)%Z
         || ((preDotState st =? 1)%Z && (sd =? e - 1)%nat && (sd =? startPart st + 1)%nat)
      then ""
      else String.substring sd (e - sd) path
  | _, _ => ""
  end.

End NodePath.

(* ===================================================================== *)
(** ** utils/url.ts *)
(* ===================================================================== *)

Module UrlUtils.

Definition TRACKING_PARAMS : list string :=
  ["utm_source"; "utm_medium"; "utm_campaign"; "utm_term"; "utm_content";
   "gclid"; "fbclid"; "igshid"; "mc_cid"; "mc_eid"].

Definition stripTrackingParams (u : URL) : URL :=
  foldl (fun u p => if Js.arr_includes TRACKING_PARAMS p
                    then searchParams_delete p u else u)
        u (searchParams_keys u).

Definition NORMALIZE_OPTS : NormalizeOptions :=
  {| removeDirectoryIndex := true;
     sortQueryParameters := true;
     removeTrailingSlash := true;
     stripWWW := false;
     forceHttp := false;
     forceHttps := false |}.

(** [None] is an exception leaving the function: only the first
    [new URL] is inside the [try]. *)
Definition normalizeForKey `{UrlLib} (urlStr : string) : option string :=
  match url_parse urlStr with
  | None => Some urlStr
  | Some u =>
      let u := url_set_host (Js.toLowerCase (host u)) u in
      let u := set_hash "" u in
      let u := stripTrackingParams u in
      normalized ← normalizeUrl (url_href u) NORMALIZE_OPTS;
      u2 ← url_parse normalized;
      let u2 := url_set_host (Js.toLowerCase (host u2)) u2 in
      Some (url_href u2)
  end.

Definition sameETLD1 (a b : URL) : bool :=
  let aParts := Js.split_char "." (Js.toLowerCase (hostname a)) in
  let bParts := Js.split_char "." (Js.toLowerCase (hostname b)) in
  let aKey := Js.join "." (Js.slice_last2 aParts) in
  let bKey := Js.join "." (Js.slice_last2 bParts) in
  String.eqb aKey bKey.

Definition isInternal (base target : URL) (includeSubdomains : bool) : bool :=
  if negb (sameETLD1 base target) then false
  else if negb includeSubdomains
       then String.eqb (Js.toLowerCase (hostname base)) (Js.toLowerCase (hostname target))
       else true.

(** [ignoredExt] is the module-level list read once from the asset file. *)
Definition hasIgnoredExtension (ignoredExt : list string) (u : URL) : bool :=
  let pathname := Js.toLowerCase (pathname u) in
  let simple :=
    let ext := NodePath.extname pathname in
    if negb (Js.truthy ext) then false
    else
      let withoutDot :=
        if Js.startsWith ext "." then String.substring 1 (String.length ext - 1) ext
        else ext in
      Js.arr_includes ignoredExt withoutDot || Js.arr_includes ignoredExt ext in
  if Js.endsWith pathname ".tar.gz"
     || Js.endsWith pathname ".tar.bz2"
     || Js.endsWith pathname ".tar.xz"
  then
    if Js.arr_includes ignoredExt "tar.gz" then true
    else if Js.arr_includes ignoredExt "tar.bz2" then true
    else if Js.arr_includes ignoredExt "tar.xz" then true
    else simple
  else simple.

Definition absolutize `{UrlLib} (base : URL) (href : string) : option string :=
  url_href <$> url_resolve href (url_href base).

End UrlUtils.

(** [cheerio]: what the selectors used by the sources return for a
    document. *)
Record Doc := mkDoc {
  (** [$("a[href]")]: the [href] attribute of each anchor *)
  doc_anchors : list string;
  (** [$('link[rel="canonical"]')]: the optional [href] of each element *)
  doc_canonicals : list (option string);
  (** [$('link[rel="alternate"][hreflang]')]: [hreflang] and optional [href] *)
  doc_alternates : list (string * option string);
  (** [$('meta[name="robots"], meta[name="ROBOTS"]')]: optional [content] *)
  doc_metaRobots : list (option string);
}.

Class HtmlLib := { cheerio_load : string -> Doc }.

(** The platform's [fetch]: a URL that does not parse rejects with a
    [TypeError] before anything is sent. *)
Definition fetch `{UrlLib} `{Network} (req : Request) : Async Response :=
  match url_parse (req_url req) with
  | None => athrow
  | Some _ => net_fetch req
  end.

(** What both [fetchWithRedirects] return. *)
Record ResInfo := mkResInfo {
  ri_res : Response;
  ri_finalUrl : string;
  ri_redirectChain : list RedirectHop;
}.

Definition nat_includes (l : list nat) (n : nat) : bool := existsb (Nat.eqb n) l.

(* ===================================================================== *)
(** ** crawler/crawl.ts: the redirect-following fetcher *)
(* ===================================================================== *)

Module Crawler.

Definition BROWSER_UA : string :=
  "Mozilla/5.0 (Windows NT 10.0; Win64; x64) AppleWebKit/537.36 (KHTML, like Gecko) Chrome/124 Safari/537.36".

Definition BLOCKED_STATUSES : list nat := [403; 406; 409; 410; 429; 451; 503].

Section Fetcher.
Context `{UrlLib} `{Network}.

Definition fetchOnce (url ua : string) (timeoutMs : nat) : Async Response :=
  fetch {| req_url := url;
           req_headers :=
             [("User-Agent", ua);
              ("accept", "text/html,application/xhtml+xml,application/xml;q=0.9,*/*;q=0.8");
              ("accept-language", "en-US,en;q=0.9,es;q=0.8")];
           req_redirect := "manual";
           req_timeout := Some timeoutMs |}.

(** The [while] loop of [chain]; [safety] counts down from 10 and is
    only decremented when the status is a redirect. *)
Fixpoint chain_loop (timeoutMs : nat) (useUA : string) (safety : nat)
         (currentUrl : string) (res : Response) (hops : list RedirectHop)
  : Async ResInfo :=
  let final := aret (mkResInfo res currentUrl hops) in
  if nat_includes [301; 302; 303; 307; 308] (res_status res) then
    match safety with
    | O => final
    | S safety' =>
        match headers_get (res_headers res) "location" with
        | Some loc =>
            if negb (Js.truthy loc) then final
            else
              match url_resolve loc currentUrl with
              | None => athrow
              | Some n =>
                  let next := url_href n in
                  await res' <- fetchOnce next useUA timeoutMs in
                  chain_loop timeoutMs useUA safety' next res'
                             (hops ++ [mkHop currentUrl next (res_status res)])%list
              end
        | None => final
        end
    end
  else final.

Definition chain (timeoutMs : nat) (initialUrl useUA : string) : Async ResInfo :=
  await res <- fetchOnce initialUrl useUA timeoutMs in
  chain_loop timeoutMs useUA 10 initialUrl res [].

Definition fetchWithRedirects (url ua : string) (timeoutMs : nat) : Async ResInfo :=
  acatch
    (await r1 <- chain timeoutMs url ua in
     if nat_includes BLOCKED_STATUSES (res_status (ri_res r1))
        && negb (String.eqb ua BROWSER_UA)
     then acatch (chain timeoutMs url BROWSER_UA) (aret r1)
     else aret r1)
    (if negb (String.eqb ua BROWSER_UA) then chain timeoutMs url BROWSER_UA
     else athrow).

End Fetcher.

(** *** [crawlSite]

    The run is a transition system. [visit] suspends at
    [await fetchWithRedirects(...)] and at [await res.text()]; between
    suspensions it runs without interruption. An event is the start of a
    batch, the resumption of a suspended [visit], or a step of the
    post-pass. What the network answered comes with the event. A step
    that is [None] is an event that cannot happen in that state or an
    exception that ends the run. *)

Record Node := mkNode { node_url : string; node_depth : nat }.

Inductive Task :=
| Fetching (node : Node) (key : string)      (* at [await fetchWithRedirects] *)
| Reading (node : Node) (resInfo : ResInfo). (* at [await res.text()] *)

Inductive Phase :=
| Bfs
| PostPass (toFetch : list string).          (* post-pass fetches in flight *)

Record State := mkState {
  queue : list Node;
  seen : gset string;
  inventoryMap : gmap string InventoryItem;
  edges : list Edge;
  fetchedCount : nat;
  running : list Task;
  phase : Phase;
}.

Inductive Event :=
| NextBatch
| FetchDone (i : nat) (r : option ResInfo)
| BodyDone (i : nat)
| StartPostPass
| PostFetchDone (i : nat) (r : option ResInfo).

(** The values [crawlSite] fixes before the loop. *)
Record Setup := mkSetup {
  depthMax : nat;
  maxPages : nat;
  includeSub : bool;
  base : URL;
  maxConcurrency : nat;                      (* DEFAULTS.maxConcurrency *)
  respectRobots : bool;                      (* DEFAULTS.respectRobots *)
  isAllowed : string -> bool;                (* robots.isAllowed *)
  ignoredExt : list string;
  fromSitemaps : list string;                (* the Set, in insertion order *)
}.

Definition with_queue (q : list Node) (s : State) : State :=
  mkState q (seen s) (inventoryMap s) (edges s) (fetchedCount s) (running s) (phase s).
Definition with_seen (x : gset string) (s : State) : State :=
  mkState (queue s) x (inventoryMap s) (edges s) (fetchedCount s) (running s) (phase s).
Definition with_inventoryMap (m : gmap string InventoryItem) (s : State) : State :=
  mkState (queue s) (seen s) m (edges s) (fetchedCount s) (running s) (phase s).
Definition with_edges (e : list Edge) (s : State) : State :=
  mkState (queue s) (seen s) (inventoryMap s) e (fetchedCount s) (running s) (phase s).
Definition with_fetchedCount (n : nat) (s : State) : State :=
  mkState (queue s) (seen s) (inventoryMap s) (edges s) n (running s) (phase s).
Definition with_running (r : list Task) (s : State) : State :=
  mkState (queue s) (seen s) (inventoryMap s) (edges s) (fetchedCount s) r (phase s).
Definition with_phase (p : Phase) (s : State) : State :=
  mkState (queue s) (seen s) (inventoryMap s) (edges s) (fetchedCount s) (running s) p.

Section CrawlSite.
Context `{UrlLib} `{HtmlLib}.
Variable cfg : Setup.

(** [fromSitemaps.has(k)] *)
Definition inSitemaps (k : string) : bool := bool_decide (k ∈ fromSitemaps cfg).

(** [visit] up to [await fetchWithRedirects]. *)
Definition visit_start (s : State) (node : Node) : option State :=
  if (maxPages cfg <=? fetchedCount s)%nat then Some s
  else
    key ← UrlUtils.normalizeForKey (node_url node);
    if bool_decide (key ∈ seen s) then Some s
    else
      let s := with_seen ({[key]} ∪ seen s) s in
      match url_parse (node_url node) with
      | None => Some s
      | Some u =>
          if negb (UrlUtils.isInternal (base cfg) u (includeSub cfg)) then Some s
          else if UrlUtils.hasIgnoredExtension (ignoredExt cfg) u then Some s
          else if respectRobots cfg && negb (isAllowed cfg (node_url node)) then Some s
          else Some (with_running (running s ++ [Fetching node key])%list s)
      end.

(** The merge of [item] into an entry already in the map. *)
Definition merge_visit (prev item : InventoryItem) : InventoryItem :=
  mkItem (url item) (normalizedUrl item) (finalUrl item) (status item)
         (contentType item) (depth item)
         (if bool_decide (discoveredBy prev = sitemap) || bool_decide (discoveredBy item = both)
          then both else discoveredBy item)
         (redirectChain item).

(** [headers.get("content-type") || null] *)
Definition contentType_or_null (res : Response) : option string :=
  match headers_get (res_headers res) "content-type" with
  | Some ct => if Js.truthy ct then Some ct else None
  | None => None
  end.

(** [visit] from the resolved fetch up to [await res.text()]; the task
    is at index [i] of [running]. *)
Definition visit_fetched (i : nat) (node : Node) (key : string)
           (resInfo : ResInfo) (s : State) : option State :=
  let res := ri_res resInfo in
  let s := with_fetchedCount (fetchedCount s + 1) s in
  let contentType := contentType_or_null res in
  inSm ← (if inSitemaps key then Some true
          else inSitemaps <$> UrlUtils.normalizeForKey (ri_finalUrl resInfo));
  let item :=
    {| url := node_url node;
       normalizedUrl := key;
       finalUrl := ri_finalUrl resInfo;
       status := res_status res;
       contentType := contentType;
       depth := node_depth node;
       discoveredBy := if inSm : bool then both else html;
       redirectChain := ri_redirectChain resInfo |} in
  let s :=
    match inventoryMap s !! key with
    | Some prev => with_inventoryMap (<[key := merge_visit prev item]> (inventoryMap s)) s
    | None => with_inventoryMap (<[key := item]> (inventoryMap s)) s
    end in
  if res_ok res
     && match contentType with
        | Some ct => Js.includes ct "text/html"
        | None => false
        end
  then Some (with_running (<[i := Reading node resInfo]> (running s)) s)
  else Some (with_running (delete i (running s)) s).

(** [hrefs.add(abs)] on the Set of absolute links. *)
Definition set_add (x : string) (l : list string) : list string :=
  if bool_decide (x ∈ l) then l else (l ++ [x])%list.

(** The [$("a[href]").each] callback; [new URL(finalUrl)] throws out
    of it. *)
Fixpoint collect_hrefs (finalUrl : string) (els : list string)
         (hrefs : list string) : option (list string) :=
  match els with
  | [] => Some hrefs
  | el :: rest =>
      let raw := Js.trim el in
      if negb (Js.truthy raw) then collect_hrefs finalUrl rest hrefs
      else
        b ← url_parse finalUrl;
        match UrlUtils.absolutize b raw with
        | Some abs =>
            if Js.truthy abs then collect_hrefs finalUrl rest (set_add abs hrefs)
            else collect_hrefs finalUrl rest hrefs
        | None => collect_hrefs finalUrl rest hrefs
        end
  end.

(** One pass of [for (const toAbs of hrefs)]; an exception inside the
    [try] leaves the state as it was. *)
Definition link_step (node : Node) (finalUrl : string) (s : State)
           (toAbs : string) : State :=
  match url_parse toAbs with
  | None => s
  | Some toURL =>
      if negb (UrlUtils.isInternal (base cfg) toURL (includeSub cfg)) then s
      else if UrlUtils.hasIgnoredExtension (ignoredExt cfg) toURL then s
      else
        match UrlUtils.normalizeForKey toAbs with
        | None => s
        | Some toKey =>
            match UrlUtils.normalizeForKey finalUrl with
            | None => s
            | Some fromKey =>
                let s := with_edges (edges s ++ [mkEdge fromKey toKey])%list s in
                if negb (bool_decide (toKey ∈ seen s))
                   && (node_depth node <? depthMax cfg)%nat
                then with_queue (queue s ++ [mkNode toAbs (node_depth node + 1)])%list s
                else s
            end
        end
  end.

(** [visit] from the resolved [res.text()] to its end (the crawl-delay
    sleep changes nothing). *)
Definition visit_body (i : nat) (node : Node) (resInfo : ResInfo)
           (s : State) : option State :=
  let s := with_running (delete i (running s)) s in
  let html := default "" (res_text (ri_res resInfo)) in
  if Js.truthy html then
    hrefs ← collect_hrefs (ri_finalUrl resInfo)
                          (doc_anchors (cheerio_load html)) [];
    Some (foldl (link_step node (ri_finalUrl resInfo)) s hrefs)
  else Some s.

(** One pass of the sitemap pre-registration loop. *)
Definition preregister (inv : gmap string InventoryItem) (k : string)
  : gmap string InventoryItem :=
  match inv !! k with
  | None =>
      <[k := {| url := k; normalizedUrl := k; finalUrl := k; status := 0;
                contentType := None; depth := 9999; discoveredBy := sitemap;
                redirectChain := [] |}]> inv
  | Some prev =>
      <[k := mkItem (url prev) (normalizedUrl prev) (finalUrl prev) (status prev)
                    (contentType prev) (depth prev)
                    (if bool_decide (discoveredBy prev = html) then both else sitemap)
                    (redirectChain prev)]> inv
  end.

(** The two seeds of the queue. *)
Definition seeds : list Node :=
  let host := hostname (base cfg) in
  [ mkNode (url_href (base cfg)) 0;
    if Js.startsWith host "www."
    then mkNode (protocol (base cfg) +:+ "//"
                 +:+ String.substring 4 (String.length host - 4) host
                 +:+ pathname (base cfg)) 0
    else mkNode (protocol (base cfg) +:+ "//www." +:+ host
                 +:+ pathname (base cfg)) 0 ].

(** The state when the [while] loop is first reached. *)
Definition crawl_init : State :=
  {| queue := seeds;
     seen := ∅;
     inventoryMap := foldl preregister ∅ (fromSitemaps cfg);
     edges := [];
     fetchedCount := 0;
     running := [];
     phase := Bfs |}.

(** [while (queue.length && fetchedCount < maxPages)] *)
Definition loop_continues (s : State) : bool :=
  negb (bool_decide (queue s = [])) && (fetchedCount s <? maxPages cfg)%nat.

Fixpoint start_all (s : State) (batch : list Node) : option State :=
  match batch with
  | [] => Some s
  | node :: rest => s' ← visit_start s node; start_all s' rest
  end.

(** The candidates of the post-pass and the slice that is fetched. *)
Definition inbound (s : State) : list string := edge_to <$> edges s.

Definition candidates (s : State) : list string :=
  filter (fun k => bool_decide (k ∈ inbound s)
                   && match inventoryMap s !! k with
                      | Some it => bool_decide (status it = 0)
                      | None => false
                      end = true)
         (fromSitemaps cfg).

Definition room (s : State) : nat := maxPages cfg - fetchedCount s.

Definition toFetch (s : State) : list string := take (room s) (candidates s).

(** The body of one post-pass task once its fetch has resolved. *)
Definition post_update (k : string) (resInfo : ResInfo) (s : State) : State :=
  match inventoryMap s !! k with
  | None => s
  | Some prev =>
      let item :=
        mkItem (url prev) (normalizedUrl prev) (ri_finalUrl resInfo)
               (res_status (ri_res resInfo)) (contentType_or_null (ri_res resInfo))
               (depth prev `min` (depthMax cfg + 1)) both
               (ri_redirectChain resInfo) in
      with_fetchedCount (fetchedCount s + 1)
        (with_inventoryMap (<[k := item]> (inventoryMap s)) s)
  end.

Definition step (ev : Event) (s : State) : option State :=
  match phase s, ev with
  | Bfs, NextBatch =>
      if bool_decide (running s = []) && loop_continues s then
        start_all (with_queue (drop (maxConcurrency cfg) (queue s)) s)
                  (take (maxConcurrency cfg) (queue s))
      else None
  | Bfs, FetchDone i r =>
      match running s !! i with
      | Some (Fetching node key) =>
          match r with
          | Some resInfo => visit_fetched i node key resInfo s
          | None => Some (with_running (delete i (running s)) s)
          end
      | _ => None
      end
  | Bfs, BodyDone i =>
      match running s !! i with
      | Some (Reading node resInfo) => visit_body i node resInfo s
      | _ => None
      end
  | Bfs, StartPostPass =>
      if bool_decide (running s = []) && negb (loop_continues s)
      then Some (with_phase (PostPass (toFetch s)) s)
      else None
  | PostPass pending, PostFetchDone i r =>
      match pending !! i with
      | Some k =>
          let s := with_phase (PostPass (delete i pending)) s in
          match r with
          | Some resInfo => Some (post_update k resInfo s)
          | None => Some s
          end
      | None => None
      end
  | _, _ => None
  end.

Fixpoint run (evs : list Event) (s : State) : option State :=
  match evs with
  | [] => Some s
  | ev :: evs' => s' ← step ev s; run evs' s'
  end.

(** [[...inventoryMap.values()]] and [stats.pagesFetched]. *)
Definition inventory (s : State) : list InventoryItem :=
  (map_to_list (inventoryMap s)).*2.

Definition pagesFetched (s : State) : nat := fetchedCount s.

End CrawlSite.

End Crawler.

(* ===================================================================== *)
(** ** audit/indexability.ts *)
(* ===================================================================== *)

Module Audit.

Section Auditor.
Context `{UrlLib} `{Network} `{HtmlLib}.

Definition init (ua : string) (url : string) : Request :=
  {| req_url := url;
     req_headers := [("User-Agent", ua)];
     req_redirect := "manual";
     req_timeout := None |}.

Fixpoint fetch_loop (ua : string) (safety : nat)
         (currentUrl : string) (res : Response) (hops : list RedirectHop)
  : Async ResInfo :=
  let final := aret (mkResInfo res currentUrl hops) in
  if nat_includes [301; 302; 303; 307; 308] (res_status res) then
    match safety with
    | O => final
    | S safety' =>
        match headers_get (res_headers res) "location" with
        | Some loc =>
            if negb (Js.truthy loc) then final
            else
              match url_resolve loc currentUrl with
              | None => athrow
              | Some n =>
                  let next := url_href n in
                  await res' <- fetch (init ua next) in
                  fetch_loop ua safety' next res'
                             (hops ++ [mkHop currentUrl next (res_status res)])%list
              end
        | None => final
        end
    end
  else final.

Definition fetchWithRedirects (url ua : string) : Async ResInfo :=
  await res <- fetch (init ua url) in
  fetch_loop ua 10 url res [].

Definition is_directive_sep (c : ascii) : bool :=
  Ascii.eqb c "," || Ascii.eqb c ";".

Definition no_directives : RobotsDirectives :=
  mkRobots None None None None None None.

(** One pass of the [for (const t of tokens)] loop. *)
Definition set_directive (out : RobotsDirectives) (t : string) : RobotsDirectives :=
  if String.eqb t "noindex" then
    mkRobots (Some true) (nofollow out) (noarchive out) (nosnippet out) (noimageindex out) (nocache out)
  else if String.eqb t "nofollow" then
    mkRobots (noindex out) (Some true) (noarchive out) (nosnippet out) (noimageindex out) (nocache out)
  else if String.eqb t "noarchive" then
    mkRobots (noindex out) (nofollow out) (Some true) (nosnippet out) (noimageindex out) (nocache out)
  else if String.eqb t "nosnippet" then
    mkRobots (noindex out) (nofollow out) (noarchive out) (Some true) (noimageindex out) (nocache out)
  else if String.eqb t "noimageindex" then
    mkRobots (noindex out) (nofollow out) (noarchive out) (nosnippet out) (Some true) (nocache out)
  else if String.eqb t "nocache" then
    mkRobots (noindex out) (nofollow out) (noarchive out) (nosnippet out) (noimageindex out) (Some true)
  else out.

Definition parseRobotsDirectives (raw : option string) : option RobotsDirectives :=
  match raw with
  | None => None
  | Some raw =>
      if negb (Js.truthy raw) then None
      else
        let tokens :=
          filter (fun t => Js.truthy t = true)
                 (map (fun t => Js.toLowerCase (Js.trim t))
                      (Js.split_runs is_directive_sep raw)) in
        Some (foldl set_directive no_directives tokens)
  end.

(** [a?.field], then JS truthiness of the optional boolean. *)
Definition field_truthy (a : option RobotsDirectives)
           (field : RobotsDirectives -> option bool) : bool :=
  match a with
  | Some r => match field r with Some b => b | None => false end
  | None => false
  end.

Definition mergeRobots (a b : option RobotsDirectives) : option RobotsDirectives :=
  match a, b with
  | None, None => None
  | _, _ =>
      Some {| noindex := Some (field_truthy a noindex || field_truthy b noindex);
              nofollow := Some (field_truthy a nofollow || field_truthy b nofollow);
              noarchive := Some (field_truthy a noarchive || field_truthy b noarchive);
              nosnippet := Some (field_truthy a nosnippet || field_truthy b nosnippet);
              noimageindex := Some (field_truthy a noimageindex || field_truthy b noimageindex);
              nocache := Some (field_truthy a nocache || field_truthy b nocache) |}
  end.

Definition getAllXRobots (headers : list (string * string)) : list string :=
  foldl (fun (vals : list string) kv =>
           if String.eqb (Js.toLowerCase kv.1) "x-robots-tag" then (vals ++ [kv.2])%list else vals)
        [] headers.

(** Result of [extractHtmlSignals]. A canonical that is [undefined]
    or [null] is [None]: the caller only tests it for truthiness and
    returns [canonical ?? null]. *)
Record HtmlSignals := mkSignals {
  hs_canonical : option string;
  hs_hreflang : list HreflangLink;
  hs_metaRobots : option RobotsDirectives;
  hs_issues : list string;
}.

(** The [.each] callback over the alternate links; [new URL(baseUrl)]
    throws out of it. *)
Fixpoint collect_hreflang (baseUrl : string) (els : list (string * option string))
         (acc : list HreflangLink) : option (list HreflangLink) :=
  match els with
  | [] => Some acc
  | (l, h) :: rest =>
      let lang := Js.trim l in
      let href := Js.trim (default "" h) in
      if negb (Js.truthy lang) || negb (Js.truthy href)
      then collect_hreflang baseUrl rest acc
      else
        base ← url_parse baseUrl;
        let abs := UrlUtils.absolutize base href in
        match abs with
        | Some a =>
            if Js.truthy a
            then collect_hreflang baseUrl rest (acc ++ [mkHreflang lang a])%list
            else collect_hreflang baseUrl rest acc
        | None => collect_hreflang baseUrl rest acc
        end
  end.

(** [None] is an exception ([new URL(baseUrl)] is outside any [try]). *)
Definition extractHtmlSignals (html baseUrl : string) : option HtmlSignals :=
  let doc := cheerio_load html in
  let canonEls := doc_canonicals doc in
  let issues := if (1 <? length canonEls)%nat then ["multiple canonicals"] else [] in
  canonical ←
    match canonEls with
    | [] => Some None
    | el :: _ =>
        let href := Js.trim (default "" el) in
        if Js.truthy href
        then base ← url_parse baseUrl; Some (UrlUtils.absolutize base href)
        else Some None
    end;
  hreflang ← collect_hreflang baseUrl (doc_alternates doc) [];
  let metaRobots :=
    foldl (fun acc el => mergeRobots acc (parseRobotsDirectives (Some (default "" el))))
          None (doc_metaRobots doc) in
  Some (mkSignals canonical hreflang metaRobots issues).

(** The result returned from the [catch] around the fetch. *)
Definition fetch_failed (rawUrl : string) : AuditResult :=
  {| a_url := rawUrl;
     a_finalUrl := rawUrl;
     a_status := 0;
     a_contentType := None;
     a_canonical := None;
     a_metaRobots := None;
     a_xRobots := None;
     a_noindex := mkNoindex false false;
     a_hreflang := [];
     a_issues := ["fetch failed"];
     a_redirectChain := [] |}.

(** The task body after a successful fetch ([res.text()] is read off
    the response); [None] is an exception leaving the task. *)
Definition analyse (rawUrl : string) (resInfo : ResInfo) : option AuditResult :=
  let res := ri_res resInfo in
  let finalUrl := ri_finalUrl resInfo in
  let status := res_status res in
  let contentType := headers_get (res_headers res) "content-type" in
  let xValues := getAllXRobots (res_headers res) in
  let xRobots :=
    foldl (fun acc v => mergeRobots acc (parseRobotsDirectives (Some v))) None xValues in
  let nothing := mkSignals None [] None [] in
  extracted ←
    (if negb (status =? 204)%nat
        && match contentType with
           | Some ct => Js.includes ct "text/html"
           | None => false
           end
     then
       let html := default "" (res_text res) in
       if Js.truthy html then extractHtmlSignals html finalUrl else Some nothing
     else Some nothing);
  let canonical := hs_canonical extracted in
  let metaRobots := hs_metaRobots extracted in
  let issues := hs_issues extracted in
  let noindexMeta := field_truthy metaRobots noindex in
  let noindexHeader := field_truthy xRobots noindex in
  let issues :=
    if negb (Bool.eqb noindexMeta noindexHeader) && (noindexMeta || noindexHeader)
    then (issues ++ ["conflicting noindex between meta and header"])%list
    else issues in
  let issues :=
    if Js.truthy_opt canonical then
      match url_parse finalUrl, canonical ≫= url_parse with
      | Some pageU, Some canonU =>
          if negb (UrlUtils.sameETLD1 pageU canonU)
          then (issues ++ ["canonical points to different eTLD+1"])%list
          else issues
      | _, _ => (issues ++ ["invalid canonical URL"])%list
      end
    else issues in
  Some {| a_url := rawUrl;
          a_finalUrl := finalUrl;
          a_status := status;
          a_contentType := contentType;
          a_canonical := canonical;
          a_metaRobots := metaRobots;
          a_xRobots := xRobots;
          a_noindex := mkNoindex noindexMeta noindexHeader;
          a_hreflang := hs_hreflang extracted;
          a_issues := issues;
          a_redirectChain := ri_redirectChain resInfo |}.

(** One task of [input.urls.map(...)], run from world [w]. *)
Definition auditTask (ua rawUrl : string) (w : World) : option AuditResult :=
  match fetchWithRedirects rawUrl ua w with
  | (_, None) => Some (fetch_failed rawUrl)
  | (_, Some resInfo) => analyse rawUrl resInfo
  end.

Record AuditInput := mkAuditInput {
  urls : list string;
  userAgent : option string;
}.

(** [Promise.all] over the tasks: results in input order, or the
    rejection of a task. The tasks interleave on the network, so each
    one is given the world it sees, [worlds i] for the task at index
    [i]; [DEFAULT_UA] is read from the environment. *)
Definition auditIndexability (DEFAULT_UA : string) (worlds : nat -> World)
           (input : AuditInput) : option (list AuditResult) :=
  let ua := default DEFAULT_UA (userAgent input) in
  mapM (fun '(i, rawUrl) => auditTask ua rawUrl (worlds i))
       (imap (fun i rawUrl => (i, rawUrl)) (urls input)).

End Auditor.

End Audit.

(* ===================================================================== *)
(** ** JS [Set] of strings, as an array *)
(* ===================================================================== *)

(** A [Set<string>] is the list of its elements in insertion order. *)
Module JsSet.

(** [new Set(arr)]: each element is added in turn. *)
Definition from_array (arr : list string) : list string :=
  foldl (fun found x => Crawler.set_add x found) [] arr.

(** [set.has(x)] *)
Definition has (set : list string) (x : string) : bool := bool_decide (x ∈ set).

End JsSet.

(* ===================================================================== *)
(** ** utils/url.ts: loading the ignore list *)
(* ===================================================================== *)

Module IgnoreList.

(** [node:fs] as the loader uses it; a [readFileSync] that is [None]
    throws. *)
Record FileSys := mkFileSys {
  existsSync : string -> bool;
  readFileSync : string -> option string;
}.

(** [override] is [process.env.CRAWLER_IGNORE_EXT_FILE], [asset] the
    resolved path of the packaged [ignore-extensions.txt]. *)
Definition resolveIgnoreListPath (fs : FileSys) (override : option string)
           (asset : string) : string :=
  match override with
  | Some o => if Js.truthy o && existsSync fs o then o else asset
  | None => asset
  end.

(** [content.split("\n").map(s => s.trim().toLowerCase()).filter(Boolean)] *)
Definition lines (content : string) : list string :=
  filter (fun s => Js.truthy s = true)
         (map (fun s => Js.toLowerCase (Js.trim s)) (Js.split_char "010" content)).

(** The value the module-level initializer leaves in [ignoredExt]. *)
Definition ignoredExt (fs : FileSys) (override : option string)
           (asset : string) : list string :=
  let file := resolveIgnoreListPath fs override asset in
  if existsSync fs file then
    match readFileSync fs file with
    | Some content => lines content
    | None => []
    end
  else [].

End IgnoreList.

(* ===================================================================== *)
(** ** utils/robots.ts *)
(* ===================================================================== *)

Module Robots.

Record RobotsAgent := mkAgent {
  isAllowed : string -> bool;
  crawlDelay : option nat;                   (* seconds *)
  sitemaps : list string;
}.

(** What [robots-parser] returns for a robots.txt: [isAllowed(url, ua)]
    may answer [null]; the two optional methods may be missing, and
    [getSitemaps()] may answer [null]. *)
Record ParserWithDelay := mkParser {
  parser_isAllowed : string -> string -> option bool;
  getSitemaps : option (list string);
  getCrawlDelay : option (string -> option nat);
}.

Class RobotsLib := {
  (** [robotsParser(robotsUrl, body)] *)
  robotsParser : string -> string -> ParserWithDelay;
}.

(** The module-level [cache]. *)
Definition Cache : Type := gmap string RobotsAgent.

(** [{ isAllowed: () => true, sitemaps: [] }] *)
Definition allow_all : RobotsAgent := mkAgent (fun _ => true) None [].

Section GetRobotsAgent.
Context `{UrlLib} `{Network} `{RobotsLib}.

(** The result is the world and the cache after the call, and the agent
    returned; [None] is the exception of [new URL("/robots.txt", origin)]. *)
Definition getRobotsAgent (origin userAgent : string) (cache : Cache) (w : World)
  : World * Cache * option RobotsAgent :=
  match cache !! origin with
  | Some agent => (w, cache, Some agent)
  | None =>
      match url_resolve "/robots.txt" origin with
      | None => (w, cache, None)
      | Some r =>
          let robotsUrl := url_href r in
          let failed (w' : World) :=
            (w', <[origin := allow_all]> cache, Some allow_all) in
          match fetch {| req_url := robotsUrl;
                         req_headers := [("User-Agent", userAgent)];
                         req_redirect := "follow";
                         req_timeout := None |} w with
          | (w1, None) => failed w1
          | (w1, Some res) =>
              match res_text res with
              | None => failed w1
              | Some body =>
                  let parser := robotsParser robotsUrl body in
                  let sitemaps := default [] (getSitemaps parser) in
                  let crawlDelay :=
                    match getCrawlDelay parser with
                    | Some delay =>
                        match delay userAgent with
                        | Some d => Some d
                        | None => delay "*"
                        end
                    | None => None
                    end in
                  let agent :=
                    {| isAllowed := fun url =>
                         default true (parser_isAllowed parser url userAgent);
                       crawlDelay := crawlDelay;
                       sitemaps := sitemaps |} in
                  (w1, <[origin := agent]> cache, Some agent)
              end
          end
      end
  end.

End GetRobotsAgent.

End Robots.

(* ===================================================================== *)
(** ** utils/sitemap.ts *)
(* ===================================================================== *)

Module Sitemap.

(** An entry of a sitemap index or of a URL set; [loc] is [None] when the
    entry has none (or is not an object). *)
Record SitemapItem := mkSitemapItem { loc : option string }.

(** What the parsed document holds at [sitemapindex.sitemap] and at
    [urlset.url]: nothing (or a falsy value), one entry, or an array. *)
Inductive Entries :=
| absent
| single (item : SitemapItem)
| array (items : list SitemapItem).

Record SitemapDoc := mkSitemapDoc {
  sitemapindex_sitemap : Entries;
  urlset_url : Entries;
}.

(** [fast-xml-parser]; [None] is a thrown error. *)
Class XmlLib := { xml_parse : string -> option SitemapDoc }.

(** [if (x)] followed by [Array.isArray(x) ? x : [x]]. *)
Definition as_array (x : Entries) : option (list SitemapItem) :=
  match x with
  | absent => None
  | single item => Some [item]
  | array items => Some items
  end.

Section Sitemaps.
Context `{UrlLib} `{Network} `{XmlLib}.

Definition fetchText (url ua : string) : Async string :=
  await res <- fetch {| req_url := url;
                        req_headers := [("User-Agent", ua)];
                        req_redirect := "follow";
                        req_timeout := None |} in
  if negb (res_ok res) then athrow
  else match res_text res with
       | Some text => aret text
       | None => athrow
       end.

Definition discoverSitemaps (startUrl : string) (robotsSitemaps : list string)
           (_userAgent : string) : list string :=
  let found := JsSet.from_array robotsSitemaps in
  match url_parse startUrl with
  | None => found
  | Some u =>
      match url_resolve "/sitemap.xml" (protocol u +:+ "//" +:+ host u) with
      | None => found
      | Some guess => Crawler.set_add (url_href guess) found
      end
  end.

(** [for (const cu of childUrls) { acc.push(cu); if (acc.length >= limit) break; }] *)
Fixpoint push_urls (limit : nat) (childUrls acc : list string) : list string :=
  match childUrls with
  | [] => acc
  | cu :: rest =>
      let acc := (acc ++ [cu])%list in
      if (limit <=? length acc)%nat then acc else push_urls limit rest acc
  end.

(** [for (const child of children)]; [recur] is the recursive call, which
    is [None] while it has not returned. *)
Fixpoint children_loop (recur : string -> nat -> World -> option (World * list string))
         (limit : nat) (children : list SitemapItem) (acc : list string)
         (w : World) : option (World * list string) :=
  match children with
  | [] => Some (w, acc)
  | child :: rest =>
      if negb (Js.truthy_opt (loc child)) then children_loop recur limit rest acc w
      else
        match recur (default "" (loc child)) (limit - length acc) w with
        | None => None
        | Some (w', childUrls) =>
            let acc := push_urls limit childUrls acc in
            if (limit <=? length acc)%nat then Some (w', acc)
            else children_loop recur limit rest acc w'
        end
  end.

(** [entries.map(e => (e?.loc ?? "").toString().trim()).filter(Boolean).slice(0, limit)] *)
Definition urlset_urls (limit : nat) (entries : list SitemapItem) : list string :=
  take limit
       (filter (fun u => Js.truthy u = true)
               (map (fun e => Js.trim (default "" (loc e))) entries)).

(** The recursion follows the documents served, so it is bounded by
    [fuel], the number of nested calls allowed: [None] is a call that has
    not returned within it. Whatever is thrown inside is caught, so a call
    that returns returns a list. *)
Fixpoint collectSitemapUrls (fuel : nat) (sitemapUrl userAgent : string)
         (limit : nat) (w : World) : option (World * list string) :=
  match fuel with
  | O => None
  | S fuel' =>
      match fetchText sitemapUrl userAgent w with
      | (w1, None) => Some (w1, [])
      | (w1, Some xml) =>
          match xml_parse xml with
          | None => Some (w1, [])
          | Some doc =>
              match as_array (sitemapindex_sitemap doc) with
              | Some children =>
                  children_loop (fun url limit => collectSitemapUrls fuel' url userAgent limit)
                                limit children [] w1
              | None =>
                  match as_array (urlset_url doc) with
                  | Some entries => Some (w1, urlset_urls limit entries)
                  | None => Some (w1, [])
                  end
              end
          end
      end
  end.

End Sitemaps.

End Sitemap.

(* ===================================================================== *)
(** ** crawler/crawl.ts: what [crawlSite] does before and after the loop *)
(* ===================================================================== *)

Module CrawlSite.

Record CrawlInput := mkCrawlInput {
  startUrl : string;
  depth : option nat;
  maxPages : option nat;
  includeSubdomains : option bool;
  userAgent : option string;
}.

(** The module-level [DEFAULTS], read from the environment. *)
Record Defaults := mkDefaults {
  default_depth : nat;
  default_maxPages : nat;
  ua : string;
  maxConcurrency : nat;
  respectRobots : bool;
  requestTimeoutMs : nat;
}.

Record StatusBuckets := mkBuckets {
  b0xx : nat;
  b2xx : nat;
  b3xx : nat;
  b4xx : nat;
  b5xx : nat;
}.

Record CrawlReports := mkReports {
  orphansInSitemap : list string;
  linkedNotInSitemap : list string;
  statusBuckets : StatusBuckets;
}.

Record Stats := mkStats {
  pagesFetched : nat;
  pagesFromSitemap : nat;
  pagesFromHtml : nat;
  elapsedMs : nat;
}.

Record CrawlOutput := mkOutput {
  out_inventory : list InventoryItem;
  out_edges : list Edge;
  out_sitemap : list string;
  out_stats : Stats;
  out_reports : CrawlReports;
}.

(** What the lines before the loop compute. *)
Record Prelude := mkPrelude {
  setup : Crawler.Setup;
  user_agent : string;
  robots : Robots.RobotsAgent;
  smCandidates : list string;
}.

(** [a || b] on strings. *)
Definition or_else (a b : string) : string := if Js.truthy a then a else b.

Section BeforeTheLoop.
Context `{UrlLib} `{Network} `{Robots.RobotsLib} `{Sitemap.XmlLib}.

(** [(input.userAgent?.trim() || DEFAULTS.ua) || BROWSER_UA] *)
Definition effective_ua (DEFAULTS : Defaults) (input : CrawlInput) : string :=
  or_else (or_else (match userAgent input with
                    | Some s => Js.trim s
                    | None => ""
                    end)
                   (ua DEFAULTS))
          Crawler.BROWSER_UA.

(** The sitemap endpoints tried: those of [discoverSitemaps], then
    [/sitemap.xml] on the start host and on its www or non-www twin.
    [None] is the exception of [new URL("/sitemap.xml", base)]. *)
Definition sitemap_candidates (input : CrawlInput) (base : URL)
           (robots : Robots.RobotsAgent) (ua : string) : option (list string) :=
  let smCandidatesSet :=
    JsSet.from_array
      (Sitemap.discoverSitemaps (startUrl input) (Robots.sitemaps robots) ua) in
  let host := hostname base in
  rootSm ← url_href <$> url_resolve "/sitemap.xml" (url_href base);
  let smCandidatesSet := Crawler.set_add rootSm smCandidatesSet in
  Some (if Js.startsWith host "www."
        then Crawler.set_add
               (protocol base +:+ "//"
                +:+ String.substring 4 (String.length host - 4) host
                +:+ "/sitemap.xml")
               smCandidatesSet
        else Crawler.set_add
               (protocol base +:+ "//www." +:+ host +:+ "/sitemap.xml")
               smCandidatesSet).

(** [for (const u of urls) fromSitemaps.add(normalizeForKey(u))] inside
    its [try]: an exception ends the loop and keeps what was added. *)
Fixpoint add_keys (urls : list string) (fromSitemaps : list string) : list string :=
  match urls with
  | [] => fromSitemaps
  | u :: rest =>
      match UrlUtils.normalizeForKey u with
      | Some k => add_keys rest (Crawler.set_add k fromSitemaps)
      | None => fromSitemaps
      end
  end.

(** [for (const sm of smCandidates)]; [None] while a sitemap call has
    not returned. *)
Fixpoint collect_all (fuel : nat) (ua : string) (maxPages : nat)
         (sms : list string) (fromSitemaps : list string) (w : World)
  : option (World * list string) :=
  match sms with
  | [] => Some (w, fromSitemaps)
  | sm :: rest =>
      match Sitemap.collectSitemapUrls fuel sm ua maxPages w with
      | None => None
      | Some (w', urls) => collect_all fuel ua maxPages rest (add_keys urls fromSitemaps) w'
      end
  end.

(** [crawlSite] down to the pre-registration of the sitemap keys.
    [ignoredExt] is the list loaded by [utils/url.ts]. The outer [None] is
    a call that has not come this far within [fuel]; the inner one an
    exception leaving [crawlSite]. *)
Definition before_loop (fuel : nat) (DEFAULTS : Defaults) (ignoredExt : list string)
           (input : CrawlInput) (cache : Robots.Cache) (w : World)
  : option (World * Robots.Cache * option Prelude) :=
  let depthMax := default (default_depth DEFAULTS) (depth input) in
  let maxPages := default (default_maxPages DEFAULTS) (maxPages input) in
  let includeSub := default false (includeSubdomains input) in
  let ua := effective_ua DEFAULTS input in
  match url_parse (startUrl input) with
  | None => Some (w, cache, None)
  | Some base =>
      let origin := protocol base +:+ "//" +:+ host base in
      let '(w, cache, robots) :=
        if respectRobots DEFAULTS then Robots.getRobotsAgent origin ua cache w
        else (w, cache, Some Robots.allow_all) in
      match robots with
      | None => Some (w, cache, None)
      | Some robots =>
          match sitemap_candidates input base robots ua with
          | None => Some (w, cache, None)
          | Some smCandidates =>
              match collect_all fuel ua maxPages smCandidates [] w with
              | None => None
              | Some (w, fromSitemaps) =>
                  Some (w, cache,
                        Some {| setup :=
                                  {| Crawler.depthMax := depthMax;
                                     Crawler.maxPages := maxPages;
                                     Crawler.includeSub := includeSub;
                                     Crawler.base := base;
                                     Crawler.maxConcurrency := maxConcurrency DEFAULTS;
                                     Crawler.respectRobots := respectRobots DEFAULTS;
                                     Crawler.isAllowed := Robots.isAllowed robots;
                                     Crawler.ignoredExt := ignoredExt;
                                     Crawler.fromSitemaps := fromSitemaps |};
                                user_agent := ua;
                                robots := robots;
                                smCandidates := smCandidates |})
              end
          end
      end
  end.

End BeforeTheLoop.

(** *** The derived reports *)

(** The Set [inbound]: the targets of the edges. It is built before the
    post-pass, which records no edge. *)
Definition inbound (s : Crawler.State) : list string :=
  JsSet.from_array (edge_to <$> Crawler.edges s).

(** One pass of the [reduce] that fills [statusBuckets]. *)
Definition count_status (acc : StatusBuckets) (i : InventoryItem) : StatusBuckets :=
  if (status i =? 0)%nat then
    mkBuckets (b0xx acc + 1) (b2xx acc) (b3xx acc) (b4xx acc) (b5xx acc)
  else if (200 <=? status i)%nat && (status i <? 300)%nat then
    mkBuckets (b0xx acc) (b2xx acc + 1) (b3xx acc) (b4xx acc) (b5xx acc)
  else if (300 <=? status i)%nat && (status i <? 400)%nat then
    mkBuckets (b0xx acc) (b2xx acc) (b3xx acc + 1) (b4xx acc) (b5xx acc)
  else if (400 <=? status i)%nat && (status i <? 500)%nat then
    mkBuckets (b0xx acc) (b2xx acc) (b3xx acc) (b4xx acc + 1) (b5xx acc)
  else if (500 <=? status i)%nat && (status i <? 600)%nat then
    mkBuckets (b0xx acc) (b2xx acc) (b3xx acc) (b4xx acc) (b5xx acc + 1)
  else acc.

(** What [crawlSite] returns from the state [s] in which the post-pass
    has ended; [elapsed] is the time measured. *)
Definition output (cfg : Crawler.Setup) (smCandidates : list string)
           (elapsed : nat) (s : Crawler.State) : CrawlOutput :=
  let sitemapSet := JsSet.from_array (Crawler.fromSitemaps cfg) in
  let inventory := Crawler.inventory s in
  let inbound := inbound s in
  {| out_inventory := inventory;
     out_edges := Crawler.edges s;
     out_sitemap := smCandidates;
     out_stats :=
       {| pagesFetched := Crawler.fetchedCount s;
          pagesFromSitemap := length sitemapSet;
          pagesFromHtml :=
            length (filter (fun i => discoveredBy i = html ∨ discoveredBy i = both)
                           inventory);
          elapsedMs := elapsed |};
     out_reports :=
       {| orphansInSitemap :=
            filter (fun k => JsSet.has inbound k = false) sitemapSet;
          linkedNotInSitemap :=
            filter (fun k => JsSet.has sitemapSet k = false) inbound;
          statusBuckets :=
            foldl count_status (mkBuckets 0 0 0 0 0) inventory |} |}.

End CrawlSite.

(* ===================================================================== *)
(** ** A reference platform for concrete runs *)
(* ===================================================================== *)

(** Instances of the interfaces on which the definitions above can be
    evaluated. The URL parser covers [http(s)://host[:port][/path][?query][#fragment]]
    without escapes or dot segments, and resolves absolute and root-relative
    references; [normalize-url] removes the [utm_*] parameters and performs
    the transformations that [NORMALIZE_OPTS] switches on (directory index,
    query order, trailing slash). Servers and documents are given as
    tables. *)
Module Ref.

(** [s] cut at the first [c]: the part before, and the part after if
    [c] occurs. *)
Fixpoint cut (c : ascii) (s : string) : string * option string :=
  match s with
  | EmptyString => (EmptyString, None)
  | String d s' =>
      if Ascii.eqb d c then (EmptyString, Some s')
      else let '(a, b) := cut c s' in (String d a, b)
  end.

Definition parse_query (q : string) : list (string * string) :=
  map (fun p => let '(k, v) := cut "=" p in (k, default "" v))
      (filter (fun p => Js.truthy p = true) (Js.split_char "&" q)).

Definition parse_host (h : string) : string * string :=
  let '(hn, p) := cut ":" h in (Js.toLowerCase hn, default "" p).

(** [new URL(s)] on the subset described above; anything else is
    refused. *)
Definition parse (s : string) : option URL :=
  let '(scheme, rest) := cut ":" s in
  let scheme := Js.toLowerCase scheme in
  if negb (String.eqb scheme "http" || String.eqb scheme "https") then None
  else
    match rest with
    | Some (String "/" (String "/" r)) =>
        let '(r1, frag) := cut "#" r in
        let '(r2, query) := cut "?" r1 in
        let '(h, path) := cut "/" r2 in
        let '(hn, p) := parse_host h in
        if negb (Js.truthy hn) then None
        else
          Some {| protocol := scheme +:+ ":";
                  hostname := hn;
                  port := p;
                  pathname := "/" +:+ default "" path;
                  searchParams := parse_query (default "" query);
                  hash := match frag with
                          | Some f => if Js.truthy f then "#" +:+ f else ""
                          | None => ""
                          end |}
    | _ => None
    end.

Definition serialize_query (ps : list (string * string)) : string :=
  match ps with
  | [] => ""
  | _ => "?" +:+ Js.join "&" (map (fun kv => kv.1 +:+ "=" +:+ kv.2) ps)
  end.

Definition href (u : URL) : string :=
  protocol u +:+ "//" +:+ host u +:+ pathname u
  +:+ serialize_query (searchParams u) +:+ hash u.

Definition set_host (h : string) (u : URL) : URL :=
  let '(hn, p) := parse_host h in
  mkURL (protocol u) hn p (pathname u) (searchParams u) (hash u).

Definition resolve (rel base : string) : option URL :=
  match parse rel with
  | Some u => Some u
  | None =>
      if Js.startsWith rel "/" then
        b ← parse base; parse (protocol b +:+ "//" +:+ host b +:+ rel)
      else None
  end.

Definition is_lower_letter (c : ascii) : bool :=
  let n := nat_of_ascii c in (97 <=? n)%nat && (n <=? 122)%nat.

(** The pattern [/^index\.[a-z]+$/]. *)
Definition is_directory_index (name : string) : bool :=
  Js.startsWith name "index."
  && let ext := String.substring 6 (String.length name - 6) name in
     Js.truthy ext && forallb is_lower_letter (String.list_ascii_of_string ext).

(** The non-empty segments of a path. *)
Definition segments (p : string) : list string :=
  filter (fun seg => Js.truthy seg = true) (Js.split_char "/" p).

(** The segments left once the directory-index names at the end are
    gone; [rsegs] is in reverse order. *)
Fixpoint drop_directory_indexes (rsegs : list string) : list string :=
  match rsegs with
  | seg :: rest => if is_directory_index seg then drop_directory_indexes rest else rsegs
  | [] => []
  end.

Definition normalize_path (opts : NormalizeOptions) (p : string) : string :=
  let segs := segments p in
  let kept := if removeDirectoryIndex opts
              then rev (drop_directory_indexes (rev segs)) else segs in
  let directory := Js.endsWith p "/" || negb (length kept =? length segs)%nat in
  let body := Js.join "/" kept in
  if removeTrailingSlash opts then (if Js.truthy body then "/" +:+ body else "")
  else if directory && Js.truthy body then "/" +:+ body +:+ "/" else "/" +:+ body.

Definition is_word_char (c : ascii) : bool :=
  let n := nat_of_ascii c in
  ((48 <=? n)%nat && (n <=? 57)%nat) || ((65 <=? n)%nat && (n <=? 90)%nat)
  || (n =? 95)%nat || ((97 <=? n)%nat && (n <=? 122)%nat).

(** The pattern [/^utm_\w+/i]. *)
Definition is_utm (name : string) : bool :=
  Js.startsWith (Js.toLowerCase name) "utm_"
  && match String.get 4 name with Some c => is_word_char c | None => false end.

Fixpoint insert_param (kv : string * string) (l : list (string * string))
  : list (string * string) :=
  match l with
  | [] => [kv]
  | kv' :: l' => if String.ltb kv.1 kv'.1 then kv :: l else kv' :: insert_param kv l'
  end.

(** [searchParams.sort()]: by name, stable. *)
Definition sort_params (l : list (string * string)) : list (string * string) :=
  foldl (fun acc kv => insert_param kv acc) [] l.

(** Modelled from the spec: [normalize-url] is an npm package, not among
    the sources. Of what section 4.3 lists for the key, it performs what
    is left to the package: it removes the [utm_*] parameters (its
    default), sorts the remaining ones by name, removes directory-index
    file names from the end of the path (all of them, so that a path it
    returns ends in none), empty path segments and a trailing slash, as
    [NORMALIZE_OPTS] switches them on. *)
Definition normalize (s : string) (opts : NormalizeOptions) : option string :=
  u ← parse s;
  let params := filter (fun kv => is_utm kv.1 = false) (searchParams u) in
  let params := if sortQueryParameters opts then sort_params params else params in
  Some (href (mkURL (protocol u) (hostname u) (port u)
                    (normalize_path opts (pathname u)) params (hash u))).

Definition urlLib : UrlLib :=
  {| url_parse := parse;
     url_resolve := resolve;
     url_href := href;
     url_set_host := set_host;
     normalizeUrl := normalize |}.

(** A server that answers each request by a fixed function. *)
Definition server (answer : Request -> option Response) : Network :=
  {| World := unit; net_fetch req w := (w, answer req) |}.

(** A server whose answers also depend on how many requests came before. *)
Definition clocked_server (answer : nat -> Request -> option Response) : Network :=
  {| World := nat; net_fetch req n := (S n, answer n req) |}.

Definition user_agent (req : Request) : string :=
  default "" (headers_get (req_headers req) "user-agent").

(** Documents by their text. *)
Definition documents (table : list (string * Doc)) : HtmlLib :=
  {| cheerio_load html :=
       default (mkDoc [] [] [] [])
               (snd <$> List.find (fun e => String.eqb e.1 html) table) |}.

End Ref.

(* ===================================================================== *)
(** ** Vocabulary of the properties *)
(* ===================================================================== *)

#[global] Arguments nat_includes : simpl never.
#[global] Arguments Js.includes : simpl never.

(** The characters of a string. *)
Abbreviation chars := String.list_ascii_of_string.

(** A character that is neither a dot nor a slash. *)
Definition plain_char (c : ascii) : Prop := c ≠ "."%char ∧ c ≠ "/"%char.

(** The six directive keys. *)
Inductive Directive :=
  Noindex | Nofollow | Noarchive | Nosnippet | Noimageindex | Nocache.

Definition directive_field (d : Directive) : RobotsDirectives -> option bool :=
  match d with
  | Noindex => noindex
  | Nofollow => nofollow
  | Noarchive => noarchive
  | Nosnippet => nosnippet
  | Noimageindex => noimageindex
  | Nocache => nocache
  end.

(** What a possibly absent directive set asserts for a key: [None] is
    "not asserted". *)
Definition asserted (o : option RobotsDirectives) (d : Directive) : option bool :=
  o ≫= directive_field d.

(** A merge that keeps a key absent from both inputs absent. *)
Definition keeps_absent_keys (a b : option RobotsDirectives) : Prop :=
  ∀ d, asserted a d = None → asserted b d = None →
       asserted (Audit.mergeRobots a b) d = None.

Definition CONFLICT : string := "conflicting noindex between meta and header".

(** No header entry is an [X-Robots-Tag]. *)
Definition no_x_robots_tag (res : Response) : Prop :=
  Forall (fun kv => Js.toLowerCase kv.1 ≠ "x-robots-tag") (res_headers res).

(** The response is one whose body the auditor parses as HTML. *)
Definition html_response (res : Response) (html : string) : Prop :=
  res_status res ≠ 204
  ∧ (∃ ct, headers_get (res_headers res) "content-type" = Some ct
           ∧ Js.includes ct "text/html" = true)
  ∧ res_text res = Some html
  ∧ html ≠ "".

(** Redirect following as the specification words it: while the status is
    one of 301, 302, 303, 307, 308, a Location is present and fewer than 10
    hops have been followed, resolve the location against the current URL,
    record one hop and re-issue; otherwise the current response is final.
    A location that does not resolve, or a re-issued request that fails,
    fails the fetch.
    [Follows send n cur res hops w out]: [n] hops followed so far, [res] is
    the response for [cur] in world [w], [hops] the records so far, [out]
    what the logical fetch ends with. *)
Section FollowSpec.
Context `{UrlLib} `{Network}.
Variable send : string → Async Response.

Definition REDIRECTS : list nat := [301; 302; 303; 307; 308].

(** A Location header with a value. *)
Definition location (res : Response) : option string :=
  match headers_get (res_headers res) "location" with
  | Some loc => if Js.truthy loc then Some loc else None
  | None => None
  end.

Inductive Follows :
  nat → string → Response → list RedirectHop → World → World * option ResInfo → Prop :=
| follows_final n cur res hops w :
    ¬ (res_status res ∈ REDIRECTS ∧ is_Some (location res) ∧ n < 10) →
    Follows n cur res hops w (w, Some (mkResInfo res cur hops))
| follows_hop n cur res hops w loc next w' res' out :
    res_status res ∈ REDIRECTS → location res = Some loc → n < 10 →
    url_resolve loc cur = Some next →
    send (url_href next) w = (w', Some res') →
    Follows (S n) (url_href next) res'
            (hops ++ [mkHop cur (url_href next) (res_status res)]) w' out →
    Follows n cur res hops w out
| follows_unresolvable n cur res hops w loc :
    res_status res ∈ REDIRECTS → location res = Some loc → n < 10 →
    url_resolve loc cur = None →
    Follows n cur res hops w (w, None)
| follows_unreachable n cur res hops w loc next w' :
    res_status res ∈ REDIRECTS → location res = Some loc → n < 10 →
    url_resolve loc cur = Some next →
    send (url_href next) w = (w', None) →
    Follows n cur res hops w (w', None).
End FollowSpec.

(** The network answers the auditor's request as it answers the crawler's:
    it looks at the URL and the user agent only. *)
Definition header_blind `{UrlLib} `{Network} : Prop :=
  ∀ url ua timeoutMs w,
    Crawler.fetchOnce url ua timeoutMs w = fetch (Audit.init ua url) w.

(** What [normalizeForKey] relies on in the URL class and in
    [normalize-url]. *)
Section UrlPlatform.
Context `{UrlLib}.




End UrlPlatform.

(** The crawl states reached from the start of the loop, and what holds
    in each of them. *)
Section CrawlInvariant.
Context `{UrlLib} `{HtmlLib}.
Variable cfg : Crawler.Setup.

(** [s] is the state after some events of a run. *)
Definition reachable (s : Crawler.State) : Prop :=
  ∃ evs, Crawler.run cfg evs (Crawler.crawl_init cfg) = Some s.

(** The keys of the visits waiting for their fetch. *)
Definition fetching_keys (tasks : list Crawler.Task) : list string :=
  omap (fun t => match t with
                 | Crawler.Fetching _ key => Some key
                 | Crawler.Reading _ _ => None
                 end) tasks.

(** Every entry is stored under its own [normalizedUrl]. *)
Definition keyed (m : gmap string InventoryItem) : Prop :=
  ∀ k it, m !! k = Some it → normalizedUrl it = k.

(** During the traversal an entry that is more than a sitemap placeholder
    belongs to a visit that has finished its fetch; the visits in flight
    hold distinct keys, all marked as seen. *)
Definition bfs_inv (s : Crawler.State) : Prop :=
  (∀ k it, Crawler.inventoryMap s !! k = Some it → discoveredBy it ≠ sitemap →
           k ∈ Crawler.seen s ∧ k ∉ fetching_keys (Crawler.running s))
  ∧ (∀ k, k ∈ fetching_keys (Crawler.running s) → k ∈ Crawler.seen s)
  ∧ NoDup (fetching_keys (Crawler.running s)).

Definition crawl_inv (s : Crawler.State) : Prop :=
  keyed (Crawler.inventoryMap s)
  ∧ (Crawler.phase s = Crawler.Bfs → bfs_inv s).

(** The fetches counted so far plus those still in flight. *)
Definition committed (s : Crawler.State) : nat :=
  Crawler.fetchedCount s
  + match Crawler.phase s with
    | Crawler.Bfs => length (fetching_keys (Crawler.running s))
    | Crawler.PostPass toFetch => length toFetch
    end.

(** What the guards of the loop keep the count under: a batch starts
    below [maxPages] and holds at most [maxConcurrency] visits. *)
Definition budget : nat := Crawler.maxPages cfg + (Crawler.maxConcurrency cfg - 1).

(** The node a suspended visit works on. *)
Definition task_node (t : Crawler.Task) : Crawler.Node :=
  match t with
  | Crawler.Fetching node _ => node
  | Crawler.Reading node _ => node
  end.

Definition shallow (node : Crawler.Node) : Prop :=
  Crawler.node_depth node ≤ Crawler.depthMax cfg.

(** Nothing queued or in flight lies deeper than [depthMax], and no entry
    discovered through HTML alone records a greater depth. *)
Definition depth_inv (s : Crawler.State) : Prop :=
  Forall shallow (Crawler.queue s)
  ∧ Forall (fun t => shallow (task_node t)) (Crawler.running s)
  ∧ ∀ k it, Crawler.inventoryMap s !! k = Some it → discoveredBy it = html →
            depth it ≤ Crawler.depthMax cfg.

(** Provenance does not regress from [it] to [it']. *)
Definition strengthens (it it' : InventoryItem) : Prop :=
  discoveredBy it' = discoveredBy it ∨ discoveredBy it' = both.

End CrawlInvariant.

(** Servers, documents and runs on which the definitions are evaluated. *)
Module Examples.

(** A double quote. *)
Definition dq : string := String (ascii_of_nat 34) EmptyString.

(** [<meta name="robots" content="noindex">] inside a page. *)
Definition NOINDEX_PAGE : string :=
  "<html><head><meta name=" +:+ dq +:+ "robots" +:+ dq
  +:+ " content=" +:+ dq +:+ "noindex" +:+ dq +:+ "></head><body></body></html>".

Definition noindex_docs : HtmlLib :=
  Ref.documents [(NOINDEX_PAGE, mkDoc [] [] [] [Some "noindex"])].

(** Every request is answered 200 with the page above and no
    [X-Robots-Tag]. *)
Definition noindex_server : Network :=
  Ref.server (fun _ =>
    Some (mkResponse 200 [("content-type", "text/html; charset=utf-8")]
                     (Some NOINDEX_PAGE))).

(** Nothing is reachable. *)
Definition dead_server : Network := Ref.server (fun _ => None).

Definition no_docs : HtmlLib := Ref.documents [].

Definition plain (st : nat) : Response := mkResponse st [] (Some "ok").

Definition redirect (st : nat) (to : string) : Response :=
  mkResponse st [("location", to)] None.

(** 403 for every user agent but the browser one, which gets 200. *)
Definition picky_server : Network :=
  Ref.server (fun req =>
    if String.eqb (Ref.user_agent req) Crawler.BROWSER_UA
    then Some (plain 200) else Some (plain 403)).

(** 403 for every user agent but the browser one, which gets no
    answer. *)
Definition hostile_server : Network :=
  Ref.server (fun req =>
    if String.eqb (Ref.user_agent req) Crawler.BROWSER_UA
    then None else Some (plain 403)).

(** The first request gets no answer; every later one gets 200. *)
Definition waking_server : Network :=
  Ref.clocked_server (fun n _ => if (n =? 0)%nat then None else Some (plain 200)).

(** Eleven redirects in a row: /r0 to /r1 and so on, by the last
    character of the path. *)
Definition next_hop (url : string) : option string :=
  match String.substring (String.length url - 1) 1 url with
  | "0" => Some "/r1" | "1" => Some "/r2" | "2" => Some "/r3" | "3" => Some "/r4"
  | "4" => Some "/r5" | "5" => Some "/r6" | "6" => Some "/r7" | "7" => Some "/r8"
  | "8" => Some "/r9" | "9" => Some "/ra" | "a" => Some "/rb"
  | _ => None
  end.

Definition looping_server : Network :=
  Ref.server (fun req =>
    match next_hop (req_url req) with
    | Some to => Some (redirect 302 to)
    | None => Some (plain 200)
    end).

(** /a answers 301 to /b, /b answers 302 to /c, /c answers 200. *)
Definition hopping_server : Network :=
  Ref.server (fun req =>
    if String.eqb (req_url req) "https://ex.com/a" then Some (redirect 301 "/b")
    else if String.eqb (req_url req) "https://ex.com/b"
         then Some (redirect 302 "https://ex.com/c")
         else Some (plain 200)).

(** A site whose home page links to three pages. *)
Definition HOME : string := "<a href=/a>A</a><a href=/b>B</a><a href=/c>C</a>".

Definition site_docs : HtmlLib :=
  Ref.documents [(HOME, mkDoc ["/a"; "/b"; "/c"] [] [] [])].

Definition html_page (body : string) (url : string) : ResInfo :=
  mkResInfo (mkResponse 200 [("content-type", "text/html")] (Some body)) url [].

(** [crawlSite({startUrl: "https://ex.com/", depth: 1, maxPages: 2})]
    with robots disabled, no sitemap and an empty ignore list. *)
Definition two_pages : Crawler.Setup :=
  {| Crawler.depthMax := 1;
     Crawler.maxPages := 2;
     Crawler.includeSub := false;
     Crawler.base := mkURL "https:" "ex.com" "" "/" [] "";
     Crawler.maxConcurrency := 6;
     Crawler.respectRobots := false;
     Crawler.isAllowed := fun _ => true;
     Crawler.ignoredExt := [];
     Crawler.fromSitemaps := [] |}.

(** The home page answers, then its three links are fetched as one
    batch and all answer. *)
Definition three_links_run : list Crawler.Event :=
  [ Crawler.NextBatch;
    Crawler.FetchDone 0 (Some (html_page HOME "https://ex.com/"));
    Crawler.BodyDone 0;
    Crawler.NextBatch;
    Crawler.FetchDone 0 (Some (html_page "<p>a</p>" "https://ex.com/a"));
    Crawler.FetchDone 1 (Some (html_page "<p>b</p>" "https://ex.com/b"));
    Crawler.FetchDone 2 (Some (html_page "<p>c</p>" "https://ex.com/c"));
    Crawler.BodyDone 0;
    Crawler.BodyDone 0;
    Crawler.BodyDone 0;
    Crawler.StartPostPass ].

(** The same site with [/b] in a sitemap. *)
Definition with_sitemap : Crawler.Setup :=
  {| Crawler.depthMax := 1;
     Crawler.maxPages := 10;
     Crawler.includeSub := false;
     Crawler.base := mkURL "https:" "ex.com" "" "/" [] "";
     Crawler.maxConcurrency := 6;
     Crawler.respectRobots := false;
     Crawler.isAllowed := fun _ => true;
     Crawler.ignoredExt := [];
     Crawler.fromSitemaps := ["https://ex.com/b"] |}.

(** The home page has answered and its three links are in flight. *)
Definition links_in_flight : list Crawler.Event :=
  [ Crawler.NextBatch;
    Crawler.FetchDone 0 (Some (html_page HOME "https://ex.com/"));
    Crawler.BodyDone 0;
    Crawler.NextBatch ].

(** The reference platform among the URLs of the canonicalization
    examples: the strings it parses, and the URL objects they stand for. *)
Definition known_urls : list string :=
  [ "https://EX.com/a/?b=2&a=1#frag";
    "https://ex.com/a/?b=2&a=1#frag";
    "https://ex.com/a/?b=2&a=1";
    "https://ex.com/a?a=1&b=2";
    "https://ex.com/p?utm_source=x&id=5";
    "https://ex.com/p?id=5";
    "https://ex.com/index.php/index.html";
    "https://ex.com";
    "https://ex.com/" ].

Definition known (s : string) : bool := Js.arr_includes known_urls s.

Definition example_urls : UrlLib :=
  {| url_parse s := if known s then Ref.parse s else None;
     url_resolve rel base :=
       u ← Ref.resolve rel base; if known (Ref.href u) then Some u else None;
     url_href := Ref.href;
     url_set_host := Ref.set_host;
     normalizeUrl s opts := if known s then Ref.normalize s opts else None |}.


End Examples.




(* ===================================================================== *)
(** ** Further vocabulary and examples *)
(* ===================================================================== *)

Module Examples2.

Definition CR : string := String "013" EmptyString.
Definition LF : string := String "010" EmptyString.

(** An ignore list written with Windows line ends, mixed case and stray
    blanks. *)
Definition IGNORE_FILE : string :=
  "png" +:+ CR +:+ LF +:+ "  PDF " +:+ CR +:+ LF +:+ LF +:+ ".Zip" +:+ LF.

(** A page without robots meta, served with an [X-Robots-Tag] written in
    capitals. *)
Definition tagged_response : ResInfo :=
  mkResInfo (mkResponse 200 [("Content-Type", "text/html");
                             ("X-Robots-Tag", "noarchive; NOINDEX")]
                        (Some "<p>hi</p>"))
            "https://ex.com/p" [].

(** Three sitemap documents, by their text: an index of two URL sets
    (with an entry without [loc] between them), and an index that lists
    itself. *)
Definition entry (l : string) : Sitemap.SitemapItem := Sitemap.mkSitemapItem (Some l).

Definition sitemap_docs : Sitemap.XmlLib :=
  {| Sitemap.xml_parse xml :=
       if String.eqb xml "index" then
         Some (Sitemap.mkSitemapDoc
                 (Sitemap.array [entry "https://ex.com/a.xml";
                                 Sitemap.mkSitemapItem None;
                                 entry "https://ex.com/b.xml"])
                 Sitemap.absent)
       else if String.eqb xml "a" then
         Some (Sitemap.mkSitemapDoc
                 Sitemap.absent
                 (Sitemap.array [entry " https://ex.com/1 "; entry "";
                                 entry "https://ex.com/2"]))
       else if String.eqb xml "b" then
         Some (Sitemap.mkSitemapDoc Sitemap.absent (Sitemap.single (entry "https://ex.com/3")))
       else if String.eqb xml "loop" then
         Some (Sitemap.mkSitemapDoc (Sitemap.single (entry "https://ex.com/loop.xml"))
                                    Sitemap.absent)
       else None |}.

Definition xml (body : string) : option Response := Some (mkResponse 200 [] (Some body)).

(** [/sitemap.xml] is the index of [/a.xml] and [/b.xml]; nothing else
    is served. *)
Definition sitemap_server : Network :=
  Ref.server (fun req =>
    if String.eqb (req_url req) "https://ex.com/sitemap.xml" then xml "index"
    else if String.eqb (req_url req) "https://ex.com/a.xml" then xml "a"
    else if String.eqb (req_url req) "https://ex.com/b.xml" then xml "b"
    else Some (Examples.plain 404)).

Definition sitemap_rank (url : string) : nat :=
  if String.eqb url "https://ex.com/sitemap.xml" then 1 else 0.

(** Every URL serves the index that lists [/loop.xml]. *)
Definition self_listing_server : Network := Ref.server (fun _ => xml "loop").

(** A robots.txt parser that knows one file: it disallows [/private]
    for every agent and declares one sitemap. *)
Definition robots_parser : Robots.RobotsLib :=
  {| Robots.robotsParser _ body :=
       if String.eqb body "Disallow: /private" then
         Robots.mkParser
           (fun url _ => if Js.endsWith url "/private" then Some false else None)
           (Some ["https://ex.com/map.xml"])
           None
       else Robots.mkParser (fun _ _ => None) None None |}.

Definition robots_server : Network :=
  Ref.server (fun req =>
    if String.eqb (req_url req) "https://ex.com/robots.txt"
    then xml "Disallow: /private"
    else Some (Examples.plain 404)).

(** A site that serves its robots.txt and the three sitemap documents. *)
Definition full_server : Network :=
  Ref.server (fun req =>
    if String.eqb (req_url req) "https://ex.com/robots.txt" then xml "Disallow: /private"
    else if String.eqb (req_url req) "https://ex.com/sitemap.xml" then xml "index"
    else if String.eqb (req_url req) "https://ex.com/a.xml" then xml "a"
    else if String.eqb (req_url req) "https://ex.com/b.xml" then xml "b"
    else Some (Examples.plain 404)).

Definition DEFAULTS : CrawlSite.Defaults :=
  {| CrawlSite.default_depth := 2;
     CrawlSite.default_maxPages := 500;
     CrawlSite.ua := "";
     CrawlSite.maxConcurrency := 6;
     CrawlSite.respectRobots := true;
     CrawlSite.requestTimeoutMs := 20000 |}.

(** [crawlSite({startUrl: "https://ex.com/", maxPages: 2})] *)
Definition small_crawl : CrawlSite.CrawlInput :=
  {| CrawlSite.startUrl := "https://ex.com/";
     CrawlSite.depth := None;
     CrawlSite.maxPages := Some 2;
     CrawlSite.includeSubdomains := None;
     CrawlSite.userAgent := None |}.

Definition declared_map : Robots.RobotsAgent :=
  Robots.mkAgent (fun _ => true) None ["https://ex.com/map.xml"].

End Examples2.

(** The tokens [parseRobotsDirectives] reads off a directive string: its
    pieces between commas and semicolons, trimmed and lower-cased, the
    empty ones dropped. *)
Definition directive_tokens (raw : string) : list string :=
  filter (fun t => Js.truthy t = true)
         (map (fun t => Js.toLowerCase (Js.trim t))
              (Js.split_runs Audit.is_directive_sep raw)).

(** The hops lead from [start] to [final], each one leaving from where the
    one before arrived. *)
Fixpoint connects (start : string) (hops : list RedirectHop) (final : string) : Prop :=
  match hops with
  | [] => start = final
  | hop :: rest => hop_from hop = start ∧ connects (hop_to hop) rest final
  end.

(** A redirect chain as a fetch may report it for [start]: a path of at
    most ten hops from [start] to the final URL, every hop taken on a
    redirect status. *)
Definition redirect_path (start : string) (ri : ResInfo) : Prop :=
  connects start (ri_redirectChain ri) (ri_finalUrl ri)
  ∧ Forall (fun hop => hop_status hop ∈ REDIRECTS) (ri_redirectChain ri)
  ∧ length (ri_redirectChain ri) ≤ 10.

(** The entry pre-registered for a sitemap key: never fetched. *)
Definition placeholder (k : string) : InventoryItem :=
  {| url := k; normalizedUrl := k; finalUrl := k; status := 0;
     contentType := None; depth := 9999; discoveredBy := sitemap;
     redirectChain := [] |}.

(** The items counted by [stats.pagesFromHtml]. *)
Definition from_html (it : InventoryItem) : Prop :=
  discoveredBy it = html ∨ discoveredBy it = both.

#[global] Instance from_html_dec (it : InventoryItem) : Decision (from_html it).
Proof. unfold from_html. apply _. Defined.

Section Provenance.
Context `{UrlLib} `{HtmlLib}.
Variable cfg : Crawler.Setup.

(** What the provenance of an entry says at every moment of a run:
    the sitemap keys all have an entry; an entry marked [sitemap] is the
    placeholder of a sitemap key; an entry marked [html] is not under a
    sitemap key; and the entries marked [html] or [both] are no more
    than the fetches counted. *)
Definition provenance_inv (s : Crawler.State) : Prop :=
  (∀ k, k ∈ Crawler.fromSitemaps cfg → is_Some (Crawler.inventoryMap s !! k))
  ∧ (∀ k it, Crawler.inventoryMap s !! k = Some it → discoveredBy it = sitemap →
             k ∈ Crawler.fromSitemaps cfg ∧ it = placeholder k)
  ∧ (∀ k it, Crawler.inventoryMap s !! k = Some it → discoveredBy it = html →
             k ∉ Crawler.fromSitemaps cfg)
  ∧ length (filter from_html (Crawler.inventory s)) ≤ Crawler.fetchedCount s.

(** What a step does to the inventory and to the count: nothing, or one
    entry written and one fetch counted. *)
Definition writes_entry (s s' : Crawler.State) : Prop :=
  ∃ key it,
    Crawler.inventoryMap s' = <[key := it]> (Crawler.inventoryMap s)
    ∧ Crawler.fetchedCount s' = Crawler.fetchedCount s + 1
    ∧ (discoveredBy it = both
       ∨ (discoveredBy it = html ∧ key ∉ Crawler.fromSitemaps cfg)).

End Provenance.

Section Links.
Context `{UrlLib} `{HtmlLib}.
Variable cfg : Crawler.Setup.

(** The key of one of the two seeds of the queue. *)
Definition seed_key (k : string) : Prop :=
  ∃ node, node ∈ Crawler.seeds cfg
          ∧ UrlUtils.normalizeForKey (Crawler.node_url node) = Some k.

(** A key the traversal can come to: a seed key or the target of a
    recorded edge. *)
Definition linked_key (s : Crawler.State) (k : string) : Prop :=
  seed_key k ∨ k ∈ Crawler.inbound s.

Definition linked_node (s : Crawler.State) (node : Crawler.Node) : Prop :=
  ∀ k, UrlUtils.normalizeForKey (Crawler.node_url node) = Some k → linked_key s k.

Definition linked_task (s : Crawler.State) (t : Crawler.Task) : Prop :=
  match t with
  | Crawler.Fetching _ key => linked_key s key
  | Crawler.Reading _ _ => True
  end.

(** Whatever is queued, in flight or fetched lies under a linked key, and
    the post-pass only fetches link targets. *)
Definition link_inv (s : Crawler.State) : Prop :=
  Forall (linked_node s) (Crawler.queue s)
  ∧ Forall (linked_task s) (Crawler.running s)
  ∧ (∀ k it, Crawler.inventoryMap s !! k = Some it → discoveredBy it ≠ sitemap →
             linked_key s k)
  ∧ (∀ pending, Crawler.phase s = Crawler.PostPass pending →
                ∀ k, k ∈ pending → k ∈ Crawler.inbound s).

End Links.

(** Some recorded edge points to [k]. *)
Definition has_inbound (s : Crawler.State) (k : string) : Prop :=
  ∃ e, e ∈ Crawler.edges s ∧ edge_to e = k.

(** The number of items whose status lies in [lo, hi). *)
Definition status_in (lo hi : nat) (inventory : list InventoryItem) : nat :=
  length (filter (fun it => lo ≤ status it < hi) inventory).

(** An item that falls into one of the five status buckets. *)
Definition bucketed (it : InventoryItem) : Prop :=
  status it = 0 ∨ 200 ≤ status it < 600.

Definition buckets_total (b : CrawlSite.StatusBuckets) : nat :=
  CrawlSite.b0xx b + CrawlSite.b2xx b + CrawlSite.b3xx b
  + CrawlSite.b4xx b + CrawlSite.b5xx b.

(** The [loc] of the first entry of a sitemap index that has one: the
    first child sitemap that is fetched. *)
Fixpoint first_loc (children : list Sitemap.SitemapItem) : option string :=
  match children with
  | [] => None
  | child :: rest =>
      if Js.truthy_opt (Sitemap.loc child) then Sitemap.loc child else first_loc rest
  end.

Section SitemapWeb.
Context `{UrlLib} `{Network} `{Sitemap.XmlLib}.

(** The children of [url] when it serves a sitemap index in world [w]. *)
Definition index_children (ua url : string) (w : World)
           (children : list Sitemap.SitemapItem) : Prop :=
  ∃ w1 xml doc,
    Sitemap.fetchText url ua w = (w1, Some xml)
    ∧ Sitemap.xml_parse xml = Some doc
    ∧ Sitemap.as_array (Sitemap.sitemapindex_sitemap doc) = Some children.

(** The sitemap indexes nest without cycle: [rank] decreases from an
    index to each child sitemap it lists. *)
Definition well_nested (ua : string) (rank : string → nat) : Prop :=
  ∀ url w children l,
    index_children ua url w children →
    Sitemap.mkSitemapItem (Some l) ∈ children → l ≠ "" →
    rank l < rank url.

End SitemapWeb.

(** At most [limit] URLs, none of them empty. *)
Definition within (limit : nat) (urls : list string) : Prop :=
  length urls ≤ limit ∧ Forall (fun u => u ≠ "") urls.

Section RobotsFetch.
Context `{UrlLib} `{Network}.

(** The request [getRobotsAgent] sends for [origin] in world [w]
    resolves, in world [w1], to a response whose text is [body];
    [robotsUrl] is the URL asked. *)
Definition robots_txt (origin userAgent : string) (w w1 : World)
           (robotsUrl body : string) : Prop :=
  ∃ r res,
    url_resolve "/robots.txt" origin = Some r
    ∧ robotsUrl = url_href r
    ∧ fetch {| req_url := robotsUrl;
               req_headers := [("User-Agent", userAgent)];
               req_redirect := "follow";
               req_timeout := None |} w = (w1, Some res)
    ∧ res_text res = Some body.

End RobotsFetch.

(** The issues an audit result can carry. *)
Definition ISSUES : list string :=
  ["fetch failed"; "multiple canonicals"; CONFLICT;
   "canonical points to different eTLD+1"; "invalid canonical URL"].

(** The token that asserts a directive. *)
Definition keyword (d : Directive) : string :=
  match d with
  | Noindex => "noindex"
  | Nofollow => "nofollow"
  | Noarchive => "noarchive"
  | Nosnippet => "nosnippet"
  | Noimageindex => "noimageindex"
  | Nocache => "nocache"
  end.
(* ===================================================================== *)
(** ** Properties of the indexability auditor *)
(* ===================================================================== *)

Section AuditFacts.
Context `{UrlLib} `{Network} `{HtmlLib}.

Lemma fetch_loop_final_parses ua safety : ∀ cur res hops w w' ri,
  is_Some (url_parse cur) →
  Audit.fetch_loop ua safety cur res hops w = (w', Some ri) →
  is_Some (url_parse (ri_finalUrl ri)).
Proof.
  induction safety as [|n IH]; intros cur res hops w w' ri Hcur;
    cbn [Audit.fetch_loop]; unfold aret, athrow, abind, fetch;
    repeat case_match; intros ?; simplify_eq; try done.
  eapply IH; [|eassumption]. cbn [req_url Audit.init] in *. eauto.
Qed.

Lemma audit_fetch_final_parses url ua w w' ri :
  Audit.fetchWithRedirects url ua w = (w', Some ri) →
  is_Some (url_parse (ri_finalUrl ri)).
Proof.
  unfold Audit.fetchWithRedirects, abind, fetch, athrow.
  cbn [req_url Audit.init].
  repeat case_match; intros ?; simplify_eq.
  eapply fetch_loop_final_parses; [|eassumption]. eauto.
Qed.

Lemma collect_hreflang_total baseUrl els : ∀ acc,
  is_Some (url_parse baseUrl) →
  is_Some (Audit.collect_hreflang baseUrl els acc).
Proof.
  induction els as [|[l h] rest IH]; intros acc Hb; simpl; [eauto|].
  destruct (negb (Js.truthy (Js.trim l)) || negb (Js.truthy (Js.trim (default "" h))));
    [by apply IH|].
  destruct Hb as [b Hb]. rewrite Hb. simpl.
  destruct (UrlUtils.absolutize b _) as [a|]; [|apply IH; eauto].
  destruct (Js.truthy a); apply IH; eauto.
Qed.

Lemma extractHtmlSignals_total html baseUrl :
  is_Some (url_parse baseUrl) →
  ∃ sig, Audit.extractHtmlSignals html baseUrl = Some sig
         ∧ Audit.hs_metaRobots sig =
             foldl (fun acc el => Audit.mergeRobots acc
                                    (Audit.parseRobotsDirectives (Some (default "" el))))
                   None (doc_metaRobots (cheerio_load html)).
Proof.
  intros Hb. unfold Audit.extractHtmlSignals.
  destruct (collect_hreflang_total baseUrl (doc_alternates (cheerio_load html)) [] Hb)
    as [hl Hhl].
  destruct Hb as [b Hb].
  destruct (doc_canonicals (cheerio_load html)) as [|el els]; simpl.
  - rewrite Hhl. simpl. eauto.
  - destruct (Js.truthy (Js.trim (default "" el))); simpl.
    + rewrite Hb. simpl. rewrite Hhl. simpl. eauto.
    + rewrite Hhl. simpl. eauto.
Qed.

Lemma analyse_total rawUrl ri :
  is_Some (url_parse (ri_finalUrl ri)) →
  ∃ r, Audit.analyse rawUrl ri = Some r ∧ a_url r = rawUrl.
Proof.
  intros Hp. unfold Audit.analyse.
  match goal with
  | |- context [mbind _ ?e] => assert (is_Some e) as [sig Hsig]
  end.
  { destruct (_ && _); [|eauto].
    destruct (Js.truthy _); [|eauto].
    destruct (extractHtmlSignals_total (default "" (res_text (ri_res ri))) _ Hp)
      as (sig & -> & _). eauto. }
  rewrite Hsig. simpl. eauto.
Qed.

Lemma auditTask_total ua rawUrl w :
  ∃ r, Audit.auditTask ua rawUrl w = Some r ∧ a_url r = rawUrl.
Proof.
  unfold Audit.auditTask.
  destruct (Audit.fetchWithRedirects rawUrl ua w) as [w' [ri|]] eqn:Hf.
  - apply analyse_total. eapply audit_fetch_final_parses, Hf.
  - eauto.
Qed.

Lemma audit_tasks_in_order ua (worlds : nat → World) l : ∀ (g : nat → nat),
  ∃ results,
    mapM (fun '(i, rawUrl) => Audit.auditTask ua rawUrl (worlds i))
         (imap (fun i rawUrl => (g i, rawUrl)) l) = Some results
    ∧ length results = length l
    ∧ ∀ i, results !! i = l !! i ≫= (fun rawUrl => Audit.auditTask ua rawUrl (worlds (g i))).
Proof.
  induction l as [|u l IH]; intros g; simpl.
  - exists []. split; [done|]. split; [done|]. by intros [|i].
  - destruct (auditTask_total ua u (worlds (g 0))) as (r & Hr & _).
    destruct (IH (g ∘ S)) as (rs & Hrs & Hlen & Hnth).
    exists (r :: rs). rewrite Hr. simpl.
    split; [|split].
    + change (imap ((fun (i : nat) (rawUrl : string) => (g i, rawUrl)) ∘ S) l)
        with (imap (fun (i : nat) (rawUrl : string) => ((g ∘ S) i, rawUrl)) l).
      by rewrite Hrs.
    + by rewrite Hlen.
    + intros [|i]; simpl; [by rewrite Hr|]. apply Hnth.
Qed.

End AuditFacts.

(** *** Merging directive sets *)

Lemma field_truthy_merge a b d :
  Audit.field_truthy (Audit.mergeRobots a b) (directive_field d)
  = Audit.field_truthy a (directive_field d) || Audit.field_truthy b (directive_field d).
Proof. destruct a, b, d; reflexivity. Qed.

(** C7, as the code has it: the merge of two absent directive sets is
    absent; in every other case the merge is a directive set that asserts
    each of the six keys, with the value true exactly when one of the inputs
    holds true for it, so a key absent from both inputs comes out as an
    asserted false. *)
Theorem mergeRobots_or_absent_as_false (a b : option RobotsDirectives) :
  match a, b with
  | None, None => Audit.mergeRobots None None = None
  | _, _ =>
      ∃ merged, Audit.mergeRobots a b = Some merged
                ∧ ∀ d, directive_field d merged
                       = Some (Audit.field_truthy a (directive_field d)
                               || Audit.field_truthy b (directive_field d))
  end.
Proof.
  destruct a as [ra|], b as [rb|]; [..|reflexivity];
    (eexists; split; [reflexivity|]; intros []; reflexivity).
Qed.

(** C7 fails as stated: merging the directives parsed from "noindex" with
    an absent set asserts [nofollow = false], a key neither input has. *)
Lemma mergeRobots_asserts_absent_key :
  ¬ keeps_absent_keys (Audit.parseRobotsDirectives (Some "noindex")) None.
Proof.
  intros Hkeep. specialize (Hkeep Nofollow eq_refl eq_refl).
  vm_compute in Hkeep. discriminate.
Qed.

(** *** One result per URL *)

(** C10: [auditIndexability] returns, for every input and every behaviour
    of the network, a list with one result per input URL, in input order, the
    i-th result carrying the i-th URL; a URL whose fetch failed has the
    status-0 "fetch failed" result at its position. *)
Theorem auditIndexability_one_result_per_url `{UrlLib} `{Network} `{HtmlLib}
    (DEFAULT_UA : string) (worlds : nat → World) (input : Audit.AuditInput) :
  ∃ results,
    Audit.auditIndexability DEFAULT_UA worlds input = Some results
    ∧ length results = length (Audit.urls input)
    ∧ (∀ i, a_url <$> results !! i = Audit.urls input !! i)
    ∧ (∀ i rawUrl,
         Audit.urls input !! i = Some rawUrl →
         (Audit.fetchWithRedirects rawUrl
            (default DEFAULT_UA (Audit.userAgent input)) (worlds i)).2 = None →
         results !! i = Some (Audit.fetch_failed rawUrl)
         ∧ a_status (Audit.fetch_failed rawUrl) = 0).
Proof.
  unfold Audit.auditIndexability.
  destruct (audit_tasks_in_order (default DEFAULT_UA (Audit.userAgent input))
              worlds (Audit.urls input) id) as (results & Hres & Hlen & Hnth).
  exists results. split; [exact Hres|]. split; [exact Hlen|]. split.
  - intros i. rewrite Hnth.
    destruct (Audit.urls input !! i) as [u|]; [|done]. simpl.
    destruct (auditTask_total (default DEFAULT_UA (Audit.userAgent input)) u (worlds i))
      as (r & -> & Hu). simpl. by rewrite Hu.
  - intros i rawUrl Hi Hfail. split; [|done].
    rewrite Hnth, Hi. simpl. unfold Audit.auditTask.
    destruct (Audit.fetchWithRedirects _ _ _) as [w' [ri|]]; [discriminate|done].
Qed.

Lemma auditIndexability_one_result_per_url_witness :
  ∃ results,
    @Audit.auditIndexability Ref.urlLib Examples.dead_server Examples.no_docs
       "mcp-crawler" (fun _ => tt)
       (Audit.mkAuditInput ["https://a.example/x"; "not a url"] None) = Some results
    ∧ length results = 2
    ∧ results !! 1 = Some (Audit.fetch_failed "not a url").
Proof.
  destruct (@auditIndexability_one_result_per_url
              Ref.urlLib Examples.dead_server Examples.no_docs
              "mcp-crawler" (fun _ => tt)
              (Audit.mkAuditInput ["https://a.example/x"; "not a url"] None))
    as (results & Hres & Hlen & _ & Hfail).
  exists results. split; [exact Hres|]. split; [exact Hlen|].
  apply (Hfail 1 "not a url"); reflexivity.
Defined.

(** *** The noindex flags *)

Section NoindexFlags.
Context `{UrlLib} `{Network} `{HtmlLib}.

Lemma getAllXRobots_none_go hs : ∀ acc,
  Forall (fun kv : string * string => Js.toLowerCase kv.1 ≠ "x-robots-tag") hs →
  foldl (fun (vals : list string) kv =>
           if String.eqb (Js.toLowerCase kv.1) "x-robots-tag"
           then (vals ++ [kv.2])%list else vals) acc hs = acc.
Proof.
  induction hs as [|kv hs IH]; intros acc Hall; [done|].
  inversion Hall as [|? ? Hkv Hrest]; subst. simpl.
  destruct (String.eqb_spec (Js.toLowerCase kv.1) "x-robots-tag"); [done|].
  by apply IH.
Qed.

Lemma getAllXRobots_none res :
  no_x_robots_tag res → Audit.getAllXRobots (res_headers res) = [].
Proof. apply getAllXRobots_none_go. Qed.

Lemma merged_meta_noindex metas : ∀ acc,
  Audit.field_truthy acc noindex = true ∨ Some "noindex" ∈ metas →
  Audit.field_truthy
    (foldl (fun acc el => Audit.mergeRobots acc
                            (Audit.parseRobotsDirectives (Some (default "" el))))
           acc metas) noindex = true.
Proof.
  induction metas as [|el metas IH]; intros acc [Hacc|Hin]; simpl.
  - done.
  - by apply elem_of_nil in Hin.
  - apply IH. left.
    rewrite (field_truthy_merge _ _ Noindex). simpl. by rewrite Hacc.
  - apply IH. apply elem_of_cons in Hin as [<-|Hin]; [left|by right].
    rewrite (field_truthy_merge _ _ Noindex). simpl.
    replace (Audit.field_truthy (Audit.parseRobotsDirectives (Some "noindex")) noindex)
      with true by (vm_compute; reflexivity).
    apply orb_true_r.
Qed.

(** C6, as the code has it: a page fetched as HTML that carries the
    robots meta tag with content noindex, with no X-Robots-Tag on the
    response, is reported with [noindex.meta = true],
    [noindex.header = false] and the conflict issue. *)
Theorem meta_noindex_without_header_conflicts
    (ua rawUrl : string) (w w' : World) (ri : ResInfo) (html : string) :
  Audit.fetchWithRedirects rawUrl ua w = (w', Some ri) →
  html_response (ri_res ri) html →
  Some "noindex" ∈ doc_metaRobots (cheerio_load html) →
  no_x_robots_tag (ri_res ri) →
  ∃ r, Audit.auditTask ua rawUrl w = Some r
       ∧ meta (a_noindex r) = true
       ∧ header (a_noindex r) = false
       ∧ CONFLICT ∈ a_issues r.
Proof.
  intros Hfetch (Hstatus & (ct & Hct & Hhtml) & Htext & Hne) Hmeta Hx.
  unfold Audit.auditTask. rewrite Hfetch.
  pose proof (audit_fetch_final_parses _ _ _ _ _ Hfetch) as Hparse.
  destruct (extractHtmlSignals_total html (ri_finalUrl ri) Hparse) as (sig & Hsig & Hrob).
  unfold Audit.analyse.
  rewrite (getAllXRobots_none _ Hx), Hct, Hhtml, Htext. simpl.
  apply Nat.eqb_neq in Hstatus. rewrite Hstatus. simpl.
  destruct html as [|c html']; [done|]. simpl Js.truthy. cbv iota.
  rewrite Hsig. simpl.
  assert (Audit.field_truthy (Audit.hs_metaRobots sig) noindex = true) as Hm.
  { rewrite Hrob. apply merged_meta_noindex. by right. }
  rewrite Hm. simpl.
  eexists. split; [reflexivity|]. simpl. split; [done|]. split; [done|].
  repeat case_match; set_solver.
Qed.

End NoindexFlags.

Lemma meta_noindex_without_header_conflicts_witness :
  ∃ r, @Audit.auditTask Ref.urlLib Examples.noindex_server Examples.noindex_docs
         "mcp-crawler" "https://ex.com/page" tt = Some r
       ∧ meta (a_noindex r) = true
       ∧ header (a_noindex r) = false
       ∧ CONFLICT ∈ a_issues r.
Proof.
  apply (@meta_noindex_without_header_conflicts
           Ref.urlLib Examples.noindex_server Examples.noindex_docs
           "mcp-crawler" "https://ex.com/page" tt tt
           (mkResInfo (mkResponse 200 [("content-type", "text/html; charset=utf-8")]
                                  (Some Examples.NOINDEX_PAGE))
                      "https://ex.com/page" [])
           Examples.NOINDEX_PAGE).
  - vm_compute. reflexivity.
  - split; [vm_compute; lia|]. split.
    + exists "text/html; charset=utf-8". split; vm_compute; reflexivity.
    + split; [reflexivity|]. vm_compute. discriminate.
  - vm_compute. left.
  - repeat constructor. vm_compute. discriminate.
Defined.

(** C6 fails as stated: for the page with the noindex meta tag and no
    X-Robots-Tag header, the audit result holds the conflict issue. *)
Lemma audit_meta_noindex_reports_conflict :
  (fun r => (meta (a_noindex r), header (a_noindex r), a_issues r))
    <$> @Audit.auditTask Ref.urlLib Examples.noindex_server Examples.noindex_docs
          "mcp-crawler" "https://ex.com/page" tt
  = Some (true, false, [CONFLICT]).
Proof. vm_compute. reflexivity. Qed.

(* ===================================================================== *)
(** ** Properties of the redirect-following fetcher *)
(* ===================================================================== *)

Section FetcherFacts.
Context `{UrlLib} `{Network}.

Lemma nat_includes_elem (l : list nat) (n : nat) :
  nat_includes l n = true ↔ n ∈ l.
Proof.
  unfold nat_includes. rewrite existsb_exists. split.
  - intros (x & Hx & ->%Nat.eqb_eq). by apply list_elem_of_In.
  - intros Hn. exists n. split; [by apply list_elem_of_In|apply Nat.eqb_refl].
Qed.

Lemma chain_loop_follows timeoutMs ua safety : ∀ n cur res hops w,
  n + safety = 10 →
  Follows (fun u => Crawler.fetchOnce u ua timeoutMs) n cur res hops w
          (Crawler.chain_loop timeoutMs ua safety cur res hops w).
Proof.
  induction safety as [|s IH]; intros n cur res hops w Hn;
    cbn [Crawler.chain_loop].
  - destruct (nat_includes _ _);
      apply follows_final; intros (_ & _ & ?); lia.
  - destruct (nat_includes _ _) eqn:Hst.
    2:{ apply follows_final. intros (Hin & _).
        apply nat_includes_elem in Hin. unfold REDIRECTS in Hin. congruence. }
    apply nat_includes_elem in Hst.
    destruct (headers_get (res_headers res) "location") as [loc|] eqn:Hloc.
    2:{ apply follows_final. unfold location. rewrite Hloc.
        intros (_ & [? ?] & _). discriminate. }
    destruct (Js.truthy loc) eqn:Htr; cbn [negb].
    2:{ apply follows_final. unfold location. rewrite Hloc, Htr.
        intros (_ & [? ?] & _). discriminate. }
    assert (location res = Some loc) as Hl by (unfold location; by rewrite Hloc, Htr).
    destruct (url_resolve loc cur) as [nx|] eqn:Hres.
    2:{ eapply follows_unresolvable; eauto. lia. }
    unfold abind.
    destruct (Crawler.fetchOnce (url_href nx) ua timeoutMs w) as [w1 [res'|]] eqn:Hf.
    + eapply follows_hop; eauto; [lia|]. apply IH. lia.
    + eapply follows_unreachable; eauto. lia.
Qed.

Lemma follows_length send : ∀ n cur res hops w w' ri,
  Follows send n cur res hops w (w', Some ri) →
  (length hops ≤ n ≤ 10)%nat →
  (length (ri_redirectChain ri) ≤ 10)%nat.
Proof.
  intros n cur res hops w w' ri Hf.
  remember (w', Some ri) as out eqn:Hout.
  induction Hf as [n cur res hops w Hstop| n cur res hops w loc nx w1 res' out ? ? ? ? ? Hf IH| |];
    intros Hlen; simplify_eq.
  - simpl. lia.
  - apply IH; [done|]. rewrite length_app. simpl. lia.
Qed.

(** C5: the crawler's [chain] follows redirects as specified: it
    re-issues while the status is a redirect, a Location with a value is
    present and fewer than 10 hops were followed, resolving the location
    against the current URL and recording exactly one hop each time, and
    otherwise returns the current response as final; its chain never
    exceeds 10 hops; and answers 301, 302, 200 give two hops and the URL
    of the 200 response. *)
Theorem chain_follows_redirects (timeoutMs : nat) (ua : string) :
  (∀ url res w,
     Follows (fun u => Crawler.fetchOnce u ua timeoutMs) 0 url res [] w
             (Crawler.chain_loop timeoutMs ua 10 url res [] w))
  ∧ (∀ url w,
       Crawler.chain timeoutMs url ua w
       = match Crawler.fetchOnce url ua timeoutMs w with
         | (w0, Some res) => Crawler.chain_loop timeoutMs ua 10 url res [] w0
         | (w0, None) => (w0, None)
         end)
  ∧ (∀ url w w' ri,
       Crawler.chain timeoutMs url ua w = (w', Some ri) →
       (length (ri_redirectChain ri) ≤ 10)%nat)
  ∧ (∀ u0 u1 u2 l1 l2 n1 n2 r0 r1 r2 w0 w1 w2 w3,
       Crawler.fetchOnce u0 ua timeoutMs w0 = (w1, Some r0) →
       res_status r0 = 301 → location r0 = Some l1 →
       url_resolve l1 u0 = Some n1 → url_href n1 = u1 →
       Crawler.fetchOnce u1 ua timeoutMs w1 = (w2, Some r1) →
       res_status r1 = 302 → location r1 = Some l2 →
       url_resolve l2 u1 = Some n2 → url_href n2 = u2 →
       Crawler.fetchOnce u2 ua timeoutMs w2 = (w3, Some r2) →
       res_status r2 = 200 →
       Crawler.chain timeoutMs u0 ua w0
       = (w3, Some (mkResInfo r2 u2 [mkHop u0 u1 301; mkHop u1 u2 302]))).
Proof.
  split; [|split; [|split]].
  - intros url res w. by apply chain_loop_follows.
  - intros url w. unfold Crawler.chain, abind.
    by destruct (Crawler.fetchOnce url ua timeoutMs w) as [w0 [res|]].
  - intros url w w' ri. unfold Crawler.chain, abind.
    destruct (Crawler.fetchOnce url ua timeoutMs w) as [w0 [res|]]; [|done].
    intros Hc. eapply (follows_length _ 0 url res [] w0 w' ri); [|simpl; lia].
    rewrite <- Hc. by apply chain_loop_follows.
  - intros u0 u1 u2 l1 l2 n1 n2 r0 r1 r2 w0 w1 w2 w3
           Hf0 Hs0 Hl0 Hr0 Hu1 Hf1 Hs1 Hl1 Hr1 Hu2 Hf2 Hs2.
    unfold location in Hl0, Hl1.
    destruct (headers_get (res_headers r0) "location") as [l1'|] eqn:Hh0; [|done].
    destruct (Js.truthy l1') eqn:Ht0; [|done]. simplify_eq.
    destruct (headers_get (res_headers r1) "location") as [l2'|] eqn:Hh1; [|done].
    destruct (Js.truthy l2') eqn:Ht1; [|done]. simplify_eq.
    unfold Crawler.chain, abind. rewrite Hf0.
    cbn [Crawler.chain_loop]. rewrite Hs0.
    replace (nat_includes [301; 302; 303; 307; 308] 301) with true by reflexivity.
    rewrite Hh0, Ht0. cbn [negb]. rewrite Hr0. unfold abind. rewrite Hf1.
    rewrite Hs1.
    replace (nat_includes [301; 302; 303; 307; 308] 302) with true by reflexivity.
    rewrite Hh1, Ht1. cbn [negb]. rewrite Hr1. rewrite Hf2.
    rewrite Hs2.
    replace (nat_includes [301; 302; 303; 307; 308] 200) with false by reflexivity.
    reflexivity.
Qed.

End FetcherFacts.

Lemma chain_follows_redirects_witness :
  @Crawler.chain Ref.urlLib Examples.hopping_server 3000 "https://ex.com/a" "mcp-crawler" tt
  = (tt, Some (mkResInfo (Examples.plain 200) "https://ex.com/c"
                 [mkHop "https://ex.com/a" "https://ex.com/b" 301;
                  mkHop "https://ex.com/b" "https://ex.com/c" 302])).
Proof.
  destruct (@chain_follows_redirects Ref.urlLib Examples.hopping_server 3000 "mcp-crawler")
    as (_ & _ & _ & Hex).
  eapply (Hex "https://ex.com/a" "https://ex.com/b" "https://ex.com/c"
              "/b" "https://ex.com/c");
    vm_compute; reflexivity.
Defined.

(** *** The user-agent fallback *)

Section FallbackFacts.
Context `{UrlLib} `{Network}.

Lemma fallback_not_needed (url ua : string) (timeoutMs : nat) (w w1 : World) r1 :
  Crawler.chain timeoutMs url ua w = (w1, Some r1) →
  res_status (ri_res r1) ∉ Crawler.BLOCKED_STATUSES ∨ ua = Crawler.BROWSER_UA →
  Crawler.fetchWithRedirects url ua timeoutMs w = (w1, Some r1).
Proof.
  unfold Crawler.fetchWithRedirects, acatch, abind, aret, athrow.
  intros -> [Hnb| ->].
  - destruct (nat_includes _ _) eqn:Hb; [|done].
    by apply nat_includes_elem in Hb.
  - rewrite String.eqb_refl. by rewrite andb_false_r.
Qed.

Lemma fallback_not_possible (url : string) (timeoutMs : nat) (w w1 : World) :
  Crawler.chain timeoutMs url Crawler.BROWSER_UA w = (w1, None) →
  Crawler.fetchWithRedirects url Crawler.BROWSER_UA timeoutMs w = (w1, None).
Proof.
  unfold Crawler.fetchWithRedirects, acatch, abind, aret, athrow.
  intros ->. by rewrite String.eqb_refl.
Qed.

(** C3: the fallback policy of the crawler's [fetchWithRedirects].
    When the first chain completes with a blocked final status and the
    caller's user agent is not the fallback one, the whole chain is run
    again with the fallback user agent and its result returned, or the
    first (blocked) result if the retry throws; when the first chain
    throws and the user agents differ, one chain with the fallback user
    agent is run and decides the outcome; when the caller's user agent is
    the fallback one, a completed first chain is returned as it is and a
    failure is propagated. *)
Theorem fetchWithRedirects_fallback (url ua : string) (timeoutMs : nat) (w : World) :
  (∀ w1 r1 w2 r2,
     Crawler.chain timeoutMs url ua w = (w1, Some r1) →
     res_status (ri_res r1) ∈ Crawler.BLOCKED_STATUSES →
     ua ≠ Crawler.BROWSER_UA →
     Crawler.chain timeoutMs url Crawler.BROWSER_UA w1 = (w2, Some r2) →
     Crawler.fetchWithRedirects url ua timeoutMs w = (w2, Some r2))
  ∧ (∀ w1 r1 w2,
       Crawler.chain timeoutMs url ua w = (w1, Some r1) →
       res_status (ri_res r1) ∈ Crawler.BLOCKED_STATUSES →
       ua ≠ Crawler.BROWSER_UA →
       Crawler.chain timeoutMs url Crawler.BROWSER_UA w1 = (w2, None) →
       Crawler.fetchWithRedirects url ua timeoutMs w = (w2, Some r1))
  ∧ (∀ w1 r1,
       Crawler.chain timeoutMs url ua w = (w1, Some r1) →
       res_status (ri_res r1) ∉ Crawler.BLOCKED_STATUSES ∨ ua = Crawler.BROWSER_UA →
       Crawler.fetchWithRedirects url ua timeoutMs w = (w1, Some r1))
  ∧ (∀ w1,
       Crawler.chain timeoutMs url ua w = (w1, None) →
       ua ≠ Crawler.BROWSER_UA →
       Crawler.fetchWithRedirects url ua timeoutMs w
       = Crawler.chain timeoutMs url Crawler.BROWSER_UA w1)
  ∧ (∀ w1,
       Crawler.chain timeoutMs url ua w = (w1, None) →
       ua = Crawler.BROWSER_UA →
       Crawler.fetchWithRedirects url ua timeoutMs w = (w1, None)).
Proof.
  split_and!.
  - unfold Crawler.fetchWithRedirects, acatch, abind, aret, athrow.
    intros w1 r1 w2 r2 -> Hb%nat_includes_elem Hua%String.eqb_neq Hretry.
    rewrite Hb, Hua. cbn [negb andb]. by rewrite Hretry.
  - unfold Crawler.fetchWithRedirects, acatch, abind, aret, athrow.
    intros w1 r1 w2 -> Hb%nat_includes_elem Hua%String.eqb_neq Hretry.
    rewrite Hb, Hua. cbn [negb andb]. by rewrite Hretry.
  - intros w1 r1. apply fallback_not_needed.
  - unfold Crawler.fetchWithRedirects, acatch, abind, aret, athrow.
    intros w1 -> Hua%String.eqb_neq. by rewrite Hua.
  - intros w1 Hc ->. by apply fallback_not_possible.
Qed.

End FallbackFacts.

Lemma fetchWithRedirects_fallback_witness :
  @Crawler.fetchWithRedirects Ref.urlLib Examples.picky_server
     "https://ex.com/" "X" 3000 tt
  = (tt, Some (mkResInfo (Examples.plain 200) "https://ex.com/" [])).
Proof.
  destruct (@fetchWithRedirects_fallback Ref.urlLib Examples.picky_server
              "https://ex.com/" "X" 3000 tt) as (Hretry & _).
  apply (Hretry tt (mkResInfo (Examples.plain 403) "https://ex.com/" []) tt).
  - vm_compute. reflexivity.
  - vm_compute. set_solver.
  - discriminate.
  - vm_compute. reflexivity.
Defined.

(** When the retry with the browser user agent throws, the blocked
    result of the first attempt is returned. *)
Example fallback_keeps_blocked_result :
  @Crawler.fetchWithRedirects Ref.urlLib Examples.hostile_server
     "https://ex.com/" "X" 3000 tt
  = (tt, Some (mkResInfo (Examples.plain 403) "https://ex.com/" [])).
Proof. vm_compute. reflexivity. Qed.

(** A first attempt that throws is retried once with the browser user
    agent, unless the caller already used it. *)
Example fallback_after_failure :
  @Crawler.fetchWithRedirects Ref.urlLib Examples.waking_server
     "https://ex.com/" "X" 3000 0
  = (2, Some (mkResInfo (Examples.plain 200) "https://ex.com/" []))
  ∧ @Crawler.fetchWithRedirects Ref.urlLib Examples.waking_server
      "https://ex.com/" Crawler.BROWSER_UA 3000 0
    = (1, None).
Proof. split; vm_compute; reflexivity. Qed.

(** Eleven redirects in a row: ten hops are followed and the eleventh
    redirect response is returned as final. *)
Example chain_stops_after_ten_hops :
  (fun ri => (res_status (ri_res ri), ri_finalUrl ri, length (ri_redirectChain ri)))
    <$> (@Crawler.chain Ref.urlLib Examples.looping_server 3000
           "https://ex.com/r0" "mcp-crawler" tt).2
  = Some (302, "https://ex.com/ra", 10).
Proof. vm_compute. reflexivity. Qed.

(** *** The auditor's fetch against the crawler's *)

Section TwoFetchers.
Context `{UrlLib} `{Network}.

Lemma fetch_loop_is_chain_loop timeoutMs ua safety :
  header_blind →
  ∀ cur res hops w,
    Audit.fetch_loop ua safety cur res hops w
    = Crawler.chain_loop timeoutMs ua safety cur res hops w.
Proof.
  intros Hblind. induction safety as [|s IH]; intros cur res hops w;
    cbn [Audit.fetch_loop Crawler.chain_loop]; [done|].
  repeat case_match; try done.
  unfold abind. rewrite Hblind.
  destruct (fetch _ w) as [w1 [res'|]]; [apply IH|done].
Qed.

(** C8, as the code has it: the auditor's fetch is one run of the
    crawler's redirect chain with the caller's user agent. On a network
    that answers by URL and user agent only, it returns what the
    crawler's first attempt returns; it therefore agrees with the
    crawler's fetcher when the caller's user agent is the fallback one,
    and when the first attempt completes with a final status that is not
    blocked. *)
Theorem audit_fetch_is_first_attempt (url ua : string) (timeoutMs : nat) (w : World) :
  header_blind →
  Audit.fetchWithRedirects url ua w = Crawler.chain timeoutMs url ua w
  ∧ (ua = Crawler.BROWSER_UA
     ∨ (∃ w1 r1, Crawler.chain timeoutMs url ua w = (w1, Some r1)
                 ∧ res_status (ri_res r1) ∉ Crawler.BLOCKED_STATUSES) →
     Audit.fetchWithRedirects url ua w = Crawler.fetchWithRedirects url ua timeoutMs w).
Proof.
  intros Hblind.
  assert (Audit.fetchWithRedirects url ua w = Crawler.chain timeoutMs url ua w) as Heq.
  { unfold Audit.fetchWithRedirects, Crawler.chain, abind. rewrite Hblind.
    destruct (fetch _ w) as [w0 [res|]]; [|done].
    by apply fetch_loop_is_chain_loop. }
  split; [exact Heq|]. rewrite Heq. clear Heq.
  intros [->|(w1 & r1 & Hc & Hnb)].
  - destruct (Crawler.chain timeoutMs url Crawler.BROWSER_UA w) as [w1 [r1|]] eqn:Hc.
    + symmetry. apply fallback_not_needed; [done|by right].
    + symmetry. by apply fallback_not_possible.
  - rewrite Hc. symmetry. apply fallback_not_needed; [done|by left].
Qed.

End TwoFetchers.

Lemma picky_server_header_blind : @header_blind Ref.urlLib Examples.picky_server.
Proof. intros url ua timeoutMs []. reflexivity. Qed.

Lemma audit_fetch_is_first_attempt_witness :
  @Audit.fetchWithRedirects Ref.urlLib Examples.picky_server
     "https://ex.com/" Crawler.BROWSER_UA tt
  = @Crawler.fetchWithRedirects Ref.urlLib Examples.picky_server
      "https://ex.com/" Crawler.BROWSER_UA 3000 tt.
Proof.
  apply (@audit_fetch_is_first_attempt Ref.urlLib Examples.picky_server
           "https://ex.com/" Crawler.BROWSER_UA 3000 tt picky_server_header_blind).
  left. reflexivity.
Defined.

(** C8 fails as stated: where the caller's user agent is answered 403 and
    the browser user agent 200, the crawler's fetcher returns the 200 of
    its retry and the auditor's fetch the 403. *)
Lemma audit_fetch_has_no_fallback :
  (res_status ∘ ri_res <$>
     (@Audit.fetchWithRedirects Ref.urlLib Examples.picky_server
        "https://ex.com/" "X" tt).2) = Some 403
  ∧ (res_status ∘ ri_res <$>
       (@Crawler.fetchWithRedirects Ref.urlLib Examples.picky_server
          "https://ex.com/" "X" 3000 tt).2) = Some 200.
Proof. split; vm_compute; reflexivity. Qed.

(* ===================================================================== *)
(** ** Properties of the URL canonicalizer *)
(* ===================================================================== *)

(** *** Strings as lists of characters *)

Lemma chars_app (a b : string) : chars (a +:+ b) = chars a ++ chars b.
Proof. induction a as [|c a IH]; simpl; [done|]. by rewrite <- IH. Qed.

Lemma chars_inj (a b : string) : chars a = chars b → a = b.
Proof.
  intros Hab. rewrite <- (String.string_of_list_ascii_of_string a),
    <- (String.string_of_list_ascii_of_string b). by rewrite Hab.
Qed.

Lemma chars_rev_app (a b : string) :
  chars (String.rev_app a b) = rev_append (chars a) (chars b).
Proof. revert b. induction a as [|c a IH]; intros b; simpl; [done|]. by rewrite IH. Qed.

Lemma chars_rev (s : string) : chars (String.rev s) = rev (chars s).
Proof. unfold String.rev. rewrite chars_rev_app. simpl. by rewrite rev_append_rev, app_nil_r. Qed.

Lemma chars_length (s : string) : String.length s = length (chars s).
Proof. induction s; simpl; congruence. Qed.

Lemma string_app_assoc (a b c : string) : (a +:+ b) +:+ c = a +:+ (b +:+ c).
Proof. apply chars_inj. by rewrite !chars_app, app_assoc. Qed.

Lemma prefix_chars (p s : string) :
  String.prefix p s = true → ∃ r, chars s = chars p ++ r.
Proof.
  revert s. induction p as [|c p IH]; intros s; simpl.
  - intros _. by exists (chars s).
  - destruct s as [|d s]; [done|]. cbn [String.prefix].
    destruct (ascii_dec c d) as [->|]; [|done].
    intros [r Hr]%IH. exists r. simpl. by rewrite Hr.
Qed.

Lemma prefix_app (p r : string) : String.prefix p (p +:+ r) = true.
Proof.
  induction p as [|c p IH]; [by destruct r|].
  change (String c p +:+ r) with (String c (p +:+ r)). cbn [String.prefix].
  destruct (ascii_dec c c); [exact IH|done].
Qed.

Lemma endsWith_app (pre suffix : string) : Js.endsWith (pre +:+ suffix) suffix = true.
Proof.
  unfold Js.endsWith.
  replace (String.rev (pre +:+ suffix)) with (String.rev suffix +:+ String.rev pre).
  - apply prefix_app.
  - apply chars_inj. by rewrite chars_app, !chars_rev, chars_app, rev_app_distr.
Qed.

Lemma endsWith_split (s suffix : string) :
  Js.endsWith s suffix = true → ∃ pre, s = pre +:+ suffix.
Proof.
  unfold Js.endsWith. intros [r Hr]%prefix_chars.
  rewrite !chars_rev in Hr.
  exists (String.string_of_list_ascii (rev r)). apply chars_inj.
  rewrite chars_app, String.list_ascii_of_string_of_list_ascii.
  rewrite <- (rev_involutive (chars s)), Hr, rev_app_distr. by rewrite rev_involutive.
Qed.

Lemma substring_skip (a b : string) n :
  String.substring (String.length a) n (a +:+ b) = String.substring 0 n b.
Proof. induction a as [|c a IH]; simpl; [done|exact IH]. Qed.

Lemma substring_all (s : string) : String.substring 0 (String.length s) s = s.
Proof. induction s as [|c s IH]; simpl; [done|]. by rewrite IH. Qed.

Lemma arr_includes_elem (arr : list string) (x : string) :
  Js.arr_includes arr x = true ↔ x ∈ arr.
Proof.
  unfold Js.arr_includes. rewrite existsb_exists. split.
  - intros (y & Hy & ->%String.eqb_eq). by apply list_elem_of_In.
  - intros Hx. exists x. split; [by apply list_elem_of_In|apply String.eqb_refl].
Qed.

(** *** [path.extname] on a name with a last dot *)

Lemma extname_loop_plain r : ∀ rest st,
  Forall plain_char r →
  NodePath.startDot st = None → is_Some (NodePath.end_ st) →
  NodePath.extname_loop (r ++ rest) st = NodePath.extname_loop rest st.
Proof.
  induction r as [|c r IH]; intros rest st Hr Hsd [e He]; [done|].
  inversion Hr as [|? ? [Hdot Hslash] Hr']; subst.
  cbn [app NodePath.extname_loop].
  apply Ascii.eqb_neq in Hdot, Hslash. rewrite Hdot, Hslash, He, Hsd.
  apply IH; eauto.
Qed.

Lemma extname_loop_tail r : ∀ st,
  is_Some (NodePath.startDot st) → is_Some (NodePath.end_ st) →
  NodePath.matchedSlash st = false → NodePath.preDotState st ≠ 0%Z →
  NodePath.startDot (NodePath.extname_loop r st) = NodePath.startDot st
  ∧ NodePath.end_ (NodePath.extname_loop r st) = NodePath.end_ st
  ∧ NodePath.preDotState (NodePath.extname_loop r st) ≠ 0%Z.
Proof.
  induction r as [|c r IH]; intros [sd sp e ms pd]; simpl;
    intros [sd' ->] [e' ->] -> Hpd; [done|].
  destruct (Ascii.eqb c "/"); [done|].
  destruct (Ascii.eqb c "."); simpl.
  - destruct (negb (pd =? 1)%Z).
    + edestruct (IH (NodePath.mkScan (Some sd') sp (Some e') false 1))
        as (-> & -> & ?); simpl; eauto.
    + edestruct (IH (NodePath.mkScan (Some sd') sp (Some e') false pd))
        as (-> & -> & ?); simpl; eauto.
  - edestruct (IH (NodePath.mkScan (Some sd') sp (Some e') false (-1)))
      as (-> & -> & ?); simpl; eauto.
Qed.

Lemma extname_loop_after_dot (rpre : list ascii) (c : ascii) (sd e : nat) :
  c ≠ "/"%char →
  NodePath.startDot
    (NodePath.extname_loop (c :: rpre) (NodePath.mkScan (Some sd) 0 (Some e) false 0)) = Some sd
  ∧ NodePath.end_
      (NodePath.extname_loop (c :: rpre) (NodePath.mkScan (Some sd) 0 (Some e) false 0)) = Some e
  ∧ NodePath.preDotState
      (NodePath.extname_loop (c :: rpre) (NodePath.mkScan (Some sd) 0 (Some e) false 0)) ≠ 0%Z.
Proof.
  intros Hc%Ascii.eqb_neq. cbn [NodePath.extname_loop]. rewrite Hc. simpl.
  destruct (Ascii.eqb c "."); simpl.
  - edestruct (extname_loop_tail rpre (NodePath.mkScan (Some sd) 0 (Some e) false 1))
      as (-> & -> & ?); simpl; eauto.
  - edestruct (extname_loop_tail rpre (NodePath.mkScan (Some sd) 0 (Some e) false (-1)))
      as (-> & -> & ?); simpl; eauto.
Qed.

Lemma extname_last_dot (pre : string) (c : ascii) (ext : string) :
  c ≠ "/"%char → ext ≠ "" → Forall plain_char (chars ext) →
  NodePath.extname (pre +:+ String c (String "." ext)) = String "." ext.
Proof.
  intros Hc Hext Hplain. unfold NodePath.extname.
  set (path := pre +:+ String c (String "." ext)).
  assert (rev (chars path) = rev (chars ext) ++ "."%char :: c :: rev (chars pre)) as ->.
  { unfold path. rewrite chars_app. simpl. rewrite rev_app_distr. simpl.
    by rewrite <- !app_assoc. }
  destruct (rev (chars ext)) as [|x r] eqn:Hrev.
  { destruct ext; [done|]. simpl in Hrev. by destruct (rev (chars ext)). }
  assert (Forall plain_char (x :: r)) as Hxr.
  { rewrite <- Hrev. by apply Forall_rev. }
  inversion Hxr as [|? ? [Hxdot Hxslash] Hr]; subst.
  assert (length (chars ext) = S (length r)) as Hlen.
  { rewrite <- (length_rev (chars ext)), Hrev. done. }
  remember (c :: rev (chars pre)) as tl eqn:Htl.
  cbn [app NodePath.extname_loop NodePath.scan0 NodePath.end_ NodePath.startDot
       NodePath.matchedSlash NodePath.startPart NodePath.preDotState].
  apply Ascii.eqb_neq in Hxdot, Hxslash. rewrite Hxdot, Hxslash.
  cbn [NodePath.end_ NodePath.startDot NodePath.matchedSlash NodePath.startPart
       NodePath.preDotState].
  rewrite extname_loop_plain by (simpl; eauto).
  cbn [NodePath.extname_loop NodePath.end_ NodePath.startDot
       NodePath.matchedSlash NodePath.startPart NodePath.preDotState].
  replace (Ascii.eqb "." "/") with false by reflexivity.
  replace (Ascii.eqb "." ".") with true by reflexivity.
  cbn [NodePath.end_ NodePath.startDot NodePath.matchedSlash NodePath.startPart
       NodePath.preDotState].
  subst tl.
  match goal with
  | |- context [NodePath.extname_loop (c :: ?t) (NodePath.mkScan (Some ?sd) 0 (Some ?e) false 0)] =>
      destruct (extname_loop_after_dot t c sd e Hc) as (Hsd & He & Hpd)
  end.
  rewrite Hsd, He.
  apply Z.eqb_neq in Hpd. rewrite Hpd. cbn [orb].
  rewrite !length_app, !length_cons, !length_rev.
  replace (_ =? _)%nat with false by (symmetry; apply Nat.eqb_neq; lia).
  rewrite andb_false_r, andb_false_l.
  replace (length r + S (S (length (chars pre))) + 1 - S (length (chars pre)))
    with (String.length (String "." ext))
    by (simpl; rewrite chars_length; lia).
  unfold path.
  replace (pre +:+ String c (String "." ext))
    with ((pre +:+ String c "") +:+ (String "." ext +:+ ""))
    by (apply chars_inj; rewrite !chars_app; simpl; by rewrite <- app_assoc, app_nil_r).
  replace (S (length (chars pre))) with (String.length (pre +:+ String c ""))
    by (rewrite chars_length, chars_app, length_app; simpl; lia).
  rewrite substring_skip.
  replace (String "." ext +:+ "") with (String "." ext)
    by (apply chars_inj; rewrite chars_app; simpl; by rewrite app_nil_r).
  apply substring_all.
Qed.

(** *** [hasIgnoredExtension] *)

Lemma plain_pdf : Forall plain_char (chars "pdf").
Proof. repeat constructor; discriminate. Qed.

Lemma plain_gz : Forall plain_char (chars "gz").
Proof. repeat constructor; discriminate. Qed.

(** The value of the "simple extension" part on a name with a last dot. *)
Lemma hasIgnoredExtension_last_dot ignoredExt (u : URL) pre c ext :
  Js.toLowerCase (pathname u) = pre +:+ String c (String "." ext) →
  c ≠ "/"%char → ext ≠ "" → Forall plain_char (chars ext) →
  UrlUtils.hasIgnoredExtension ignoredExt u
  = let simple := Js.arr_includes ignoredExt ext
                  || Js.arr_includes ignoredExt (String "." ext) in
    if Js.endsWith (pre +:+ String c (String "." ext)) ".tar.gz"
       || Js.endsWith (pre +:+ String c (String "." ext)) ".tar.bz2"
       || Js.endsWith (pre +:+ String c (String "." ext)) ".tar.xz"
    then
      if Js.arr_includes ignoredExt "tar.gz" then true
      else if Js.arr_includes ignoredExt "tar.bz2" then true
      else if Js.arr_includes ignoredExt "tar.xz" then true
      else simple
    else simple.
Proof.
  intros Hpath Hc Hext Hplain. unfold UrlUtils.hasIgnoredExtension.
  rewrite Hpath, (extname_last_dot pre c ext Hc Hext Hplain).
  cbn [Js.truthy negb Js.startsWith String.prefix String.length].
  destruct (ascii_dec "." "."); [|done].
  replace (String.prefix "" ext) with true by (by destruct ext).
  replace (String.substring 1 (S (String.length ext) - 1) (String "." ext)) with ext.
  - reflexivity.
  - cbn [String.substring]. replace (S (String.length ext) - 1) with (String.length ext) by lia.
    symmetry. apply substring_all.
Qed.

(** C9, as the code has it: a URL whose path ends in ".pdf" after at
    least one more character of the same segment is ignored when "pdf" is
    listed; a URL whose path ends in ".tar.gz" is ignored when "tar.gz" is
    listed, and when it is ignored one of "tar.gz", "tar.bz2", "tar.xz",
    "gz", ".gz" is listed. *)
Theorem hasIgnoredExtension_pdf_and_targz (ignoredExt : list string) (u : URL) :
  (∀ pre c,
     Js.toLowerCase (pathname u) = pre +:+ String c ".pdf" →
     c ≠ "/"%char →
     "pdf" ∈ ignoredExt →
     UrlUtils.hasIgnoredExtension ignoredExt u = true)
  ∧ (Js.endsWith (Js.toLowerCase (pathname u)) ".tar.gz" = true →
     ("tar.gz" ∈ ignoredExt → UrlUtils.hasIgnoredExtension ignoredExt u = true)
     ∧ (UrlUtils.hasIgnoredExtension ignoredExt u = true →
        "tar.gz" ∈ ignoredExt ∨ "tar.bz2" ∈ ignoredExt ∨ "tar.xz" ∈ ignoredExt
        ∨ "gz" ∈ ignoredExt ∨ ".gz" ∈ ignoredExt)).
Proof.
  split.
  - intros pre c Hpath Hc Hin%arr_includes_elem.
    rewrite (hasIgnoredExtension_last_dot ignoredExt u pre c "pdf" Hpath Hc)
      by (done || apply plain_pdf).
    cbv zeta. rewrite Hin. cbn [orb]. by repeat case_match.
  - intros Hends. destruct (endsWith_split _ _ Hends) as [pre Hpre].
    assert (Js.toLowerCase (pathname u) = (pre +:+ ".ta") +:+ String "r" (String "." "gz"))
      as Hpath by (by rewrite Hpre, string_app_assoc).
    rewrite (hasIgnoredExtension_last_dot ignoredExt u _ "r" "gz" Hpath)
      by (done || apply plain_gz).
    cbv zeta. rewrite <- Hpath, Hends. cbn [orb].
    rewrite <- !arr_includes_elem. split.
    + by intros ->.
    + repeat case_match; try tauto.
      intros [?|?]%orb_true_iff; tauto.
Qed.

Lemma hasIgnoredExtension_pdf_and_targz_witness :
  UrlUtils.hasIgnoredExtension ["pdf"; "tar.gz"]
    (mkURL "https:" "ex.com" "" "/files/Report.PDF" [] "") = true
  ∧ UrlUtils.hasIgnoredExtension ["pdf"; "tar.gz"]
      (mkURL "https:" "ex.com" "" "/files/src.tar.gz" [] "") = true.
Proof.
  split.
  - apply (proj1 (hasIgnoredExtension_pdf_and_targz ["pdf"; "tar.gz"]
                    (mkURL "https:" "ex.com" "" "/files/Report.PDF" [] ""))
                 "/files/repor" "t"%char).
    + reflexivity.
    + discriminate.
    + set_solver.
  - apply (proj2 (hasIgnoredExtension_pdf_and_targz ["pdf"; "tar.gz"]
                    (mkURL "https:" "ex.com" "" "/files/src.tar.gz" [] ""))).
    + reflexivity.
    + set_solver.
Defined.

(** C9 fails as stated: with "pdf" listed, the path "/docs/.pdf" ends in
    ".pdf" and is not ignored ([path.extname] of a dot file is empty); with
    only "gz" listed, the path "/a.tar.gz" is ignored although "tar.gz" is
    not in the list. *)
Lemma hasIgnoredExtension_dotfile_and_simple_gz :
  UrlUtils.hasIgnoredExtension ["pdf"] (mkURL "https:" "ex.com" "" "/docs/.pdf" [] "") = false
  ∧ UrlUtils.hasIgnoredExtension ["gz"] (mkURL "https:" "ex.com" "" "/a.tar.gz" [] "") = true
  ∧ Js.arr_includes ["gz"] "tar.gz" = false.
Proof. repeat split; vm_compute; reflexivity. Qed.

(** *** [stripTrackingParams] *)

Lemma filter_agree {A} (P Q : A → Prop) `{!∀ x, Decision (P x)} `{!∀ x, Decision (Q x)}
      (l : list A) :
  (∀ x, x ∈ l → (P x ↔ Q x)) → filter P l = filter Q l.
Proof.
  induction l as [|x l IH]; intros Hl; [done|].
  rewrite !filter_cons. rewrite IH by (intros y Hy; apply Hl; by right).
  assert (P x ↔ Q x) as Hx by (apply Hl; by left).
  destruct (decide (P x)) as [HP|HP], (decide (Q x)) as [HQ|HQ]; tauto.
Qed.

Lemma filter_all {A} (P : A → Prop) `{!∀ x, Decision (P x)} (l : list A) :
  (∀ x, x ∈ l → P x) → filter P l = l.
Proof.
  induction l as [|x l IH]; intros Hl; [done|].
  rewrite filter_cons_True by (apply Hl; by left).
  f_equal. apply IH. intros y Hy. apply Hl. by right.
Qed.

Lemma strip_fold (ps : list string) : ∀ u,
  foldl (fun u p => if Js.arr_includes UrlUtils.TRACKING_PARAMS p
                    then searchParams_delete p u else u) u ps
  = mkURL (protocol u) (hostname u) (port u) (pathname u)
          (filter (fun kv => ¬ (kv.1 ∈ UrlUtils.TRACKING_PARAMS ∧ kv.1 ∈ ps))
                  (searchParams u))
          (hash u).
Proof.
  induction ps as [|p ps IH]; intros u; cbn [foldl].
  - destruct u as [a b c d sp h]; cbn. f_equal.
    symmetry. apply filter_all. intros kv _ [_ Hin]. by apply elem_of_nil in Hin.
  - rewrite IH. destruct (Js.arr_includes UrlUtils.TRACKING_PARAMS p) eqn:Hp.
    + apply arr_includes_elem in Hp. cbn. f_equal.
      rewrite list_filter_filter. apply filter_agree. intros kv _.
      rewrite elem_of_cons. destruct kv as [k v]; cbn.
      destruct (String.eqb_spec k p) as [Heq|Hne]; cbn; [subst; tauto|].
      tauto.
    + f_equal. apply filter_agree. intros kv _. rewrite elem_of_cons.
      split; [|tauto]. intros Hn [Ht [Heq|Hin]]; [|tauto].
      rewrite Heq in Ht. apply arr_includes_elem in Ht. congruence.
Qed.



(** *** [normalizeForKey] *)










(** The canonicalization examples of the specification, on the example
    platform and on the reference platform. *)
Example normalizeForKey_example_key :
  @UrlUtils.normalizeForKey Examples.example_urls "https://EX.com/a/?b=2&a=1#frag"
  = Some "https://ex.com/a?a=1&b=2"
  ∧ @UrlUtils.normalizeForKey Examples.example_urls "https://ex.com/index.php/index.html"
    = Some "https://ex.com/".
Proof. split; vm_compute; reflexivity. Qed.

Example normalizeForKey_equivalence :
  @UrlUtils.normalizeForKey Ref.urlLib "https://EX.com/a/?b=2&a=1#frag"
  = @UrlUtils.normalizeForKey Ref.urlLib "https://ex.com/a?a=1&b=2".
Proof. vm_compute. reflexivity. Qed.

(** On the reference platform a path that ends in two directory-index
    names loses both, and [normalize-url] takes away the [utm_*] parameters
    that are not among the tracking names. *)
Example normalizeForKey_nested_index :
  @UrlUtils.normalizeForKey Ref.urlLib "https://ex.com/index.php/index.html?utm_id=7"
  = Some "https://ex.com/"
  ∧ @UrlUtils.normalizeForKey Ref.urlLib "https://ex.com/" = Some "https://ex.com/".
Proof. split; vm_compute; reflexivity. Qed.

Example normalizeForKey_tracking :
  @UrlUtils.normalizeForKey Ref.urlLib "https://ex.com/p?utm_source=x&id=5"
  = Some "https://ex.com/p?id=5".
Proof. vm_compute. reflexivity. Qed.

(* ===================================================================== *)
(** ** Properties of the crawl engine *)
(* ===================================================================== *)

Section CrawlFacts.
Context `{UrlLib} `{HtmlLib}.
Variable cfg : Crawler.Setup.

(** *** The inventory at the start *)

Lemma preregister_placeholders (m : gmap string InventoryItem) (k : string) :
  (∀ k' it, m !! k' = Some it → normalizedUrl it = k' ∧ discoveredBy it = sitemap) →
  ∀ k' it, Crawler.preregister m k !! k' = Some it →
           normalizedUrl it = k' ∧ discoveredBy it = sitemap.
Proof.
  intros Hm k' it. unfold Crawler.preregister.
  destruct (m !! k) as [prev|] eqn:Hk.
  - destruct (decide (k = k')) as [<-|Hne].
    + rewrite lookup_insert_eq. intros [= <-]. simpl.
      destruct (Hm k prev Hk) as [-> ->]. done.
    + rewrite lookup_insert_ne by done. apply Hm.
  - destruct (decide (k = k')) as [<-|Hne].
    + rewrite lookup_insert_eq. by intros [= <-].
    + rewrite lookup_insert_ne by done. apply Hm.
Qed.

Lemma preregister_all_placeholders (l : list string) : ∀ m,
  (∀ k' it, m !! k' = Some it → normalizedUrl it = k' ∧ discoveredBy it = sitemap) →
  ∀ k' it, foldl Crawler.preregister m l !! k' = Some it →
           normalizedUrl it = k' ∧ discoveredBy it = sitemap.
Proof.
  induction l as [|k l IH]; intros m Hm; [exact Hm|].
  simpl. apply IH. by apply preregister_placeholders.
Qed.

Lemma crawl_inv_init : crawl_inv (Crawler.crawl_init cfg).
Proof.
  assert (∀ k' it, Crawler.inventoryMap (Crawler.crawl_init cfg) !! k' = Some it →
                   normalizedUrl it = k' ∧ discoveredBy it = sitemap) as Hinit.
  { apply preregister_all_placeholders. intros k' it. by rewrite lookup_empty. }
  split.
  - intros k it Hk. by apply Hinit.
  - intros _. split; [|split].
    + intros k it Hk Hd. by destruct (Hinit k it Hk) as [_ ?].
    + simpl. intros k Hk. by apply elem_of_nil in Hk.
    + simpl. constructor.
Qed.

(** *** Tasks in flight *)

Lemma fetching_keys_app l1 l2 :
  fetching_keys (l1 ++ l2) = fetching_keys l1 ++ fetching_keys l2.
Proof. apply omap_app. Qed.

Lemma running_split (l : list Crawler.Task) i t :
  l !! i = Some t →
  l = take i l ++ t :: drop (S i) l
  ∧ delete i l = take i l ++ drop (S i) l
  ∧ ∀ t', <[i := t']> l = take i l ++ t' :: drop (S i) l.
Proof.
  intros Hi. split; [by rewrite take_drop_middle|]. split.
  - apply delete_take_drop.
  - intros t'. apply insert_take_drop. by eapply lookup_lt_Some.
Qed.

(** The keys in flight once the fetching task at index [i] has left, or
    has moved on to reading its body. *)
Lemma fetching_keys_leave (l : list Crawler.Task) i node key :
  l !! i = Some (Crawler.Fetching node key) →
  NoDup (fetching_keys l) →
  ∀ l', (l' = delete i l ∨ (∃ ri, l' = <[i := Crawler.Reading node ri]> l)) →
        (key ∉ fetching_keys l')
        ∧ NoDup (fetching_keys l')
        ∧ ∀ k, k ∈ fetching_keys l' → k ∈ fetching_keys l.
Proof.
  intros Hi Hnd l' Hl'.
  destruct (running_split l i _ Hi) as (Hl & Hdel & Hins).
  assert (fetching_keys l' = fetching_keys (take i l) ++ fetching_keys (drop (S i) l)) as ->.
  { destruct Hl' as [->|[ri ->]].
    - by rewrite Hdel, fetching_keys_app.
    - by rewrite Hins, fetching_keys_app. }
  rewrite Hl, fetching_keys_app in Hnd. simpl in Hnd.
  apply NoDup_app in Hnd as (Hnd1 & Hdisj & Hnd2).
  apply NoDup_cons in Hnd2 as (Hnot & Hnd2).
  split; [|split].
  - intros [Hin|Hin]%elem_of_app; [|done].
    apply (Hdisj key Hin). left.
  - apply NoDup_app. split; [done|]. split; [|done].
    intros k Hk1 Hk2. apply (Hdisj k Hk1). by right.
  - intros k Hk. rewrite Hl, fetching_keys_app. simpl.
    apply elem_of_app in Hk as [?|?]; apply elem_of_app; [by left|right; by right].
Qed.

Lemma fetching_keys_done_reading (l : list Crawler.Task) i node ri :
  l !! i = Some (Crawler.Reading node ri) →
  fetching_keys (delete i l) = fetching_keys l.
Proof.
  intros Hi. destruct (running_split l i _ Hi) as (Hl & Hdel & _).
  rewrite Hdel. rewrite Hl at 3. by rewrite !fetching_keys_app.
Qed.

Lemma fetching_keys_elem (l : list Crawler.Task) i node key :
  l !! i = Some (Crawler.Fetching node key) → key ∈ fetching_keys l.
Proof.
  intros Hi. apply list_elem_of_omap. exists (Crawler.Fetching node key).
  split; [by eapply list_elem_of_lookup_2|done].
Qed.

(** *** The steps of a visit *)

Lemma visit_start_frame s node s' :
  Crawler.visit_start cfg s node = Some s' →
  Crawler.inventoryMap s' = Crawler.inventoryMap s
  ∧ Crawler.phase s' = Crawler.phase s
  ∧ Crawler.fetchedCount s' = Crawler.fetchedCount s
  ∧ (bfs_inv s → bfs_inv s').
Proof.
  destruct s as [q sn m e fc r ph]. unfold Crawler.visit_start. simpl.
  destruct (Crawler.maxPages cfg <=? fc); [by intros [= <-]|].
  destruct (UrlUtils.normalizeForKey (Crawler.node_url node)) as [key|]; [|done]. simpl.
  destruct (bool_decide (key ∈ sn)) eqn:Hseen; [by intros [= <-]|].
  apply bool_decide_eq_false in Hseen.
  assert (bfs_inv (Crawler.mkState q sn m e fc r ph) →
          bfs_inv (Crawler.mkState q ({[key]} ∪ sn) m e fc r ph)) as Hmark.
  { unfold bfs_inv. simpl. intros (Hinv & Hfk & Hnd). split_and!; [| |done].
    - intros k it Hk Hd. destruct (Hinv k it Hk Hd).
      split; [apply elem_of_union; by right|done].
    - intros k Hk. apply elem_of_union. right. by apply Hfk. }
  assert (bfs_inv (Crawler.mkState q sn m e fc r ph) →
          bfs_inv (Crawler.mkState q ({[key]} ∪ sn) m e fc
                     (r ++ [Crawler.Fetching node key]) ph)) as Hqueue.
  { unfold bfs_inv. simpl. intros (Hinv & Hfk & Hnd). split_and!.
    - intros k it Hk Hd. destruct (Hinv k it Hk Hd) as [Hks Hkf].
      split; [apply elem_of_union; by right|]. rewrite fetching_keys_app. simpl.
      intros [?|Hin]%elem_of_app; [done|].
      apply list_elem_of_singleton in Hin as ->. done.
    - intros k. rewrite fetching_keys_app. simpl.
      intros [?%Hfk|Hin]%elem_of_app; apply elem_of_union; [by right|].
      apply list_elem_of_singleton in Hin as ->. left. by apply elem_of_singleton.
    - rewrite fetching_keys_app. simpl. apply NoDup_app. split; [done|].
      split; [|apply NoDup_singleton].
      intros k Hk%Hfk Hin. apply list_elem_of_singleton in Hin as ->. done. }
  unfold Crawler.with_seen, Crawler.with_running. simpl.
  repeat case_match; intros [= <-]; simpl; auto.
Qed.

Lemma start_all_frame batch : ∀ s s',
  Crawler.start_all cfg s batch = Some s' →
  Crawler.inventoryMap s' = Crawler.inventoryMap s
  ∧ Crawler.phase s' = Crawler.phase s
  ∧ Crawler.fetchedCount s' = Crawler.fetchedCount s
  ∧ (bfs_inv s → bfs_inv s').
Proof.
  induction batch as [|node batch IH]; intros s s'; simpl.
  - by intros [= <-].
  - destruct (Crawler.visit_start cfg s node) as [s1|] eqn:Hs1; [|done]. simpl.
    intros Hrest. destruct (visit_start_frame _ _ _ Hs1) as (E1 & E2 & E3 & Hb).
    destruct (IH _ _ Hrest) as (E1' & E2' & E3' & Hb').
    rewrite E1', E2', E3', E1, E2, E3. split_and!; auto.
Qed.

Lemma link_step_frame node fu s toAbs :
  let s' := Crawler.link_step cfg node fu s toAbs in
  Crawler.inventoryMap s' = Crawler.inventoryMap s
  ∧ Crawler.seen s' = Crawler.seen s
  ∧ Crawler.running s' = Crawler.running s
  ∧ Crawler.phase s' = Crawler.phase s
  ∧ Crawler.fetchedCount s' = Crawler.fetchedCount s.
Proof.
  unfold Crawler.link_step. destruct s. simpl. repeat case_match; done.
Qed.

Lemma links_frame node fu hrefs : ∀ s,
  let s' := foldl (Crawler.link_step cfg node fu) s hrefs in
  Crawler.inventoryMap s' = Crawler.inventoryMap s
  ∧ Crawler.seen s' = Crawler.seen s
  ∧ Crawler.running s' = Crawler.running s
  ∧ Crawler.phase s' = Crawler.phase s
  ∧ Crawler.fetchedCount s' = Crawler.fetchedCount s.
Proof.
  induction hrefs as [|h hrefs IH]; intros s; simpl; [done|].
  destruct (IH (Crawler.link_step cfg node fu s h)) as (E1 & E2 & E3 & E4 & E5).
  destruct (link_step_frame node fu s h) as (F1 & F2 & F3 & F4 & F5).
  cbv zeta in *. by rewrite E1, E2, E3, E4, E5, F1, F2, F3, F4, F5.
Qed.

Lemma visit_body_frame i node ri s s' :
  Crawler.visit_body cfg i node ri s = Some s' →
  Crawler.inventoryMap s' = Crawler.inventoryMap s
  ∧ Crawler.seen s' = Crawler.seen s
  ∧ Crawler.running s' = delete i (Crawler.running s)
  ∧ Crawler.phase s' = Crawler.phase s
  ∧ Crawler.fetchedCount s' = Crawler.fetchedCount s.
Proof.
  unfold Crawler.visit_body. destruct (Js.truthy _).
  - destruct (Crawler.collect_hrefs _ _ _) as [hrefs|]; [|done]. simpl.
    intros [= <-].
    destruct (links_frame node (ri_finalUrl ri) hrefs
                (Crawler.with_running (delete i (Crawler.running s)) s))
      as (E1 & E2 & E3 & E4 & E5).
    cbv zeta in *. rewrite E1, E2, E3, E4, E5. by destruct s.
  - intros [= <-]. by destruct s.
Qed.

Lemma merge_visit_key prev item : normalizedUrl (Crawler.merge_visit prev item) = normalizedUrl item.
Proof. done. Qed.

Lemma merge_visit_placeholder prev item :
  discoveredBy prev = sitemap → discoveredBy (Crawler.merge_visit prev item) = both.
Proof. intros Hp. unfold Crawler.merge_visit. simpl. by rewrite Hp. Qed.

(** What the resumption of a fetching visit does to the inventory. *)
Lemma visit_fetched_inventory i node key ri s s' :
  Crawler.visit_fetched cfg i node key ri s = Some s' →
  ∃ item,
    normalizedUrl item = key
    ∧ Crawler.inventoryMap s'
      = <[key := match Crawler.inventoryMap s !! key with
                 | Some prev => Crawler.merge_visit prev item
                 | None => item
                 end]> (Crawler.inventoryMap s)
    ∧ Crawler.seen s' = Crawler.seen s
    ∧ Crawler.phase s' = Crawler.phase s
    ∧ Crawler.fetchedCount s' = Crawler.fetchedCount s + 1
    ∧ (Crawler.running s' = delete i (Crawler.running s)
       ∨ Crawler.running s' = <[i := Crawler.Reading node ri]> (Crawler.running s)).
Proof.
  destruct s as [q sn m e fc r ph]. unfold Crawler.visit_fetched. simpl.
  match goal with
  | |- context [mbind _ ?c] => destruct c as [inSm|]; [|done]
  end. simpl.
  set (item := mkItem _ _ _ _ _ _ _ _).
  intros Hs'. exists item. split; [done|].
  destruct (m !! key) as [prev|]; simpl in Hs';
    repeat case_match; simplify_eq; simpl; auto 10.
Qed.

(** *** One step of the run *)

Lemma strengthens_refl it : strengthens it it.
Proof. by left. Qed.

Lemma unchanged_inventory (s s' : Crawler.State) :
  Crawler.inventoryMap s' = Crawler.inventoryMap s →
  ∀ k it, Crawler.inventoryMap s !! k = Some it →
          ∃ it', Crawler.inventoryMap s' !! k = Some it' ∧ strengthens it it'.
Proof. intros -> k it Hk. exists it. split; [done|apply strengthens_refl]. Qed.

Lemma step_fetched i node key ri s s' :
  crawl_inv s → Crawler.phase s = Crawler.Bfs →
  Crawler.running s !! i = Some (Crawler.Fetching node key) →
  Crawler.visit_fetched cfg i node key ri s = Some s' →
  crawl_inv s'
  ∧ ∀ k it, Crawler.inventoryMap s !! k = Some it →
            ∃ it', Crawler.inventoryMap s' !! k = Some it' ∧ strengthens it it'.
Proof.
  intros [Hkeyed Hbfs] Hph Hi Hs'.
  destruct (Hbfs Hph) as (Hinv & Hfk & Hnd).
  destruct (visit_fetched_inventory _ _ _ _ _ _ Hs')
    as (item & Hitem & Hm & Hseen & Hph' & _ & Hrun).
  pose proof (fetching_keys_elem _ _ _ _ Hi) as Hkey.
  destruct (fetching_keys_leave _ _ _ _ Hi Hnd (Crawler.running s'))
    as (Hgone & Hnd' & Hsub).
  { destruct Hrun as [->| ->]; eauto. }
  assert (∀ prev, Crawler.inventoryMap s !! key = Some prev → discoveredBy prev = sitemap)
    as Hplace.
  { intros prev Hprev. destruct (decide (discoveredBy prev = sitemap)) as [|Hne]; [done|].
    by destruct (Hinv key prev Hprev Hne). }
  split; [split|].
  - intros k it. rewrite Hm. destruct (decide (key = k)) as [<-|Hne].
    + rewrite lookup_insert_eq. intros [= <-]. by destruct (Crawler.inventoryMap s !! key).
    + rewrite lookup_insert_ne by done. apply Hkeyed.
  - intros _. split_and!; [|by intros k Hk%Hsub; rewrite Hseen; apply Hfk|done].
    intros k it. rewrite Hm, Hseen. destruct (decide (key = k)) as [<-|Hne].
    + intros _ _. split; [by apply Hfk|done].
    + rewrite lookup_insert_ne by done. intros Hk Hd.
      destruct (Hinv k it Hk Hd) as [? Hnot]. split; [done|].
      intros Hin. by apply Hnot, Hsub.
  - intros k it Hk. rewrite Hm. destruct (decide (key = k)) as [<-|Hne].
    + rewrite lookup_insert_eq, Hk. eexists. split; [done|].
      right. apply merge_visit_placeholder. by apply Hplace.
    + rewrite lookup_insert_ne by done. exists it. split; [done|apply strengthens_refl].
Qed.

Lemma step_inv ev s s' :
  crawl_inv s → Crawler.step cfg ev s = Some s' →
  crawl_inv s'
  ∧ ∀ k it, Crawler.inventoryMap s !! k = Some it →
            ∃ it', Crawler.inventoryMap s' !! k = Some it' ∧ strengthens it it'.
Proof.
  intros Hinv. unfold Crawler.step.
  destruct (Crawler.phase s) as [|pending] eqn:Hph; destruct ev as [|i r|i| |i r]; try done.
  - (* a batch starts *)
    destruct (_ && _); [|done]. intros Hs'.
    destruct (start_all_frame _ _ _ Hs') as (Hm & Hph' & _ & Hb).
    destruct Hinv as [Hkeyed Hbfs]. split; [split|].
    + rewrite Hm. by destruct s.
    + intros _. apply Hb. specialize (Hbfs Hph). by destruct s.
    + apply unchanged_inventory. rewrite Hm. by destruct s.
  - (* a fetch resolves or rejects *)
    destruct (Crawler.running s !! i) as [[node key|]|] eqn:Hi; try done.
    destruct r as [ri|]; [by apply step_fetched|].
    intros [= <-]. destruct Hinv as [Hkeyed Hbfs].
    destruct (Hbfs Hph) as (Hent & Hfk & Hnd).
    destruct (fetching_keys_leave _ _ _ _ Hi Hnd (delete i (Crawler.running s)))
      as (_ & Hnd' & Hsub); [by left|].
    split; [split|].
    + by destruct s.
    + intros _. destruct s as [q sn m e fc rn ph]. simpl in *. split_and!; [|auto|done].
      intros k it Hk Hd. destruct (Hent k it Hk Hd) as [? Hnot]. split; [done|].
      intros Hin. by apply Hnot, Hsub.
    + apply unchanged_inventory. by destruct s.
  - (* a body has been read *)
    destruct (Crawler.running s !! i) as [[|node ri]|] eqn:Hi; try done.
    intros Hs'. destruct (visit_body_frame _ _ _ _ _ Hs') as (Hm & Hseen & Hrun & Hph' & _).
    destruct Hinv as [Hkeyed Hbfs]. split; [split|].
    + by rewrite Hm.
    + intros _. unfold bfs_inv.
      rewrite Hm, Hseen, Hrun, (fetching_keys_done_reading _ _ _ _ Hi). by apply Hbfs.
    + by apply unchanged_inventory.
  - (* the post-pass starts *)
    destruct (_ && _); [|done]. intros [= <-].
    destruct Hinv as [Hkeyed _]. split; [split|].
    + by destruct s.
    + by destruct s.
    + apply unchanged_inventory. by destruct s.
  - (* a post-pass fetch resolves or rejects *)
    destruct (pending !! i) as [k|]; [|done].
    destruct Hinv as [Hkeyed _].
    destruct r as [ri|]; intros [= <-].
    + unfold Crawler.post_update.
      destruct s as [q sn m e fc rn ph]. simpl in *.
      destruct (m !! k) as [prev|] eqn:Hprev; simpl.
      * split; [split|]; simpl.
        -- intros k' it. destruct (decide (k = k')) as [<-|Hne].
           ++ rewrite lookup_insert_eq. intros [= <-]. simpl. by apply Hkeyed.
           ++ rewrite lookup_insert_ne by done. apply Hkeyed.
        -- done.
        -- intros k' it Hk'. destruct (decide (k = k')) as [<-|Hne].
           ++ rewrite lookup_insert_eq. eexists. split; [done|]. by right.
           ++ rewrite lookup_insert_ne by done. exists it. split; [done|apply strengthens_refl].
      * split; [split|]; simpl; [done|done|].
        intros k' it Hk'. exists it. split; [done|apply strengthens_refl].
    + split; [split|].
      * by destruct s.
      * by destruct s.
      * apply unchanged_inventory. by destruct s.
Qed.

Lemma run_inv evs : ∀ s s',
  crawl_inv s → Crawler.run cfg evs s = Some s' → crawl_inv s'.
Proof.
  induction evs as [|ev evs IH]; intros s s' Hinv; simpl.
  - by intros [= <-].
  - destruct (Crawler.step cfg ev s) as [s1|] eqn:Hs1; [|done]. simpl.
    apply IH. by destruct (step_inv _ _ _ Hinv Hs1).
Qed.

Lemma reachable_inv s : reachable cfg s → crawl_inv s.
Proof. intros [evs Hevs]. eapply run_inv; [apply crawl_inv_init|exact Hevs]. Qed.

Lemma keyed_inventory_NoDup (m : gmap string InventoryItem) :
  keyed m → NoDup (normalizedUrl <$> (map_to_list m).*2).
Proof.
  intros Hkeyed.
  replace (normalizedUrl <$> (map_to_list m).*2) with ((map_to_list m).*1).
  - apply NoDup_fst_map_to_list.
  - rewrite <- list_fmap_compose. apply list_fmap_ext.
    intros i [k it] Hi. simpl. symmetry. apply Hkeyed.
    apply elem_of_map_to_list. by eapply list_elem_of_lookup_2.
Qed.

End CrawlFacts.

(** *** One item per key, provenance that only strengthens *)

(** C4: in every state of a crawl run the inventory holds one item per
    normalized key, and a step of the run (the merge of a visit, a post-pass
    update, or any other event) keeps every entry and leaves its provenance
    as it was or raises it to [both]; an entry that is [both] stays [both]. *)
Theorem inventory_one_item_per_key_provenance_monotone `{UrlLib} `{HtmlLib}
    (cfg : Crawler.Setup) (s s' : Crawler.State) (ev : Crawler.Event) :
  reachable cfg s →
  Crawler.step cfg ev s = Some s' →
  NoDup (normalizedUrl <$> Crawler.inventory s)
  ∧ NoDup (normalizedUrl <$> Crawler.inventory s')
  ∧ ∀ k it, Crawler.inventoryMap s !! k = Some it →
            ∃ it', Crawler.inventoryMap s' !! k = Some it'
                   ∧ strengthens it it'
                   ∧ (discoveredBy it = both → discoveredBy it' = both).
Proof.
  intros Hreach Hstep.
  pose proof (reachable_inv cfg s Hreach) as Hinv.
  destruct (step_inv cfg ev s s' Hinv Hstep) as [Hinv' Hmono].
  split_and!.
  - apply keyed_inventory_NoDup, Hinv.
  - apply keyed_inventory_NoDup, Hinv'.
  - intros k it Hk. destruct (Hmono k it Hk) as (it' & Hk' & Hs).
    exists it'. split_and!; [done|done|].
    intros Hboth. destruct Hs as [->| ->]; done.
Qed.

Lemma inventory_one_item_per_key_provenance_monotone_witness :
  ∃ s s',
    @Crawler.run Ref.urlLib Examples.site_docs Examples.with_sitemap
       Examples.links_in_flight (@Crawler.crawl_init Ref.urlLib Examples.with_sitemap) = Some s
    ∧ @Crawler.step Ref.urlLib Examples.site_docs Examples.with_sitemap
        (Crawler.FetchDone 1 (Some (Examples.html_page "<p>b</p>" "https://ex.com/b"))) s
      = Some s'
    ∧ NoDup (normalizedUrl <$> Crawler.inventory s').
Proof.
  destruct (@Crawler.run Ref.urlLib Examples.site_docs Examples.with_sitemap
              Examples.links_in_flight (@Crawler.crawl_init Ref.urlLib Examples.with_sitemap))
    as [s|] eqn:Hs; [|by vm_compute in Hs].
  destruct (@Crawler.step Ref.urlLib Examples.site_docs Examples.with_sitemap
              (Crawler.FetchDone 1 (Some (Examples.html_page "<p>b</p>" "https://ex.com/b"))) s)
    as [s'|] eqn:Hs'.
  - exists s, s'. split; [reflexivity|]. split; [exact Hs'|].
    exact (proj1 (proj2
      (@inventory_one_item_per_key_provenance_monotone
         Ref.urlLib Examples.site_docs Examples.with_sitemap s s'
         (Crawler.FetchDone 1 (Some (Examples.html_page "<p>b</p>" "https://ex.com/b")))
         (ex_intro _ Examples.links_in_flight Hs) Hs'))).
  - exfalso. vm_compute in Hs. injection Hs as <-. vm_compute in Hs'. discriminate.
Defined.

(** The sitemap placeholder of [/b] becomes [both] when the visit of [/b]
    is merged into it. *)
Example visit_raises_placeholder_to_both :
  (s ← @Crawler.run Ref.urlLib Examples.site_docs Examples.with_sitemap
         (Examples.links_in_flight
          ++ [Crawler.FetchDone 1 (Some (Examples.html_page "<p>b</p>" "https://ex.com/b"))])
         (@Crawler.crawl_init Ref.urlLib Examples.with_sitemap);
   discoveredBy <$> Crawler.inventoryMap s !! "https://ex.com/b") = Some both.
Proof. vm_compute. reflexivity. Qed.

(** Outside a run the merge expression of [visit] does not protect a
    [both] entry from an [html] item; [step_fetched] shows that a run only
    applies it to a sitemap placeholder. *)
Example merge_visit_needs_the_invariant :
  discoveredBy
    (Crawler.merge_visit (mkItem "u" "k" "u" 200 None 1 both [])
                         (mkItem "u" "k" "u" 200 None 1 html []))
  = html.
Proof. reflexivity. Qed.

(** *** The page budget *)

Section Budget.
Context `{UrlLib} `{HtmlLib}.
Variable cfg : Crawler.Setup.

Lemma visit_start_in_flight s node s' :
  Crawler.visit_start cfg s node = Some s' →
  length (fetching_keys (Crawler.running s'))
  ≤ S (length (fetching_keys (Crawler.running s))).
Proof.
  destruct s as [q sn m e fc r ph]. unfold Crawler.visit_start. simpl.
  destruct (Crawler.maxPages cfg <=? fc); [intros [= <-]; simpl; lia|].
  destruct (UrlUtils.normalizeForKey (Crawler.node_url node)) as [key|]; [|done]. simpl.
  destruct (bool_decide (key ∈ sn)); [intros [= <-]; simpl; lia|].
  unfold Crawler.with_seen, Crawler.with_running. simpl.
  repeat case_match; intros [= <-]; simpl; try lia.
  rewrite fetching_keys_app, length_app. simpl. lia.
Qed.

Lemma start_all_in_flight batch : ∀ s s',
  Crawler.start_all cfg s batch = Some s' →
  length (fetching_keys (Crawler.running s'))
  ≤ length (fetching_keys (Crawler.running s)) + length batch.
Proof.
  induction batch as [|node batch IH]; intros s s'; simpl.
  - intros [= <-]. lia.
  - destruct (Crawler.visit_start cfg s node) as [s1|] eqn:Hs1; [|done]. simpl.
    intros Hrest%IH. apply visit_start_in_flight in Hs1. lia.
Qed.

Lemma fetching_keys_leave_length (l : list Crawler.Task) i node key l' :
  l !! i = Some (Crawler.Fetching node key) →
  (l' = delete i l ∨ (∃ ri, l' = <[i := Crawler.Reading node ri]> l)) →
  S (length (fetching_keys l')) = length (fetching_keys l).
Proof.
  intros Hi Hl'. destruct (running_split l i _ Hi) as (Hl & Hdel & Hins).
  destruct Hl' as [->|[ri ->]]; [rewrite Hdel|rewrite Hins];
    rewrite Hl at 3; rewrite !fetching_keys_app, !length_app; simpl; lia.
Qed.

Lemma step_budget ev s s' :
  committed s ≤ budget cfg →
  Crawler.step cfg ev s = Some s' →
  committed s' ≤ budget cfg.
Proof.
  unfold committed, budget, Crawler.step.
  destruct (Crawler.phase s) as [|pending] eqn:Hph; destruct ev as [|i r|i| |i r]; try done.
  - destruct (bool_decide (Crawler.running s = [])) eqn:Hrun; [|done].
    apply bool_decide_eq_true in Hrun.
    unfold Crawler.loop_continues.
    destruct (negb _); [|done]. simpl.
    destruct (Crawler.fetchedCount s <? Crawler.maxPages cfg) eqn:Hlt; [|done].
    apply Nat.ltb_lt in Hlt. intros Hb Hs'.
    pose proof (start_all_in_flight _ _ _ Hs') as Hlen.
    destruct (start_all_frame cfg _ _ _ Hs') as (_ & -> & -> & _).
    destruct s as [q sn m e fc rn ph]. simpl in *. subst. simpl in *.
    rewrite length_take in Hlen. lia.
  - destruct (Crawler.running s !! i) as [[node key|]|] eqn:Hi; try done.
    destruct r as [ri|].
    + intros Hb Hs'.
      destruct (visit_fetched_inventory cfg _ _ _ _ _ _ Hs')
        as (_ & _ & _ & _ & -> & -> & Hrun).
      rewrite Hph.
      pose proof (fetching_keys_leave_length _ _ _ _ (Crawler.running s') Hi) as Hlen.
      rewrite <- Hlen in Hb; [lia|].
      destruct Hrun as [->| ->]; eauto.
    + intros Hb [= <-]. destruct s as [q sn m e fc rn ph]. simpl in *. subst.
      pose proof (fetching_keys_leave_length _ _ _ _ (delete i rn) Hi) as Hlen.
      rewrite <- Hlen in Hb; [lia|by left].
  - destruct (Crawler.running s !! i) as [[|node ri]|] eqn:Hi; try done.
    intros Hb Hs'.
    destruct (visit_body_frame cfg _ _ _ _ _ Hs') as (_ & _ & -> & -> & ->).
    rewrite Hph, (fetching_keys_done_reading _ _ _ _ Hi). done.
  - destruct (bool_decide (Crawler.running s = [])) eqn:Hrun; [|done].
    apply bool_decide_eq_true in Hrun. destruct (negb _); [|done].
    intros Hb [= <-]. destruct s as [q sn m e fc rn ph]. simpl in *. subst. simpl in *.
    unfold Crawler.toFetch, Crawler.room. simpl. rewrite length_take. lia.
  - destruct (pending !! i) as [k|] eqn:Hk; [|done].
    assert (S (length (delete i pending)) = length pending) as Hlen.
    { rewrite length_delete by eauto. apply lookup_lt_Some in Hk. lia. }
    destruct r as [ri|]; intros Hb [= <-].
    + unfold Crawler.post_update. destruct s as [q sn m e fc rn ph]. simpl in *.
      destruct (m !! k); simpl; lia.
    + destruct s as [q sn m e fc rn ph]. simpl in *. lia.
Qed.

Lemma run_budget evs : ∀ s s',
  committed s ≤ budget cfg → Crawler.run cfg evs s = Some s' → committed s' ≤ budget cfg.
Proof.
  induction evs as [|ev evs IH]; intros s s' Hb; simpl.
  - by intros [= <-].
  - destruct (Crawler.step cfg ev s) as [s1|] eqn:Hs1; [|done]. simpl.
    apply IH. by eapply step_budget.
Qed.

(** X1: in every state of a run the count of fetches exceeds [maxPages]
    by at most [maxConcurrency - 1], and the post-pass starts at most
    [maxPages - fetchedCount] fetches. *)
Theorem pagesFetched_overshoot_bounded (s : Crawler.State) :
  reachable cfg s →
  Crawler.pagesFetched s ≤ Crawler.maxPages cfg + (Crawler.maxConcurrency cfg - 1)
  ∧ length (Crawler.toFetch cfg s) ≤ Crawler.maxPages cfg - Crawler.fetchedCount s.
Proof.
  intros [evs Hevs]. split.
  - assert (committed s ≤ budget cfg) as Hb.
    { eapply run_budget; [|exact Hevs]. unfold committed, budget. simpl. lia. }
    unfold committed in Hb. unfold Crawler.pagesFetched, budget in *. lia.
  - unfold Crawler.toFetch, Crawler.room. rewrite length_take. lia.
Qed.

End Budget.

Lemma pagesFetched_overshoot_bounded_witness :
  ∃ s, @Crawler.run Ref.urlLib Examples.site_docs Examples.two_pages
         Examples.three_links_run (@Crawler.crawl_init Ref.urlLib Examples.two_pages) = Some s
       ∧ Crawler.pagesFetched s ≤ 2 + (6 - 1).
Proof.
  destruct (@Crawler.run Ref.urlLib Examples.site_docs Examples.two_pages
              Examples.three_links_run (@Crawler.crawl_init Ref.urlLib Examples.two_pages))
    as [s|] eqn:Hs; [|by vm_compute in Hs].
  exists s. split; [reflexivity|].
  exact (proj1 (@pagesFetched_overshoot_bounded Ref.urlLib Examples.site_docs
                  Examples.two_pages s (ex_intro _ Examples.three_links_run Hs))).
Defined.

(** C1 at a failing run: with [maxPages = 2], the home page is fetched,
    then its three links pass the [fetchedCount >= maxPages] test together,
    before any of their fetches resolves, and all are fetched: four fetches
    are counted. *)
Theorem crawl_fetches_more_than_maxPages :
  Crawler.pagesFetched
    <$> @Crawler.run Ref.urlLib Examples.site_docs Examples.two_pages
          Examples.three_links_run (@Crawler.crawl_init Ref.urlLib Examples.two_pages)
  = Some 4
  ∧ Crawler.maxPages Examples.two_pages = 2.
Proof. split; [vm_compute|]; reflexivity. Qed.

(** *** The depth bound *)

Section Depth.
Context `{UrlLib} `{HtmlLib}.
Variable cfg : Crawler.Setup.

Lemma visit_start_depth s node s' :
  shallow cfg node →
  Crawler.visit_start cfg s node = Some s' →
  depth_inv cfg s → depth_inv cfg s'.
Proof.
  intros Hnode. destruct s as [q sn m e fc r ph].
  unfold Crawler.visit_start, depth_inv. simpl.
  destruct (Crawler.maxPages cfg <=? fc); [by intros [= <-]|].
  destruct (UrlUtils.normalizeForKey (Crawler.node_url node)) as [key|]; [|done]. simpl.
  destruct (bool_decide (key ∈ sn)); [by intros [= <-]|].
  unfold Crawler.with_seen, Crawler.with_running. simpl.
  repeat case_match; intros [= <-]; simpl; try done.
  intros (Hq & Hr & Hm). split_and!; [done| |done].
  apply Forall_app. split; [done|]. by apply Forall_singleton.
Qed.

Lemma start_all_depth batch : ∀ s s',
  Forall (shallow cfg) batch →
  Crawler.start_all cfg s batch = Some s' →
  depth_inv cfg s → depth_inv cfg s'.
Proof.
  induction batch as [|node batch IH]; intros s s' Hbatch; simpl.
  - by intros [= <-].
  - inversion Hbatch as [|? ? Hnode Hrest]; subst.
    destruct (Crawler.visit_start cfg s node) as [s1|] eqn:Hs1; [|done]. simpl.
    intros Hs' Hinv. eapply IH; [done|exact Hs'|].
    by eapply visit_start_depth.
Qed.

Lemma link_step_queue node fu s toAbs :
  Crawler.node_depth node ≤ Crawler.depthMax cfg →
  Forall (shallow cfg) (Crawler.queue s) →
  Forall (shallow cfg) (Crawler.queue (Crawler.link_step cfg node fu s toAbs)).
Proof.
  intros Hnode Hq. unfold Crawler.link_step. destruct s as [q sn m e fc r ph]. simpl in *.
  repeat case_match; simpl; try done.
  apply Forall_app. split; [done|]. apply Forall_singleton. unfold shallow. simpl.
  match goal with
  | Hc : _ && (_ <? _) = true |- _ => apply andb_true_iff in Hc as [_ Hlt%Nat.ltb_lt]
  end.
  lia.
Qed.

Lemma links_queue node fu hrefs : ∀ s,
  Crawler.node_depth node ≤ Crawler.depthMax cfg →
  Forall (shallow cfg) (Crawler.queue s) →
  Forall (shallow cfg) (Crawler.queue (foldl (Crawler.link_step cfg node fu) s hrefs)).
Proof.
  induction hrefs as [|h hrefs IH]; intros s Hnode Hq; simpl; [done|].
  apply IH; [done|]. by apply link_step_queue.
Qed.

Lemma visit_fetched_depth i node key ri s s' :
  Crawler.visit_fetched cfg i node key ri s = Some s' →
  Crawler.queue s' = Crawler.queue s
  ∧ ∀ k it, Crawler.inventoryMap s' !! k = Some it →
            depth it = Crawler.node_depth node ∨ Crawler.inventoryMap s !! k = Some it.
Proof.
  destruct s as [q sn m e fc r ph]. unfold Crawler.visit_fetched. simpl.
  match goal with
  | |- context [mbind _ ?c] => destruct c as [inSm|]; [|done]
  end. simpl.
  intros Hs'.
  assert (∀ x, depth x = Crawler.node_depth node →
               ∀ k it, <[key := x]> m !! k = Some it →
                       depth it = Crawler.node_depth node ∨ m !! k = Some it) as Hins.
  { intros x Hx k it. destruct (decide (key = k)) as [<-|Hne].
    - rewrite lookup_insert_eq. intros [= <-]. by left.
    - rewrite lookup_insert_ne by done. by right. }
  destruct (m !! key) as [prev|]; simpl in Hs';
    repeat case_match; simplify_eq; simpl; (split; [done|]); by apply Hins.
Qed.

Lemma step_depth ev s s' :
  depth_inv cfg s → Crawler.step cfg ev s = Some s' → depth_inv cfg s'.
Proof.
  intros (Hq & Hr & Hm). unfold Crawler.step.
  destruct (Crawler.phase s) as [|pending] eqn:Hph; destruct ev as [|i r|i| |i r]; try done.
  - destruct (_ && _); [|done]. intros Hs'.
    eapply start_all_depth; [|exact Hs'|].
    + by apply Forall_take.
    + destruct s as [q sn m e fc rn ph]. unfold depth_inv. simpl in *.
      split_and!; [by apply Forall_drop|done|done].
  - destruct (Crawler.running s !! i) as [[node key|]|] eqn:Hi; try done.
    pose proof (Forall_lookup_1 _ _ _ _ Hr Hi) as Hnode. simpl in Hnode.
    destruct r as [ri|].
    + intros Hs'.
      destruct (visit_fetched_inventory cfg _ _ _ _ _ _ Hs')
        as (_ & _ & _ & _ & _ & _ & Hrun).
      destruct (visit_fetched_depth _ _ _ _ _ _ Hs') as (Hq' & Hm').
      split_and!.
      * by rewrite Hq'.
      * destruct Hrun as [->| ->]; [by apply Forall_delete|by apply Forall_insert].
      * intros k it Hk Hhtml. destruct (Hm' k it Hk) as [->|Hold]; [exact Hnode|].
        by eapply Hm.
    + intros [= <-]. destruct s as [q sn m e fc rn ph]. unfold depth_inv. simpl in *.
      split_and!; [done|by apply Forall_delete|done].
  - destruct (Crawler.running s !! i) as [[|node ri]|] eqn:Hi; try done.
    pose proof (Forall_lookup_1 _ _ _ _ Hr Hi) as Hnode. simpl in Hnode.
    intros Hs'. destruct (visit_body_frame cfg _ _ _ _ _ Hs') as (Em & _ & Er & _ & _).
    unfold depth_inv. rewrite Em, Er. split_and!; [|by apply Forall_delete|done].
    revert Hs'. unfold Crawler.visit_body.
    destruct (Js.truthy _).
    + destruct (Crawler.collect_hrefs _ _ _) as [hrefs|]; [|done]. simpl.
      intros [= <-]. apply links_queue; [exact Hnode|]. by destruct s.
    + intros [= <-]. by destruct s.
  - destruct (_ && _); [|done]. intros [= <-]. by destruct s.
  - destruct (pending !! i) as [k|]; [|done].
    destruct r as [ri|]; intros [= <-]; [|by destruct s].
    unfold Crawler.post_update, depth_inv.
    destruct s as [q sn m e fc rn ph]. simpl in *.
    destruct (m !! k) as [prev|] eqn:Hprev; simpl; [|done].
    split_and!; [done|done|].
    intros k' it. destruct (decide (k = k')) as [<-|Hne].
    + rewrite lookup_insert_eq. by intros [= <-].
    + rewrite lookup_insert_ne by done. apply Hm.
Qed.

Lemma run_depth evs : ∀ s s',
  depth_inv cfg s → Crawler.run cfg evs s = Some s' → depth_inv cfg s'.
Proof.
  induction evs as [|ev evs IH]; intros s s' Hinv; simpl.
  - by intros [= <-].
  - destruct (Crawler.step cfg ev s) as [s1|] eqn:Hs1; [|done]. simpl.
    apply IH. by eapply step_depth.
Qed.

Lemma depth_inv_init : depth_inv cfg (Crawler.crawl_init cfg).
Proof.
  split_and!.
  - simpl. unfold Crawler.seeds. repeat constructor; unfold shallow; simpl;
      try case_match; simpl; lia.
  - constructor.
  - intros k it Hk Hhtml.
    assert (discoveredBy it = sitemap) as Hs; [|congruence].
    eapply (preregister_all_placeholders (Crawler.fromSitemaps cfg) ∅); [|exact Hk].
    intros k' it'. by rewrite lookup_empty.
Qed.

(** X2: in every state of a run, an inventory item discovered through
    HTML alone records a depth of at most the requested [depth]. *)
Theorem html_items_within_depth (s : Crawler.State) :
  reachable cfg s →
  ∀ it, it ∈ Crawler.inventory s → discoveredBy it = html →
        depth it ≤ Crawler.depthMax cfg.
Proof.
  intros [evs Hevs] it Hin Hhtml.
  destruct (run_depth evs _ _ depth_inv_init Hevs) as (_ & _ & Hm).
  unfold Crawler.inventory in Hin.
  apply list_elem_of_fmap in Hin as ([k it'] & -> & Hin). simpl in *.
  apply elem_of_map_to_list in Hin. by eapply Hm.
Qed.

End Depth.

Lemma html_items_within_depth_witness :
  ∃ s, @Crawler.run Ref.urlLib Examples.site_docs Examples.two_pages
         Examples.three_links_run (@Crawler.crawl_init Ref.urlLib Examples.two_pages) = Some s
       ∧ ∀ it, it ∈ Crawler.inventory s → discoveredBy it = html → depth it ≤ 1.
Proof.
  destruct (@Crawler.run Ref.urlLib Examples.site_docs Examples.two_pages
              Examples.three_links_run (@Crawler.crawl_init Ref.urlLib Examples.two_pages))
    as [s|] eqn:Hs; [|by vm_compute in Hs].
  exists s. split; [reflexivity|].
  exact (@html_items_within_depth Ref.urlLib Examples.site_docs
           Examples.two_pages s (ex_intro _ Examples.three_links_run Hs)).
Defined.

(* ===================================================================== *)
(** ** Further properties of utils/url.ts *)
(* ===================================================================== *)

(** X3. [stripTrackingParams] removes exactly the parameters whose
    name is one of the ten tracking names (compared as written, so
    [UTM_SOURCE] stays); the other parameters keep their values and their
    order, and no other part of the URL changes. *)
Theorem stripTrackingParams_removes_exactly_tracking (u : URL) :
  UrlUtils.stripTrackingParams u
  = mkURL (protocol u) (hostname u) (port u) (pathname u)
          (filter (fun kv => kv.1 ∉ UrlUtils.TRACKING_PARAMS) (searchParams u))
          (hash u).
Proof.
  unfold UrlUtils.stripTrackingParams. rewrite strip_fold. f_equal.
  apply filter_agree. intros kv Hkv. unfold searchParams_keys.
  split; [|tauto]. intros Hn Ht. apply Hn. split; [done|].
  apply list_elem_of_fmap. by exists kv.
Qed.

Lemma sameETLD1_refl (a b : URL) :
  Js.toLowerCase (hostname a) = Js.toLowerCase (hostname b) →
  UrlUtils.sameETLD1 a b = true.
Proof. unfold UrlUtils.sameETLD1. intros ->. apply String.eqb_refl. Qed.

(** X4. Without [includeSubdomains] a target is internal exactly when
    its hostname equals the base hostname up to letter case: the eTLD+1
    test decides nothing there. *)
Theorem isInternal_exact_host (base target : URL) :
  UrlUtils.isInternal base target false = true
  ↔ Js.toLowerCase (hostname base) = Js.toLowerCase (hostname target).
Proof.
  unfold UrlUtils.isInternal. cbn [negb]. split.
  - destruct (UrlUtils.sameETLD1 base target); cbn; [|done].
    by intros ?%String.eqb_eq.
  - intros Heq. rewrite (sameETLD1_refl _ _ Heq). cbn.
    by apply String.eqb_eq.
Qed.

Lemma chars_toLowerCase (s : string) :
  chars (Js.toLowerCase s) = Js.lower_ascii <$> chars s.
Proof. induction s as [|c s IH]; simpl; [done|by rewrite IH]. Qed.

Lemma toLowerCase_app (a b : string) :
  Js.toLowerCase (a +:+ b) = Js.toLowerCase a +:+ Js.toLowerCase b.
Proof.
  apply chars_inj.
  rewrite chars_toLowerCase, !chars_app, !chars_toLowerCase. apply fmap_app.
Qed.

Lemma split_char_go_app (sep : ascii) (a b : string) : ∀ acc,
  Js.split_char_go sep acc (a +:+ String sep b)
  = Js.split_char_go sep acc a ++ Js.split_char_go sep "" b.
Proof.
  induction a as [|c a IH]; intros acc; simpl.
  - by rewrite Ascii.eqb_refl.
  - destruct (Ascii.eqb c sep); by rewrite IH.
Qed.

Lemma split_char_go_nonempty (sep : ascii) (s : string) : ∀ acc,
  Js.split_char_go sep acc s ≠ [].
Proof. induction s as [|c s IH]; intros acc; simpl; [done|]. by destruct (Ascii.eqb c sep). Qed.

Lemma split_char_app (sep : ascii) (a b : string) :
  Js.split_char sep (a +:+ String sep b) = Js.split_char sep a ++ Js.split_char sep b.
Proof. apply split_char_go_app. Qed.

Lemma split_char_go_two (sep : ascii) (s : string) : ∀ acc,
  sep ∈ chars s → 2 ≤ length (Js.split_char_go sep acc s).
Proof.
  induction s as [|c s IH]; intros acc; simpl.
  - by intros ?%elem_of_nil.
  - intros [Heq|Hin]%elem_of_cons.
    + subst c. rewrite Ascii.eqb_refl. simpl.
      pose proof (split_char_go_nonempty sep s "") as Hne.
      destruct (Js.split_char_go sep "" s); [done|simpl; lia].
    + destruct (Ascii.eqb c sep); simpl; [|by apply IH].
      specialize (IH "" Hin). lia.
Qed.

Lemma slice_last2_app {A} (l1 l2 : list A) :
  2 ≤ length l2 → Js.slice_last2 (l1 ++ l2) = Js.slice_last2 l2.
Proof.
  intros Hlen. unfold Js.slice_last2. rewrite length_app.
  replace (length l1 + length l2 - 2) with (length l1 + (length l2 - 2)) by lia.
  by rewrite drop_app_add.
Qed.

(** X5. With [includeSubdomains], every host obtained by prefixing
    labels to a base host of at least two labels is internal. *)
Theorem isInternal_subdomain (base target : URL) (sub : string) :
  "."%char ∈ chars (hostname base) →
  hostname target = sub +:+ "." +:+ hostname base →
  UrlUtils.isInternal base target true = true.
Proof.
  intros Hdot Htarget. unfold UrlUtils.isInternal, UrlUtils.sameETLD1.
  rewrite Htarget, toLowerCase_app.
  change (Js.toLowerCase ("." +:+ hostname base))
    with (String "." (Js.toLowerCase (hostname base))).
  rewrite split_char_app, slice_last2_app, String.eqb_refl; [done|].
  apply split_char_go_two. rewrite chars_toLowerCase.
  apply list_elem_of_fmap. by exists "."%char.
Qed.

Lemma isInternal_subdomain_witness :
  UrlUtils.isInternal (mkURL "https:" "example.com" "" "/" [] "")
                      (mkURL "https:" "blog.eu.example.com" "" "/post" [] "")
                      true = true.
Proof.
  apply (isInternal_subdomain _ _ "blog.eu").
  - cbn. set_solver.
  - reflexivity.
Defined.

(** X6. A line of the ignore-list file that reads [ext] or [.ext] once
    trimmed and lower-cased (so in any letter case, with blanks or a
    carriage return around it) makes [hasIgnoredExtension] accept every
    URL whose lower-cased path ends in a name with last extension
    [.ext]. *)
Theorem listed_extension_is_ignored (content line : string) (u : URL)
        (pre : string) (c : ascii) (ext : string) :
  line ∈ Js.split_char "010" content →
  Js.toLowerCase (Js.trim line) = ext ∨ Js.toLowerCase (Js.trim line) = String "." ext →
  Js.toLowerCase (pathname u) = pre +:+ String c (String "." ext) →
  c ≠ "/"%char → ext ≠ "" → Forall plain_char (chars ext) →
  UrlUtils.hasIgnoredExtension (IgnoreList.lines content) u = true.
Proof.
  intros Hline Hext Hpath Hc Hne Hplain.
  rewrite (hasIgnoredExtension_last_dot _ u pre c ext Hpath Hc Hne Hplain).
  cbv zeta.
  assert (Js.arr_includes (IgnoreList.lines content) ext
          || Js.arr_includes (IgnoreList.lines content) (String "." ext) = true) as ->.
  { apply orb_true_iff. rewrite !arr_includes_elem. unfold IgnoreList.lines.
    destruct Hext as [Hext|Hext]; [left|right];
      (apply list_elem_of_filter; split;
       [by destruct ext|apply list_elem_of_fmap; by exists line]). }
  by repeat case_match.
Qed.

Lemma listed_extension_is_ignored_witness :
  UrlUtils.hasIgnoredExtension (IgnoreList.lines Examples2.IGNORE_FILE)
    (mkURL "https:" "ex.com" "" "/files/Report.PDF" [] "") = true
  ∧ UrlUtils.hasIgnoredExtension (IgnoreList.lines Examples2.IGNORE_FILE)
      (mkURL "https:" "ex.com" "" "/files/all.zip" [] "") = true.
Proof.
  split.
  - apply (listed_extension_is_ignored _ ("  PDF " +:+ Examples2.CR) _
             "/files/repor" "t"%char "pdf").
    + vm_compute. set_solver.
    + left. reflexivity.
    + reflexivity.
    + discriminate.
    + discriminate.
    + apply plain_pdf.
  - apply (listed_extension_is_ignored _ ".Zip" _ "/files/al" "l"%char "zip").
    + vm_compute. set_solver.
    + right. reflexivity.
    + reflexivity.
    + discriminate.
    + discriminate.
    + repeat constructor; discriminate.
Defined.

(** X7. When the ignore-list file does not exist or cannot be read,
    the list is empty and no URL has an ignored extension. *)
Theorem missing_ignore_list_ignores_nothing (fs : IgnoreList.FileSys)
        (override : option string) (asset : string) (u : URL) :
  IgnoreList.existsSync fs (IgnoreList.resolveIgnoreListPath fs override asset) = false
  ∨ IgnoreList.readFileSync fs (IgnoreList.resolveIgnoreListPath fs override asset) = None →
  UrlUtils.hasIgnoredExtension (IgnoreList.ignoredExt fs override asset) u = false.
Proof.
  intros Hmissing.
  assert (IgnoreList.ignoredExt fs override asset = []) as ->.
  { unfold IgnoreList.ignoredExt. destruct Hmissing as [->| ->]; [done|by case_match]. }
  unfold UrlUtils.hasIgnoredExtension. cbn [Js.arr_includes existsb orb].
  by repeat case_match.
Qed.

Lemma missing_ignore_list_ignores_nothing_witness :
  UrlUtils.hasIgnoredExtension
    (IgnoreList.ignoredExt (IgnoreList.mkFileSys (fun _ => false) (fun _ => None))
                           (Some "/etc/ignore.txt") "/app/assets/ignore-extensions.txt")
    (mkURL "https:" "ex.com" "" "/files/report.pdf" [] "") = false.
Proof. apply missing_ignore_list_ignores_nothing. left. reflexivity. Defined.

(* ===================================================================== *)
(** ** Further properties of the indexability auditor *)
(* ===================================================================== *)

(** *** Directive strings *)

Lemma set_directive_field (d : Directive) (out : RobotsDirectives) (t : string) :
  directive_field d (Audit.set_directive out t)
  = if String.eqb t (keyword d) then Some true else directive_field d out.
Proof.
  unfold Audit.set_directive.
  destruct (String.eqb_spec t "noindex") as [->|?]; [by destruct d|].
  destruct (String.eqb_spec t "nofollow") as [->|?]; [by destruct d|].
  destruct (String.eqb_spec t "noarchive") as [->|?]; [by destruct d|].
  destruct (String.eqb_spec t "nosnippet") as [->|?]; [by destruct d|].
  destruct (String.eqb_spec t "noimageindex") as [->|?]; [by destruct d|].
  destruct (String.eqb_spec t "nocache") as [->|?]; [by destruct d|].
  destruct d; cbn [keyword directive_field];
    (rewrite (proj2 (String.eqb_neq _ _)); done).
Qed.

Lemma foldl_set_directive (d : Directive) (tokens : list string) : ∀ out,
  directive_field d (foldl Audit.set_directive out tokens)
  = if bool_decide (keyword d ∈ tokens) then Some true else directive_field d out.
Proof.
  induction tokens as [|t tokens IH]; intros out; cbn [foldl].
  - by rewrite bool_decide_eq_false_2 by apply not_elem_of_nil.
  - rewrite IH, set_directive_field.
    destruct (String.eqb_spec t (keyword d)) as [->|Hne].
    + rewrite (bool_decide_eq_true_2 (keyword d ∈ keyword d :: tokens)) by (by left).
      by case_bool_decide.
    + rewrite (bool_decide_ext (keyword d ∈ t :: tokens) (keyword d ∈ tokens)); [done|].
      rewrite elem_of_cons. split; [intros [?|?]; [congruence|done]|by right].
Qed.

(** X8. [parseRobotsDirectives] asserts a directive exactly when its
    keyword is one of the tokens of the string, and then as [true]: it
    never asserts [false], unknown tokens change nothing, and neither do
    the order or the repetition of tokens. *)
Theorem parseRobotsDirectives_asserts_listed (raw : string) (d : Directive) :
  asserted (Audit.parseRobotsDirectives (Some raw)) d
  = if bool_decide (keyword d ∈ directive_tokens raw) then Some true else None.
Proof.
  unfold Audit.parseRobotsDirectives, asserted.
  destruct raw as [|c raw]; [by destruct d|].
  cbn [Js.truthy negb mbind option_bind].
  rewrite foldl_set_directive. by destruct d.
Qed.

(** *** Letter case *)

Lemma is_directive_sep_lower (c : ascii) :
  Audit.is_directive_sep (Js.lower_ascii c) = Audit.is_directive_sep c.
Proof. destruct c as [[] [] [] [] [] [] [] []]; reflexivity. Qed.

Lemma is_ws_lower (c : ascii) : Js.is_ws (Js.lower_ascii c) = Js.is_ws c.
Proof. destruct c as [[] [] [] [] [] [] [] []]; reflexivity. Qed.

Lemma lower_ascii_idem (c : ascii) : Js.lower_ascii (Js.lower_ascii c) = Js.lower_ascii c.
Proof. destruct c as [[] [] [] [] [] [] [] []]; reflexivity. Qed.

Lemma toLowerCase_idem (s : string) : Js.toLowerCase (Js.toLowerCase s) = Js.toLowerCase s.
Proof. induction s as [|c s IH]; simpl; [done|]. by rewrite IH, lower_ascii_idem. Qed.

Lemma fmap_rev {A B} (f : A → B) (l : list A) : f <$> rev l = rev (f <$> l).
Proof. induction l as [|x l IH]; simpl; [done|]. by rewrite fmap_app, IH. Qed.

Lemma toLowerCase_rev (s : string) :
  Js.toLowerCase (String.rev s) = String.rev (Js.toLowerCase s).
Proof.
  apply chars_inj.
  by rewrite chars_toLowerCase, !chars_rev, chars_toLowerCase, fmap_rev.
Qed.

Lemma trimStart_lower (s : string) :
  Js.trimStart (Js.toLowerCase s) = Js.toLowerCase (Js.trimStart s).
Proof.
  induction s as [|c s IH]; simpl; [done|].
  rewrite is_ws_lower. by destruct (Js.is_ws c).
Qed.

Lemma trim_lower (s : string) : Js.trim (Js.toLowerCase s) = Js.toLowerCase (Js.trim s).
Proof.
  unfold Js.trim, Js.trimEnd.
  by rewrite trimStart_lower, <- toLowerCase_rev, trimStart_lower, toLowerCase_rev.
Qed.

Lemma truthy_lower (s : string) : Js.truthy (Js.toLowerCase s) = Js.truthy s.
Proof. by destruct s. Qed.

Lemma split_go_lower (sep : ascii → bool) (s : string) :
  (∀ c, sep (Js.lower_ascii c) = sep c) →
  ∀ acc insep,
    Js.split_go sep (Js.toLowerCase acc) insep (Js.toLowerCase s)
    = Js.toLowerCase <$> Js.split_go sep acc insep s.
Proof.
  intros Hsep. induction s as [|c s IH]; intros acc insep; simpl.
  - by rewrite toLowerCase_rev.
  - rewrite Hsep. destruct (sep c).
    + destruct insep; simpl; [apply (IH "")|].
      by rewrite toLowerCase_rev, (IH "").
    + apply (IH (String c acc)).
Qed.

Lemma directive_tokens_lower (raw : string) :
  directive_tokens (Js.toLowerCase raw) = directive_tokens raw.
Proof.
  unfold directive_tokens, Js.split_runs.
  change (Js.split_go Audit.is_directive_sep "" false (Js.toLowerCase raw))
    with (Js.split_go Audit.is_directive_sep (Js.toLowerCase "") false (Js.toLowerCase raw)).
  rewrite (split_go_lower _ raw is_directive_sep_lower "" false).
  f_equal. rewrite <- list_fmap_compose. apply list_fmap_ext. intros _ t _. simpl.
  by rewrite trim_lower, toLowerCase_idem.
Qed.

(** X9. [parseRobotsDirectives] does not look at letter case: a
    directive string and its lower-cased form give the same directives. *)
Theorem parseRobotsDirectives_ignores_case (raw : string) :
  Audit.parseRobotsDirectives (Some (Js.toLowerCase raw))
  = Audit.parseRobotsDirectives (Some raw).
Proof.
  unfold Audit.parseRobotsDirectives. rewrite truthy_lower.
  destruct (Js.truthy raw); [|done]. cbn [negb]. f_equal. f_equal.
  apply directive_tokens_lower.
Qed.

(** *** The noindex flags and the conflict issue *)

Lemma parse_field_truthy (raw : string) (d : Directive) :
  Audit.field_truthy (Audit.parseRobotsDirectives (Some raw)) (directive_field d)
  = bool_decide (keyword d ∈ directive_tokens raw).
Proof.
  unfold Audit.parseRobotsDirectives, Audit.field_truthy.
  destruct raw as [|c raw]; [by destruct d|]. cbn [Js.truthy negb].
  rewrite foldl_set_directive. unfold directive_tokens.
  case_bool_decide; by destruct d.
Qed.

Lemma merged_field_truthy {A} (g : A → string) (d : Directive) (l : list A) : ∀ acc,
  Audit.field_truthy
    (foldl (fun acc x => Audit.mergeRobots acc (Audit.parseRobotsDirectives (Some (g x))))
           acc l) (directive_field d) = true
  ↔ Audit.field_truthy acc (directive_field d) = true
    ∨ ∃ x, x ∈ l ∧ keyword d ∈ directive_tokens (g x).
Proof.
  induction l as [|x l IH]; intros acc; cbn [foldl].
  - split; [by left|]. intros [?|(x & Hx & _)]; [done|]. by apply elem_of_nil in Hx.
  - rewrite IH, field_truthy_merge, parse_field_truthy, orb_true_iff, bool_decide_eq_true.
    split.
    + intros [[?|?]|(y & Hy & ?)]; [by left|right; exists x|right; exists y];
        (split; [|done]); [by left|by right].
    + intros [?|(y & [->|Hy]%elem_of_cons & ?)];
        [left; by left|left; by right|right; by exists y].
Qed.

Lemma getAllXRobots_go (hs : list (string * string)) : ∀ acc,
  foldl (fun (vals : list string) kv =>
           if String.eqb (Js.toLowerCase kv.1) "x-robots-tag"
           then (vals ++ [kv.2])%list else vals) acc hs
  = acc ++ (filter (fun kv => Js.toLowerCase kv.1 = "x-robots-tag") hs).*2.
Proof.
  induction hs as [|kv hs IH]; intros acc; cbn [foldl].
  - by rewrite app_nil_r.
  - rewrite IH, filter_cons.
    destruct (String.eqb_spec (Js.toLowerCase kv.1) "x-robots-tag") as [Heq|Hne].
    + rewrite decide_True by done. by rewrite <- app_assoc.
    + by rewrite decide_False by done.
Qed.

Lemma getAllXRobots_filter (hs : list (string * string)) :
  Audit.getAllXRobots hs
  = (filter (fun kv => Js.toLowerCase kv.1 = "x-robots-tag") hs).*2.
Proof. apply (getAllXRobots_go hs []). Qed.

Section Flags.
Context `{UrlLib} `{Network} `{HtmlLib}.

Lemma extractHtmlSignals_fields (html baseUrl : string) (sig : Audit.HtmlSignals) :
  Audit.extractHtmlSignals html baseUrl = Some sig →
  Audit.hs_metaRobots sig
  = foldl (fun acc el => Audit.mergeRobots acc
                           (Audit.parseRobotsDirectives (Some (default "" el))))
          None (doc_metaRobots (cheerio_load html))
  ∧ (Audit.hs_issues sig = [] ∨ Audit.hs_issues sig = ["multiple canonicals"]).
Proof.
  unfold Audit.extractHtmlSignals. intros Hsig.
  apply bind_Some in Hsig as (canonical & _ & Hsig).
  apply bind_Some in Hsig as (hreflang & _ & Hsig).
  injection Hsig as <-. simpl. split; [done|]. case_match; tauto.
Qed.

(** What [analyse] extracts from the body: nothing unless the response is
    parsed as HTML. *)
Lemma analyse_extracted (rawUrl : string) (ri : ResInfo) (r : AuditResult) :
  Audit.analyse rawUrl ri = Some r →
  ∃ sig,
    ((∃ html, html_response (ri_res ri) html
              ∧ Audit.extractHtmlSignals html (ri_finalUrl ri) = Some sig)
     ∨ ((¬ ∃ html, html_response (ri_res ri) html) ∧ sig = Audit.mkSignals None [] None []))
    ∧ a_noindex r
      = mkNoindex
          (Audit.field_truthy (Audit.hs_metaRobots sig) noindex)
          (Audit.field_truthy
             (foldl (fun acc v => Audit.mergeRobots acc (Audit.parseRobotsDirectives (Some v)))
                    None (Audit.getAllXRobots (res_headers (ri_res ri)))) noindex)
    ∧ (CONFLICT ∈ a_issues r
       ↔ CONFLICT ∈ Audit.hs_issues sig ∨ meta (a_noindex r) ≠ header (a_noindex r))
    ∧ (∀ i, i ∈ a_issues r →
            i ∈ Audit.hs_issues sig ∨ i = CONFLICT
            ∨ i = "canonical points to different eTLD+1" ∨ i = "invalid canonical URL").
Proof.
  unfold Audit.analyse. intros Han.
  apply bind_Some in Han as (sig & Hsig & Han). exists sig.
  injection Han as <-. cbn [a_noindex a_issues meta header].
  split; [|split; [done|split]].
  - assert (∀ P Q : Prop, ¬ Q → Some (Audit.mkSignals None [] None []) = Some sig →
                          P ∨ (¬ Q ∧ sig = Audit.mkSignals None [] None [])) as Hno
      by (intros P Q HQ [= <-]; by right).
    destruct (res_status (ri_res ri) =? 204) eqn:Hst; cbn [negb andb] in Hsig.
    { apply Hno; [|done]. intros (html & Hne & _). by apply Nat.eqb_eq in Hst. }
    destruct (headers_get (res_headers (ri_res ri)) "content-type") as [ct|] eqn:Hct;
      cbn [negb andb] in Hsig.
    2: { apply Hno; [|done]. intros (html & _ & (ct & ? & _) & _). congruence. }
    destruct (Js.includes ct "text/html") eqn:Hinc.
    2: { apply Hno; [|done]. intros (html & _ & (ct' & ? & ?) & _). congruence. }
    destruct (res_text (ri_res ri)) as [html|] eqn:Htext; cbn [default Js.truthy] in Hsig.
    2: { apply Hno; [|done]. intros (html & _ & _ & ? & _). congruence. }
    destruct html as [|c html]; cbn [Js.truthy] in Hsig.
    { apply Hno; [|done]. intros (html & _ & _ & ? & ?). congruence. }
    left. exists (String c html). split; [|done].
    split; [by apply Nat.eqb_neq|]. split; [by exists ct|done].
  - clear Hsig.
    match goal with |- _ ↔ _ ∨ ?m ≠ ?h => generalize h; generalize m end.
    intros m h.
    assert (negb (Bool.eqb m h) && (m || h) = true ↔ m ≠ h) as Hxor
      by (destruct m, h; cbn; split; congruence).
    destruct (negb (Bool.eqb m h) && (m || h)); repeat case_match;
      rewrite ?elem_of_app, ?list_elem_of_singleton; unfold CONFLICT;
      intuition (try discriminate; auto).
  - clear Hsig. intros i.
    repeat case_match; rewrite ?elem_of_app, ?list_elem_of_singleton; tauto.
Qed.

(** X10. The two noindex flags of a result read the tokens only:
    [noindex.header] is true exactly when some [X-Robots-Tag] header
    (name in any letter case) has the token [noindex] in its value;
    [noindex.meta] is true exactly when the response was parsed as HTML
    (status other than 204, a content type containing [text/html], a
    non-empty body) and some robots meta element has the token in its
    content. *)
Theorem noindex_flags_read_the_tokens (rawUrl : string) (ri : ResInfo) (r : AuditResult) :
  Audit.analyse rawUrl ri = Some r →
  (header (a_noindex r) = true
   ↔ ∃ kv, kv ∈ res_headers (ri_res ri)
           ∧ Js.toLowerCase kv.1 = "x-robots-tag"
           ∧ "noindex" ∈ directive_tokens kv.2)
  ∧ (meta (a_noindex r) = true
     ↔ ∃ html el, html_response (ri_res ri) html
                  ∧ el ∈ doc_metaRobots (cheerio_load html)
                  ∧ "noindex" ∈ directive_tokens (default "" el)).
Proof.
  intros Han. destruct (analyse_extracted _ _ _ Han) as (sig & Hsig & -> & _ & _).
  cbn [meta header]. split.
  - rewrite (merged_field_truthy id Noindex). cbn [Audit.field_truthy keyword id].
    rewrite getAllXRobots_filter. split.
    + intros [?|(v & Hv & Htok)]; [done|].
      apply list_elem_of_fmap in Hv as (kv & -> & Hkv).
      apply list_elem_of_filter in Hkv as [Hname Hkv]. by exists kv.
    + intros (kv & Hkv & Hname & Htok). right. exists kv.2. split; [|done].
      apply list_elem_of_fmap. exists kv. split; [done|].
      by apply list_elem_of_filter.
  - destruct Hsig as [(html & Hresp & Hex)|[Hno ->]].
    + apply extractHtmlSignals_fields in Hex as [-> _].
      rewrite (merged_field_truthy (default "") Noindex).
      cbn [Audit.field_truthy keyword]. split.
      * intros [?|(el & Hel & Htok)]; [done|]. by exists html, el.
      * intros (html' & el & Hresp' & Hel & Htok). right. exists el.
        destruct Hresp as (_ & _ & Ht & _), Hresp' as (_ & _ & Ht' & _).
        rewrite Ht in Ht'. injection Ht' as <-. done.
    + cbn. split; [done|]. intros (html & el & Hresp & _). destruct Hno. by exists html.
Qed.

(** X11. The issue "conflicting noindex between meta and header" is
    reported exactly when the two noindex flags of the result differ. *)
Theorem conflict_issue_iff_flags_differ (rawUrl : string) (ri : ResInfo) (r : AuditResult) :
  Audit.analyse rawUrl ri = Some r →
  CONFLICT ∈ a_issues r ↔ meta (a_noindex r) ≠ header (a_noindex r).
Proof.
  intros Han. destruct (analyse_extracted _ _ _ Han) as (sig & Hsig & _ & -> & _).
  assert (CONFLICT ∉ Audit.hs_issues sig) as Hnot.
  { destruct Hsig as [(html & _ & Hex)|[_ ->]]; [|apply not_elem_of_nil].
    apply extractHtmlSignals_fields in Hex as [_ [-> | ->]]; [apply not_elem_of_nil|].
    by intros ?%list_elem_of_singleton. }
  tauto.
Qed.

End Flags.

Lemma noindex_flags_read_the_tokens_witness :
  ∃ r, @Audit.analyse Ref.urlLib Examples.noindex_docs "https://ex.com/p"
         Examples2.tagged_response = Some r
       ∧ (header (a_noindex r) = true
          ↔ ∃ kv, kv ∈ res_headers (ri_res Examples2.tagged_response)
                  ∧ Js.toLowerCase kv.1 = "x-robots-tag"
                  ∧ "noindex" ∈ directive_tokens kv.2)
       ∧ (meta (a_noindex r) = true
          ↔ ∃ html el, html_response (ri_res Examples2.tagged_response) html
                       ∧ el ∈ doc_metaRobots (@cheerio_load Examples.noindex_docs html)
                       ∧ "noindex" ∈ directive_tokens (default "" el)).
Proof.
  destruct (@Audit.analyse Ref.urlLib Examples.noindex_docs "https://ex.com/p"
              Examples2.tagged_response) as [r|] eqn:Hr; [|by vm_compute in Hr].
  exists r. split; [reflexivity|].
  exact (@noindex_flags_read_the_tokens Ref.urlLib Examples.noindex_docs _ _ _ Hr).
Defined.

Lemma conflict_issue_iff_flags_differ_witness :
  ∃ r, @Audit.analyse Ref.urlLib Examples.noindex_docs "https://ex.com/p"
         Examples2.tagged_response = Some r
       ∧ (CONFLICT ∈ a_issues r ↔ meta (a_noindex r) ≠ header (a_noindex r)).
Proof.
  destruct (@Audit.analyse Ref.urlLib Examples.noindex_docs "https://ex.com/p"
              Examples2.tagged_response) as [r|] eqn:Hr; [|by vm_compute in Hr].
  exists r. split; [reflexivity|].
  exact (@conflict_issue_iff_flags_differ Ref.urlLib Examples.noindex_docs _ _ _ Hr).
Defined.

(** *** The issues *)

Section Issues.
Context `{UrlLib} `{Network} `{HtmlLib}.

Lemma analyse_issues (rawUrl : string) (ri : ResInfo) (r : AuditResult) :
  Audit.analyse rawUrl ri = Some r →
  ∀ i, i ∈ a_issues r →
       i = "multiple canonicals" ∨ i = CONFLICT
       ∨ i = "canonical points to different eTLD+1" ∨ i = "invalid canonical URL".
Proof.
  intros Han i Hi.
  destruct (analyse_extracted _ _ _ Han) as (sig & Hsig & _ & _ & Hissues).
  destruct (Hissues i Hi) as [Hbase|?]; [left|tauto].
  destruct Hsig as [(html & _ & Hex)|[_ ->]]; [|by apply elem_of_nil in Hbase].
  apply extractHtmlSignals_fields in Hex as [_ [Hs | Hs]]; rewrite Hs in Hbase;
    [by apply elem_of_nil in Hbase|by apply list_elem_of_singleton in Hbase].
Qed.

(** X12. Every issue of an audit result is one of five fixed
    strings, and "fetch failed" is among them exactly when the fetch of the
    URL was rejected. *)
Theorem issues_are_known_and_fetch_failed_iff_rejected
        (ua rawUrl : string) (w : World) (r : AuditResult) :
  Audit.auditTask ua rawUrl w = Some r →
  (∀ i, i ∈ a_issues r → i ∈ ISSUES)
  ∧ ("fetch failed" ∈ a_issues r ↔ (Audit.fetchWithRedirects rawUrl ua w).2 = None).
Proof.
  unfold Audit.auditTask.
  destruct (Audit.fetchWithRedirects rawUrl ua w) as [w' [ri|]]; cbn [snd].
  - intros Han. pose proof (analyse_issues _ _ _ Han) as Hissues. split.
    + intros i Hi. unfold ISSUES. destruct (Hissues i Hi) as [-> | [-> | [-> | ->]]];
        rewrite !elem_of_cons; tauto.
    + split; [|done]. intros Hi.
      destruct (Hissues _ Hi) as [?|[?|[?|?]]]; discriminate.
  - intros [= <-]. cbn. split; [|split; [done|intros _; by left]].
    intros i ->%list_elem_of_singleton. by left.
Qed.

End Issues.

Lemma issues_are_known_and_fetch_failed_iff_rejected_witness :
  ∃ r, @Audit.auditTask Ref.urlLib Examples.dead_server Examples.no_docs
         "mcp-crawler" "https://ex.com/p" tt = Some r
       ∧ (∀ i, i ∈ a_issues r → i ∈ ISSUES)
       ∧ ("fetch failed" ∈ a_issues r
          ↔ (@Audit.fetchWithRedirects Ref.urlLib Examples.dead_server
               "https://ex.com/p" "mcp-crawler" tt).2 = None).
Proof.
  destruct (@Audit.auditTask Ref.urlLib Examples.dead_server Examples.no_docs
              "mcp-crawler" "https://ex.com/p" tt) as [r|] eqn:Hr; [|by vm_compute in Hr].
  exists r. split; [reflexivity|].
  exact (@issues_are_known_and_fetch_failed_iff_rejected
           Ref.urlLib Examples.dead_server Examples.no_docs _ _ _ _ Hr).
Defined.

(* ===================================================================== *)
(** ** Further properties of the two fetchers *)
(* ===================================================================== *)

Lemma connects_snoc (start : string) (hops : list RedirectHop) (cur next : string) (st : nat) :
  connects start hops cur → connects start (hops ++ [mkHop cur next st]) next.
Proof.
  revert start. induction hops as [|hop hops IH]; intros start; simpl.
  - by intros ->.
  - intros [-> Hrest]. split; [done|]. by apply IH.
Qed.

Section Paths.
Context `{UrlLib} `{Network}.

Lemma chain_loop_path (timeoutMs : nat) (ua start : string) (safety : nat) :
  ∀ cur res hops w w' ri,
    connects start hops cur →
    Forall (fun hop => hop_status hop ∈ REDIRECTS) hops →
    length hops + safety ≤ 10 →
    Crawler.chain_loop timeoutMs ua safety cur res hops w = (w', Some ri) →
    redirect_path start ri.
Proof.
  induction safety as [|s IH]; intros cur res hops w w' ri Hpath Hst Hlen;
    cbn [Crawler.chain_loop].
  - destruct (nat_includes _ _); intros [= <- <-]; (split; [done|split; [done|simpl; lia]]).
  - destruct (nat_includes _ _) eqn:Hred;
      [|intros [= <- <-]; (split; [done|split; [done|simpl; lia]])].
    destruct (headers_get (res_headers res) "location") as [loc|];
      [|intros [= <- <-]; (split; [done|split; [done|simpl; lia]])].
    destruct (Js.truthy loc); cbn [negb];
      [|intros [= <- <-]; (split; [done|split; [done|simpl; lia]])].
    destruct (url_resolve loc cur) as [nx|]; [|done].
    unfold abind.
    destruct (Crawler.fetchOnce (url_href nx) ua timeoutMs w) as [w1 [res'|]]; [|done].
    apply IH.
    + by apply connects_snoc.
    + apply Forall_app. split; [done|]. constructor; [|done].
      by apply nat_includes_elem in Hred.
    + rewrite length_app. simpl. lia.
Qed.

Lemma chain_path (timeoutMs : nat) (url ua : string) (w w' : World) (ri : ResInfo) :
  Crawler.chain timeoutMs url ua w = (w', Some ri) → redirect_path url ri.
Proof.
  unfold Crawler.chain, abind.
  destruct (Crawler.fetchOnce url ua timeoutMs w) as [w1 [res|]]; [|done].
  by apply chain_loop_path.
Qed.

(** X13. What the crawler's [fetchWithRedirects] returns for [url],
    with or without the browser fallback, has a redirect chain that is a
    path: the first hop leaves from [url], each later hop leaves from where
    the one before arrived, the last arrives at [finalUrl] (which is [url]
    when there is no hop), every hop was taken on a redirect status, and
    there are at most ten hops. *)
Theorem crawler_redirectChain_is_a_path (url ua : string) (timeoutMs : nat)
        (w w' : World) (ri : ResInfo) :
  Crawler.fetchWithRedirects url ua timeoutMs w = (w', Some ri) →
  redirect_path url ri.
Proof.
  unfold Crawler.fetchWithRedirects, acatch, abind, aret, athrow.
  destruct (Crawler.chain timeoutMs url ua w) as [w1 [r1|]] eqn:H1.
  - destruct (nat_includes _ _ && _).
    + destruct (Crawler.chain timeoutMs url Crawler.BROWSER_UA w1) as [w2 [r2|]] eqn:H2.
      * intros [= <- <-]. by eapply chain_path.
      * intros [= <- <-]. by eapply chain_path.
    + intros [= <- <-]. by eapply chain_path.
  - destruct (negb _); [|done]. apply chain_path.
Qed.

Lemma fetch_loop_path (ua start : string) (safety : nat) :
  ∀ cur res hops w w' ri,
    connects start hops cur →
    Forall (fun hop => hop_status hop ∈ REDIRECTS) hops →
    length hops + safety ≤ 10 →
    Audit.fetch_loop ua safety cur res hops w = (w', Some ri) →
    redirect_path start ri.
Proof.
  induction safety as [|s IH]; intros cur res hops w w' ri Hpath Hst Hlen;
    cbn [Audit.fetch_loop].
  - destruct (nat_includes _ _); intros [= <- <-]; (split; [done|split; [done|simpl; lia]]).
  - destruct (nat_includes _ _) eqn:Hred;
      [|intros [= <- <-]; (split; [done|split; [done|simpl; lia]])].
    destruct (headers_get (res_headers res) "location") as [loc|];
      [|intros [= <- <-]; (split; [done|split; [done|simpl; lia]])].
    destruct (Js.truthy loc); cbn [negb];
      [|intros [= <- <-]; (split; [done|split; [done|simpl; lia]])].
    destruct (url_resolve loc cur) as [nx|]; [|done].
    unfold abind.
    destruct (fetch (Audit.init ua (url_href nx)) w) as [w1 [res'|]]; [|done].
    apply IH.
    + by apply connects_snoc.
    + apply Forall_app. split; [done|]. constructor; [|done].
      by apply nat_includes_elem in Hred.
    + rewrite length_app. simpl. lia.
Qed.

(** X14. The auditor's [fetchWithRedirects] reports a redirect chain
    that is a path of at most ten redirect hops from the requested URL to
    [finalUrl]. *)
Theorem auditor_redirectChain_is_a_path (url ua : string)
        (w w' : World) (ri : ResInfo) :
  Audit.fetchWithRedirects url ua w = (w', Some ri) →
  redirect_path url ri.
Proof.
  unfold Audit.fetchWithRedirects, abind.
  destruct (fetch (Audit.init ua url) w) as [w1 [res|]]; [|done].
  by apply fetch_loop_path.
Qed.

End Paths.

Lemma crawler_redirectChain_is_a_path_witness :
  ∃ ri, @Crawler.fetchWithRedirects Ref.urlLib Examples.hopping_server
          "https://ex.com/a" "mcp-crawler" 3000 tt = (tt, Some ri)
        ∧ redirect_path "https://ex.com/a" ri.
Proof.
  eexists. split; [vm_compute; reflexivity|].
  apply (@crawler_redirectChain_is_a_path Ref.urlLib Examples.hopping_server
           "https://ex.com/a" "mcp-crawler" 3000 tt tt).
  vm_compute. reflexivity.
Defined.

Lemma auditor_redirectChain_is_a_path_witness :
  ∃ ri, @Audit.fetchWithRedirects Ref.urlLib Examples.looping_server
          "https://ex.com/r0" "mcp-crawler" tt = (tt, Some ri)
        ∧ redirect_path "https://ex.com/r0" ri.
Proof.
  eexists. split; [vm_compute; reflexivity|].
  apply (@auditor_redirectChain_is_a_path Ref.urlLib Examples.looping_server
           "https://ex.com/r0" "mcp-crawler" tt tt).
  vm_compute. reflexivity.
Defined.

(* ===================================================================== *)
(** ** Further properties of the crawl engine *)
(* ===================================================================== *)

(** *** Counting entries of a map *)

Lemma count_insert {A} (Q : A → Prop) `{!∀ x, Decision (Q x)}
      (m : gmap string A) (k : string) (v : A) :
  length (filter Q (map_to_list (<[k := v]> m)).*2)
  ≤ length (filter Q (map_to_list m).*2) + 1.
Proof.
  assert (∀ (m0 : gmap string A) x, m0 !! k = None →
            length (filter Q (map_to_list (<[k := x]> m0)).*2)
            = length (filter Q [x]) + length (filter Q (map_to_list m0).*2)) as Hfresh.
  { intros m0 x Hk. rewrite (map_to_list_insert m0 k x Hk), fmap_cons. cbn [snd].
    rewrite !filter_cons, filter_nil. destruct (decide (Q x)); simpl; lia. }
  assert (length (filter Q [v]) ≤ 1) as Hone
    by (rewrite filter_cons, filter_nil; destruct (decide (Q v)); simpl; lia).
  destruct (m !! k) as [prev|] eqn:Hk.
  - rewrite <- (insert_delete_eq m k v).
    rewrite <- (insert_delete_id m k prev Hk) at 2.
    rewrite !Hfresh by apply lookup_delete_eq. lia.
  - rewrite Hfresh by done. lia.
Qed.

Lemma filter_none {A} (P : A → Prop) `{!∀ x, Decision (P x)} (l : list A) :
  (∀ x, x ∈ l → ¬ P x) → filter P l = [].
Proof.
  induction l as [|x l IH]; intros Hl; [done|].
  rewrite filter_cons_False by (apply Hl; by left).
  apply IH. intros y Hy. apply Hl. by right.
Qed.

Section ProvenanceFacts.
Context `{UrlLib} `{HtmlLib}.
Variable cfg : Crawler.Setup.

Lemma merge_visit_provenance (prev item : InventoryItem) :
  discoveredBy (Crawler.merge_visit prev item) = both
  ∨ discoveredBy (Crawler.merge_visit prev item) = discoveredBy item.
Proof. unfold Crawler.merge_visit. simpl. destruct (_ || _); auto. Qed.

Lemma visit_fetched_entry i node key ri s s' :
  Crawler.visit_fetched cfg i node key ri s = Some s' → writes_entry cfg s s'.
Proof.
  destruct s as [q sn m e fc r ph]. unfold Crawler.visit_fetched, writes_entry. simpl.
  match goal with
  | |- context [mbind _ ?c] => destruct c as [inSm|] eqn:HinSm; [|done]
  end. simpl.
  set (item := mkItem _ _ _ _ _ _ _ _).
  assert (discoveredBy item = both
          ∨ discoveredBy item = html ∧ key ∉ Crawler.fromSitemaps cfg) as Hitem.
  { unfold item. simpl. destruct inSm; [by left|right]. split; [done|].
    unfold Crawler.inSitemaps in HinSm. by case_bool_decide. }
  intros Hs'.
  exists key, (match m !! key with
               | Some prev => Crawler.merge_visit prev item
               | None => item
               end).
  split_and!.
  - destruct (m !! key); repeat case_match; by simplify_eq.
  - destruct (m !! key); repeat case_match; by simplify_eq.
  - destruct (m !! key) as [prev|]; [|done].
    destruct (merge_visit_provenance prev item) as [-> | ->]; [by left|done].
Qed.

Lemma step_writes ev s s' :
  Crawler.step cfg ev s = Some s' →
  (Crawler.inventoryMap s' = Crawler.inventoryMap s
   ∧ Crawler.fetchedCount s' = Crawler.fetchedCount s)
  ∨ writes_entry cfg s s'.
Proof.
  unfold Crawler.step.
  destruct (Crawler.phase s) as [|pending] eqn:Hph; destruct ev as [|i r|i| |i r]; try done.
  - destruct (_ && _); [|done]. intros Hs'.
    destruct (start_all_frame _ _ _ _ Hs') as (Hm & _ & Hc & _). left. by destruct s.
  - destruct (Crawler.running s !! i) as [[node key|]|]; try done.
    destruct r as [ri|]; [right; by eapply visit_fetched_entry|].
    intros [= <-]. left. by destruct s.
  - destruct (Crawler.running s !! i) as [[|node ri]|]; try done.
    intros Hs'. destruct (visit_body_frame _ _ _ _ _ _ Hs') as (Hm & _ & _ & _ & Hc).
    by left.
  - destruct (_ && _); [|done]. intros [= <-]. left. by destruct s.
  - destruct (pending !! i) as [k|]; [|done].
    destruct r as [ri|]; intros [= <-]; [|left; by destruct s].
    unfold Crawler.post_update. destruct s as [q sn m e fc rn ph]. simpl.
    destruct (m !! k) as [prev|]; simpl; [|by left].
    right. eexists k, _. simpl. split_and!; [done|done|by left].
Qed.

Lemma preregister_init (l : list string) : ∀ m,
  (∀ k it, m !! k = Some it → it = placeholder k) →
  (∀ k it, foldl Crawler.preregister m l !! k = Some it → it = placeholder k)
  ∧ (∀ k, is_Some (foldl Crawler.preregister m l !! k) ↔ k ∈ l ∨ is_Some (m !! k)).
Proof.
  induction l as [|k0 l IH]; intros m Hm; cbn [foldl].
  - split; [done|]. intros k. rewrite elem_of_nil. tauto.
  - assert (∀ k it, Crawler.preregister m k0 !! k = Some it → it = placeholder k) as Hm'.
    { intros k it. unfold Crawler.preregister.
      destruct (m !! k0) as [prev|] eqn:Hk0.
      - rewrite (Hm _ _ Hk0). simpl.
        destruct (decide (k0 = k)) as [<-|Hne].
        + rewrite lookup_insert_eq. by intros [= <-].
        + rewrite lookup_insert_ne by done. apply Hm.
      - destruct (decide (k0 = k)) as [<-|Hne].
        + rewrite lookup_insert_eq. by intros [= <-].
        + rewrite lookup_insert_ne by done. apply Hm. }
    destruct (IH _ Hm') as [Hall Hdom]. split; [done|].
    intros k. rewrite Hdom, elem_of_cons.
    assert (is_Some (Crawler.preregister m k0 !! k) ↔ k = k0 ∨ is_Some (m !! k)) as ->.
    { unfold Crawler.preregister. destruct (m !! k0) as [prev|] eqn:Hk0;
        (destruct (decide (k0 = k)) as [<-|Hne];
         [rewrite lookup_insert_eq|rewrite lookup_insert_ne by done]);
        split; eauto; try tauto; intros [?|?]; eauto; congruence. }
    tauto.
Qed.

Lemma provenance_init : provenance_inv cfg (Crawler.crawl_init cfg).
Proof.
  destruct (preregister_init (Crawler.fromSitemaps cfg) ∅) as [Hall Hdom].
  { intros k it. by rewrite lookup_empty. }
  unfold provenance_inv. cbn [Crawler.crawl_init Crawler.inventoryMap Crawler.fetchedCount].
  split_and!.
  - intros k Hk. apply Hdom. by left.
  - intros k it Hk _. split; [|by apply Hall].
    destruct (proj1 (Hdom k)) as [?|[? Hempty]]; [by exists it|done|].
    by rewrite lookup_empty in Hempty.
  - intros k it Hk Hhtml. by rewrite (Hall _ _ Hk) in Hhtml.
  - unfold Crawler.inventory. cbn [Crawler.inventoryMap].
    rewrite filter_none; [simpl; lia|].
    intros it ([k it'] & -> & Hin%elem_of_map_to_list)%list_elem_of_fmap.
    rewrite (Hall _ _ Hin). by intros [?|?].
Qed.

Lemma step_provenance ev s s' :
  provenance_inv cfg s → Crawler.step cfg ev s = Some s' → provenance_inv cfg s'.
Proof.
  intros (Hdom & Hsm & Hhtml & Hcount) Hstep.
  destruct (step_writes _ _ _ Hstep) as [[Hm Hc]|(key & it & Hm & Hc & Hit)];
    unfold provenance_inv, Crawler.inventory; rewrite Hm, Hc; [done|].
  split_and!.
  - intros k Hk. destruct (decide (key = k)) as [<-|Hne].
    + rewrite lookup_insert_eq. by eexists.
    + rewrite lookup_insert_ne by done. by apply Hdom.
  - intros k it'. destruct (decide (key = k)) as [<-|Hne].
    + rewrite lookup_insert_eq. intros [= <-] Hs.
      destruct Hit as [?|[? _]]; congruence.
    + rewrite lookup_insert_ne by done. apply Hsm.
  - intros k it'. destruct (decide (key = k)) as [<-|Hne].
    + rewrite lookup_insert_eq. intros [= <-] Hh.
      destruct Hit as [?|[_ ?]]; [congruence|done].
    + rewrite lookup_insert_ne by done. apply Hhtml.
  - pose proof (count_insert from_html (Crawler.inventoryMap s) key it) as Hle.
    unfold Crawler.inventory in Hcount. lia.
Qed.

Lemma run_provenance evs : ∀ s s',
  provenance_inv cfg s → Crawler.run cfg evs s = Some s' → provenance_inv cfg s'.
Proof.
  induction evs as [|ev evs IH]; intros s s' Hinv; simpl.
  - by intros [= <-].
  - destruct (Crawler.step cfg ev s) as [s1|] eqn:Hs1; [|done]. simpl.
    apply IH. by eapply step_provenance.
Qed.

Lemma reachable_provenance s : reachable cfg s → provenance_inv cfg s.
Proof. intros [evs Hevs]. eapply run_provenance; [apply provenance_init|exact Hevs]. Qed.

(** X15. At every moment of a crawl run the provenance recorded in
    the inventory is sound: every sitemap URL has an entry, marked
    [sitemap] or [both]; an entry marked [sitemap] sits under a sitemap
    key and has never been fetched (status 0, depth 9999, no content
    type, no redirect, its URLs equal to the key); an entry marked
    [html] is not under a sitemap key. *)
Theorem provenance_is_sound (s : Crawler.State) :
  reachable cfg s →
  (∀ k, k ∈ Crawler.fromSitemaps cfg →
        ∃ it, Crawler.inventoryMap s !! k = Some it ∧ discoveredBy it ≠ html)
  ∧ (∀ k it, Crawler.inventoryMap s !! k = Some it → discoveredBy it = sitemap →
             k ∈ Crawler.fromSitemaps cfg ∧ it = placeholder k)
  ∧ (∀ k it, Crawler.inventoryMap s !! k = Some it → discoveredBy it = html →
             k ∉ Crawler.fromSitemaps cfg).
Proof.
  intros (Hdom & Hsm & Hhtml & _)%reachable_provenance. split_and!; [|done|done].
  intros k Hk. destruct (Hdom k Hk) as [it Hit]. exists it. split; [done|].
  intros Hh. by apply (Hhtml k it Hit Hh).
Qed.

(** X16. In the output built from any state of a run,
    [stats.pagesFromHtml] (the items marked [html] or [both]) is at most
    [stats.pagesFetched]. *)
Theorem pagesFromHtml_at_most_pagesFetched (s : Crawler.State)
        (smCandidates : list string) (elapsed : nat) :
  reachable cfg s →
  CrawlSite.pagesFromHtml (CrawlSite.out_stats (CrawlSite.output cfg smCandidates elapsed s))
  ≤ CrawlSite.pagesFetched (CrawlSite.out_stats (CrawlSite.output cfg smCandidates elapsed s)).
Proof. by intros (_ & _ & _ & Hcount)%reachable_provenance. Qed.

End ProvenanceFacts.

Lemma provenance_is_sound_witness :
  ∃ s, @Crawler.run Ref.urlLib Examples.site_docs Examples.with_sitemap
         Examples.links_in_flight
         (@Crawler.crawl_init Ref.urlLib Examples.with_sitemap) = Some s
       ∧ (∀ k, k ∈ Crawler.fromSitemaps Examples.with_sitemap →
               ∃ it, Crawler.inventoryMap s !! k = Some it ∧ discoveredBy it ≠ html)
       ∧ (∀ k it, Crawler.inventoryMap s !! k = Some it → discoveredBy it = sitemap →
                  k ∈ Crawler.fromSitemaps Examples.with_sitemap ∧ it = placeholder k)
       ∧ (∀ k it, Crawler.inventoryMap s !! k = Some it → discoveredBy it = html →
                  k ∉ Crawler.fromSitemaps Examples.with_sitemap).
Proof.
  destruct (@Crawler.run Ref.urlLib Examples.site_docs Examples.with_sitemap
              Examples.links_in_flight
              (@Crawler.crawl_init Ref.urlLib Examples.with_sitemap))
    as [s|] eqn:Hs; [|by vm_compute in Hs].
  exists s. split; [reflexivity|].
  exact (@provenance_is_sound Ref.urlLib Examples.site_docs Examples.with_sitemap s
           (ex_intro _ Examples.links_in_flight Hs)).
Defined.

Lemma pagesFromHtml_at_most_pagesFetched_witness :
  ∃ s, @Crawler.run Ref.urlLib Examples.site_docs Examples.two_pages
         Examples.three_links_run
         (@Crawler.crawl_init Ref.urlLib Examples.two_pages) = Some s
       ∧ CrawlSite.pagesFromHtml
           (CrawlSite.out_stats (CrawlSite.output Examples.two_pages [] 0 s))
         ≤ CrawlSite.pagesFetched
             (CrawlSite.out_stats (CrawlSite.output Examples.two_pages [] 0 s)).
Proof.
  destruct (@Crawler.run Ref.urlLib Examples.site_docs Examples.two_pages
              Examples.three_links_run
              (@Crawler.crawl_init Ref.urlLib Examples.two_pages))
    as [s|] eqn:Hs; [|by vm_compute in Hs].
  exists s. split; [reflexivity|].
  exact (@pagesFromHtml_at_most_pagesFetched Ref.urlLib Examples.site_docs
           Examples.two_pages s [] 0 (ex_intro _ Examples.three_links_run Hs)).
Defined.

(** *** No key is fetched twice during the traversal *)

(** X29. While the traversal runs, the visits waiting for their
    fetch hold pairwise distinct keys, each of them marked as seen and
    none of them fetched before (its inventory entry, if any, is still
    the sitemap placeholder): with the test on [seen] at the start of a
    visit, no key is fetched twice by the traversal. *)
Theorem no_key_in_flight_twice `{UrlLib} `{HtmlLib} (cfg : Crawler.Setup)
        (s : Crawler.State) :
  reachable cfg s → Crawler.phase s = Crawler.Bfs →
  NoDup (fetching_keys (Crawler.running s))
  ∧ ∀ k, k ∈ fetching_keys (Crawler.running s) →
         k ∈ Crawler.seen s
         ∧ ∀ it, Crawler.inventoryMap s !! k = Some it → discoveredBy it = sitemap.
Proof.
  intros [_ Hbfs]%reachable_inv Hph. destruct (Hbfs Hph) as (Hent & Hseen & Hnd).
  split; [exact Hnd|]. intros k Hk. split; [by apply Hseen|].
  intros it Hit. destruct (decide (discoveredBy it = sitemap)) as [|Hd]; [done|].
  by destruct (Hent k it Hit Hd) as [_ Hnot].
Qed.

Lemma no_key_in_flight_twice_witness :
  ∃ s, @Crawler.run Ref.urlLib Examples.site_docs Examples.with_sitemap
         Examples.links_in_flight
         (@Crawler.crawl_init Ref.urlLib Examples.with_sitemap) = Some s
       ∧ NoDup (fetching_keys (Crawler.running s))
       ∧ ∀ k, k ∈ fetching_keys (Crawler.running s) →
              k ∈ Crawler.seen s
              ∧ ∀ it, Crawler.inventoryMap s !! k = Some it → discoveredBy it = sitemap.
Proof.
  destruct (@Crawler.run Ref.urlLib Examples.site_docs Examples.with_sitemap
              Examples.links_in_flight
              (@Crawler.crawl_init Ref.urlLib Examples.with_sitemap))
    as [s|] eqn:Hs; [|by vm_compute in Hs].
  exists s. split; [reflexivity|].
  apply (@no_key_in_flight_twice Ref.urlLib Examples.site_docs Examples.with_sitemap s
           (ex_intro _ Examples.links_in_flight Hs)).
  pose proof Hs as Hrun. vm_compute in Hrun. injection Hrun as <-. reflexivity.
Defined.

(** *** Fetched pages are seeds or link targets *)

Section LinkFacts.
Context `{UrlLib} `{HtmlLib}.
Variable cfg : Crawler.Setup.

Lemma linked_key_mono (s s' : Crawler.State) (k : string) :
  (∀ k, k ∈ Crawler.inbound s → k ∈ Crawler.inbound s') →
  linked_key cfg s k → linked_key cfg s' k.
Proof. intros Hsub [?|?]; [by left|right; by apply Hsub]. Qed.

Lemma link_inv_frame (s s' : Crawler.State) :
  Crawler.edges s' = Crawler.edges s →
  ∀ k, linked_key cfg s k ↔ linked_key cfg s' k.
Proof. intros He k. unfold linked_key, Crawler.inbound. by rewrite He. Qed.

Lemma visit_start_links s node s' :
  linked_node cfg s node →
  Crawler.visit_start cfg s node = Some s' →
  link_inv cfg s → link_inv cfg s'.
Proof.
  intros Hnode. destruct s as [q sn m e fc r ph].
  unfold Crawler.visit_start, link_inv. simpl.
  destruct (Crawler.maxPages cfg <=? fc); [by intros [= <-]|].
  destruct (UrlUtils.normalizeForKey (Crawler.node_url node)) as [key|] eqn:Hkey; [|done].
  simpl. destruct (bool_decide (key ∈ sn)); [by intros [= <-]|].
  unfold Crawler.with_seen, Crawler.with_running. simpl.
  repeat case_match; intros [= <-]; simpl; try done.
  intros (Hq & Hr & Hm & Hp). split_and!; [done| |done|done].
  apply Forall_app. split; [done|]. apply Forall_singleton. simpl.
  by apply (Hnode key).
Qed.

Lemma visit_start_edges s node s' :
  Crawler.visit_start cfg s node = Some s' → Crawler.edges s' = Crawler.edges s.
Proof.
  destruct s as [q sn m e fc r ph]. unfold Crawler.visit_start. simpl.
  destruct (Crawler.maxPages cfg <=? fc); [by intros [= <-]|].
  destruct (UrlUtils.normalizeForKey (Crawler.node_url node)) as [key|]; [|done].
  simpl. repeat case_match; by intros [= <-].
Qed.

Lemma start_all_links batch : ∀ s s',
  Forall (linked_node cfg s) batch →
  Crawler.start_all cfg s batch = Some s' →
  link_inv cfg s → link_inv cfg s'.
Proof.
  induction batch as [|node batch IH]; intros s s' Hbatch; simpl.
  - by intros [= <-].
  - inversion Hbatch as [|? ? Hnode Hrest]; subst.
    destruct (Crawler.visit_start cfg s node) as [s1|] eqn:Hs1; [|done]. simpl.
    intros Hs' Hinv. eapply IH; [|exact Hs'|by eapply visit_start_links].
    eapply Forall_impl; [exact Hrest|]. intros nd Hnd k Hk.
    apply (link_inv_frame s s1); [by eapply visit_start_edges|]. by apply Hnd.
Qed.

Lemma link_step_links node fu s toAbs :
  let s' := Crawler.link_step cfg node fu s toAbs in
  (∀ k, k ∈ Crawler.inbound s → k ∈ Crawler.inbound s')
  ∧ (Forall (linked_node cfg s) (Crawler.queue s) →
     Forall (linked_node cfg s') (Crawler.queue s')).
Proof.
  unfold Crawler.link_step. destruct s as [q sn m e fc r ph].
  cbn [Crawler.inbound Crawler.edges Crawler.queue].
  destruct (url_parse toAbs) as [toURL|]; [|done].
  destruct (negb _); [done|]. destruct (UrlUtils.hasIgnoredExtension _ _); [done|].
  destruct (UrlUtils.normalizeForKey toAbs) as [toKey|] eqn:HtoKey; [|done].
  destruct (UrlUtils.normalizeForKey fu) as [fromKey|]; [|done].
  assert (∀ k, k ∈ edge_to <$> e → k ∈ edge_to <$> e ++ [mkEdge fromKey toKey]) as Hsub.
  { intros k Hk. rewrite fmap_app. apply elem_of_app. by left. }
  assert (∀ q0, Forall (linked_node cfg (Crawler.mkState q sn m e fc r ph)) q0 →
                Forall (linked_node cfg
                          (Crawler.mkState q0 sn m (e ++ [mkEdge fromKey toKey]) fc r ph)) q0)
    as Hq.
  { intros q0 Hq0. eapply Forall_impl; [exact Hq0|]. intros nd Hnd k Hk.
    destruct (Hnd k Hk) as [?|Hin]; [by left|right]. by apply Hsub. }
  destruct (_ && _); cbn; (split; [exact Hsub|]); intros Hq0.
  - apply Forall_app. split.
    + eapply Forall_impl; [exact (Hq _ Hq0)|]. intros nd Hnd k Hk. apply (Hnd k Hk).
    + apply Forall_singleton. intros k Hk. cbn in Hk. rewrite HtoKey in Hk.
      injection Hk as <-. right. cbn. rewrite fmap_app. apply elem_of_app. right.
      by apply list_elem_of_singleton.
  - eapply Forall_impl; [exact (Hq _ Hq0)|]. intros nd Hnd k Hk. apply (Hnd k Hk).
Qed.

Lemma links_links node fu hrefs : ∀ s,
  let s' := foldl (Crawler.link_step cfg node fu) s hrefs in
  (∀ k, k ∈ Crawler.inbound s → k ∈ Crawler.inbound s')
  ∧ (Forall (linked_node cfg s) (Crawler.queue s) →
     Forall (linked_node cfg s') (Crawler.queue s')).
Proof.
  induction hrefs as [|h hrefs IH]; intros s; simpl; [done|].
  destruct (IH (Crawler.link_step cfg node fu s h)) as [Hsub Hq].
  destruct (link_step_links node fu s h) as [Hsub1 Hq1]. cbv zeta in *.
  split; [intros k Hk; by apply Hsub, Hsub1|]. intros Hq0. by apply Hq, Hq1.
Qed.

Lemma visit_fetched_edges i node key ri s s' :
  Crawler.visit_fetched cfg i node key ri s = Some s' →
  Crawler.edges s' = Crawler.edges s ∧ Crawler.queue s' = Crawler.queue s.
Proof.
  destruct s as [q sn m e fc r ph]. unfold Crawler.visit_fetched. simpl.
  match goal with
  | |- context [mbind _ ?c] => destruct c as [inSm|]; [|done]
  end. simpl.
  destruct (m !! key); repeat case_match; by intros [= <-].
Qed.

Lemma step_links ev s s' :
  link_inv cfg s → Crawler.step cfg ev s = Some s' → link_inv cfg s'.
Proof.
  intros (Hq & Hr & Hm & Hp). unfold Crawler.step.
  destruct (Crawler.phase s) as [|pending] eqn:Hph; destruct ev as [|i r|i| |i r]; try done.
  - destruct (_ && _); [|done]. intros Hs'.
    eapply start_all_links; [|exact Hs'|].
    + apply Forall_take. destruct s. exact Hq.
    + destruct s as [q sn m e fc rn ph]. unfold link_inv. simpl in *.
      split_and!; [apply Forall_drop; exact Hq|exact Hr|exact Hm|intros; congruence].
  - destruct (Crawler.running s !! i) as [[node key|]|] eqn:Hi; try done.
    pose proof (Forall_lookup_1 _ _ _ _ Hr Hi) as Hkey. simpl in Hkey.
    destruct r as [ri|].
    + intros Hs'.
      destruct (visit_fetched_inventory cfg _ _ _ _ _ _ Hs')
        as (item & _ & Em & _ & Eph & _ & Hrun).
      destruct (visit_fetched_edges _ _ _ _ _ _ Hs') as [Ee Eq].
      pose proof (link_inv_frame s s' Ee) as Hfr.
      unfold link_inv. rewrite Eq, Em, Eph, Hph. split_and!.
      * eapply Forall_impl; [exact Hq|]. intros nd Hnd k Hk. apply Hfr. by apply Hnd.
      * assert (Forall (linked_task cfg s') (Crawler.running s)) as Hr'.
        { eapply Forall_impl; [exact Hr|]. intros [nd k|nd r0]; simpl; [|done].
          apply Hfr. }
        destruct Hrun as [-> | ->]; [by apply Forall_delete|by apply Forall_insert].
      * intros k it. destruct (decide (key = k)) as [<-|Hne].
        -- rewrite lookup_insert_eq. intros _ _. by apply Hfr.
        -- rewrite lookup_insert_ne by done. intros Hk Hd. apply Hfr. by eapply Hm.
      * intros; congruence.
    + intros [= <-]. destruct s as [q sn m e fc rn ph]. unfold link_inv. simpl in *.
      split_and!; [exact Hq|apply Forall_delete; exact Hr|exact Hm|intros; congruence].
  - destruct (Crawler.running s !! i) as [[|node ri]|] eqn:Hi; try done.
    intros Hs'. destruct (visit_body_frame cfg _ _ _ _ _ Hs') as (Em & _ & Er & Eph & _).
    assert ((∀ k, k ∈ Crawler.inbound s → k ∈ Crawler.inbound s')
            ∧ Forall (linked_node cfg s') (Crawler.queue s')) as [Hsub Hq'].
    { revert Hs'. unfold Crawler.visit_body. destruct (Js.truthy _).
      - destruct (Crawler.collect_hrefs _ _ _) as [hrefs|]; [|done]. simpl.
        intros [= <-].
        destruct (links_links node (ri_finalUrl ri) hrefs
                    (Crawler.with_running (delete i (Crawler.running s)) s)) as [Hsub Hq'].
        cbv zeta in *. split; [intros k Hk; apply Hsub; by destruct s|].
        apply Hq'. destruct s. exact Hq.
      - intros [= <-]. split; [by destruct s|]. destruct s. exact Hq. }
    unfold link_inv. rewrite Em, Er, Eph, Hph. split_and!; [done| | |intros; congruence].
    + apply Forall_delete. eapply Forall_impl; [exact Hr|].
      intros [nd k|nd r0]; simpl; [|done]. by apply linked_key_mono.
    + intros k it Hk Hd. eapply linked_key_mono; [exact Hsub|]. by eapply Hm.
  - destruct (_ && _); [|done]. intros [= <-].
    destruct s as [q sn m e fc rn ph]. unfold link_inv. simpl in *.
    split_and!; [done|done|done|].
    intros pending [= <-] k (j & Hk%list_elem_of_lookup_2 & _)%elem_of_take.
    unfold Crawler.candidates in Hk.
    apply list_elem_of_filter in Hk as [Hk _].
    apply andb_true_iff in Hk as [Hk _]. by apply bool_decide_eq_true in Hk.
  - destruct (pending !! i) as [k|] eqn:Hi; [|done].
    assert (k ∈ Crawler.inbound s) as Hk
      by (eapply Hp; [done|by eapply list_elem_of_lookup_2]).
    assert (∀ k', k' ∈ delete i pending → k' ∈ Crawler.inbound s) as Hp'.
    { intros k' Hk'. eapply Hp; [done|]. by eapply list_elem_of_delete_inv. }
    destruct r as [ri|]; intros [= <-].
    + unfold Crawler.post_update, link_inv.
      destruct s as [q sn m e fc rn ph]. simpl in *.
      destruct (m !! k) as [prev|] eqn:Hprev; simpl.
      * split_and!; [done|done| |by intros ? [= <-]].
        intros k' it. destruct (decide (k = k')) as [<-|Hne].
        -- rewrite lookup_insert_eq. intros _ _. by right.
        -- rewrite lookup_insert_ne by done. apply Hm.
      * split_and!; [done|done|done|by intros ? [= <-]].
    + destruct s as [q sn m e fc rn ph]. unfold link_inv. simpl in *.
      split_and!; [done|done|done|by intros ? [= <-]].
Qed.

Lemma run_links evs : ∀ s s',
  link_inv cfg s → Crawler.run cfg evs s = Some s' → link_inv cfg s'.
Proof.
  induction evs as [|ev evs IH]; intros s s' Hinv; simpl.
  - by intros [= <-].
  - destruct (Crawler.step cfg ev s) as [s1|] eqn:Hs1; [|done]. simpl.
    apply IH. by eapply step_links.
Qed.

Lemma link_inv_init : link_inv cfg (Crawler.crawl_init cfg).
Proof.
  unfold link_inv. cbn [Crawler.crawl_init Crawler.queue Crawler.running
                        Crawler.inventoryMap Crawler.phase].
  split_and!; [|done| |done].
  - apply Forall_forall. intros node Hnode k Hk. left. by exists node.
  - intros k it Hk Hd. destruct Hd.
    eapply (preregister_all_placeholders (Crawler.fromSitemaps cfg) ∅); [|exact Hk].
    intros k' it'. by rewrite lookup_empty.
Qed.

Lemma reachable_links s : reachable cfg s → link_inv cfg s.
Proof. intros [evs Hevs]. eapply run_links; [apply link_inv_init|exact Hevs]. Qed.

Lemma inbound_has_inbound (s : Crawler.State) (k : string) :
  k ∈ Crawler.inbound s ↔ has_inbound s k.
Proof.
  unfold Crawler.inbound, has_inbound. rewrite list_elem_of_fmap.
  split; intros (e & ? & ?); by exists e.
Qed.

(** X17. At every moment of a crawl run, an inventory entry that has
    been fetched (its provenance is [html] or [both]) lies under the key
    of one of the two seeds or under the target of a recorded edge. *)
Theorem fetched_pages_are_seeds_or_link_targets (s : Crawler.State) :
  reachable cfg s →
  ∀ k it, Crawler.inventoryMap s !! k = Some it → discoveredBy it ≠ sitemap →
          seed_key cfg k ∨ has_inbound s k.
Proof.
  intros (_ & _ & Hm & _)%reachable_links k it Hk Hd.
  destruct (Hm k it Hk Hd) as [?|?]; [by left|right]. by apply inbound_has_inbound.
Qed.

End LinkFacts.

Lemma fetched_pages_are_seeds_or_link_targets_witness :
  ∃ s, @Crawler.run Ref.urlLib Examples.site_docs Examples.two_pages
         Examples.three_links_run
         (@Crawler.crawl_init Ref.urlLib Examples.two_pages) = Some s
       ∧ ∀ k it, Crawler.inventoryMap s !! k = Some it → discoveredBy it ≠ sitemap →
                 @seed_key Ref.urlLib Examples.two_pages k ∨ has_inbound s k.
Proof.
  destruct (@Crawler.run Ref.urlLib Examples.site_docs Examples.two_pages
              Examples.three_links_run
              (@Crawler.crawl_init Ref.urlLib Examples.two_pages))
    as [s|] eqn:Hs; [|by vm_compute in Hs].
  exists s. split; [reflexivity|].
  exact (@fetched_pages_are_seeds_or_link_targets Ref.urlLib Examples.site_docs
           Examples.two_pages s (ex_intro _ Examples.three_links_run Hs)).
Defined.

(** *** The derived reports *)

Lemma from_array_go (l : list string) : ∀ acc,
  NoDup acc →
  NoDup (foldl (fun found x => Crawler.set_add x found) acc l)
  ∧ ∀ x, x ∈ foldl (fun found x => Crawler.set_add x found) acc l ↔ x ∈ acc ∨ x ∈ l.
Proof.
  induction l as [|y l IH]; intros acc Hacc; cbn [foldl].
  - split; [done|]. intros x. rewrite elem_of_nil. tauto.
  - assert (NoDup (Crawler.set_add y acc)
            ∧ ∀ x, x ∈ Crawler.set_add y acc ↔ x ∈ acc ∨ x = y) as [Hnd Hel].
    { unfold Crawler.set_add. case_bool_decide as Hy.
      - split; [done|]. intros x. split; [by left|]. by intros [?| ->].
      - split.
        + apply NoDup_app. split_and!; [done| |apply NoDup_singleton].
          intros x Hx ->%list_elem_of_singleton. done.
        + intros x. by rewrite elem_of_app, list_elem_of_singleton. }
    destruct (IH _ Hnd) as [Hnd' Hel']. split; [done|].
    intros x. rewrite Hel', Hel, elem_of_cons. tauto.
Qed.

Lemma NoDup_from_array (l : list string) : NoDup (JsSet.from_array l).
Proof. apply (from_array_go l []), NoDup_nil_2. Qed.

Lemma elem_of_from_array (l : list string) (x : string) :
  x ∈ JsSet.from_array l ↔ x ∈ l.
Proof.
  unfold JsSet.from_array. rewrite (proj2 (from_array_go l [] (NoDup_nil_2))).
  rewrite elem_of_nil. tauto.
Qed.

Lemma has_false (set : list string) (x : string) : JsSet.has set x = false ↔ x ∉ set.
Proof. unfold JsSet.has. apply bool_decide_eq_false. Qed.

Lemma elem_of_site_inbound (s : Crawler.State) (k : string) :
  k ∈ CrawlSite.inbound s ↔ has_inbound s k.
Proof. unfold CrawlSite.inbound. by rewrite elem_of_from_array, <- inbound_has_inbound. Qed.

Lemma elem_of_orphans (cfg : Crawler.Setup) (sm : list string) (elapsed : nat)
      (s : Crawler.State) (k : string) :
  k ∈ CrawlSite.orphansInSitemap (CrawlSite.out_reports (CrawlSite.output cfg sm elapsed s))
  ↔ k ∈ Crawler.fromSitemaps cfg ∧ ¬ has_inbound s k.
Proof.
  cbn. rewrite list_elem_of_filter, has_false, elem_of_from_array, elem_of_site_inbound.
  tauto.
Qed.

(** X18. The two link reports of the output split the keys cleanly:
    [orphansInSitemap] holds each sitemap key that no recorded edge
    points to, [linkedNotInSitemap] each edge target that is not a
    sitemap key, both without repetition; so no key is in both. *)
Theorem reports_split_sitemap_and_links (cfg : Crawler.Setup) (sm : list string)
        (elapsed : nat) (s : Crawler.State) :
  NoDup (CrawlSite.orphansInSitemap
           (CrawlSite.out_reports (CrawlSite.output cfg sm elapsed s)))
  ∧ NoDup (CrawlSite.linkedNotInSitemap
             (CrawlSite.out_reports (CrawlSite.output cfg sm elapsed s)))
  ∧ (∀ k, k ∈ CrawlSite.orphansInSitemap
                (CrawlSite.out_reports (CrawlSite.output cfg sm elapsed s))
          ↔ k ∈ Crawler.fromSitemaps cfg ∧ ¬ has_inbound s k)
  ∧ (∀ k, k ∈ CrawlSite.linkedNotInSitemap
                (CrawlSite.out_reports (CrawlSite.output cfg sm elapsed s))
          ↔ has_inbound s k ∧ k ∉ Crawler.fromSitemaps cfg).
Proof.
  split_and!.
  - cbn. apply NoDup_filter, NoDup_from_array.
  - cbn. apply NoDup_filter, NoDup_from_array.
  - apply elem_of_orphans.
  - intros k. cbn.
    rewrite list_elem_of_filter, has_false, elem_of_from_array, elem_of_site_inbound.
    tauto.
Qed.

(** X19. A key reported in [orphansInSitemap] is, at the end of any
    run, either the key of one of the two seeds or an entry that was never
    fetched: the placeholder with status 0 and provenance [sitemap]. *)
Theorem orphans_are_unfetched_or_seeds `{UrlLib} `{HtmlLib} (cfg : Crawler.Setup)
        (sm : list string) (elapsed : nat) (s : Crawler.State) :
  reachable cfg s →
  ∀ k, k ∈ CrawlSite.orphansInSitemap
             (CrawlSite.out_reports (CrawlSite.output cfg sm elapsed s)) →
       seed_key cfg k ∨ Crawler.inventoryMap s !! k = Some (placeholder k).
Proof.
  intros Hreach k [Hk Hno]%elem_of_orphans.
  destruct (reachable_provenance cfg s Hreach) as (Hdom & Hsm & _ & _).
  destruct (reachable_links cfg s Hreach) as (_ & _ & Hm & _).
  destruct (Hdom k Hk) as [it Hit].
  destruct (decide (discoveredBy it = sitemap)) as [Hd|Hd].
  - right. by destruct (Hsm k it Hit Hd) as [_ <-].
  - destruct (Hm k it Hit Hd) as [?|Hin]; [by left|].
    destruct Hno. by apply inbound_has_inbound.
Qed.

Lemma orphans_are_unfetched_or_seeds_witness :
  ∃ s, @Crawler.run Ref.urlLib Examples.site_docs Examples.with_sitemap
         Examples.links_in_flight
         (@Crawler.crawl_init Ref.urlLib Examples.with_sitemap) = Some s
       ∧ ∀ k, k ∈ CrawlSite.orphansInSitemap
                    (CrawlSite.out_reports (CrawlSite.output Examples.with_sitemap [] 0 s)) →
              @seed_key Ref.urlLib Examples.with_sitemap k
              ∨ Crawler.inventoryMap s !! k = Some (placeholder k).
Proof.
  destruct (@Crawler.run Ref.urlLib Examples.site_docs Examples.with_sitemap
              Examples.links_in_flight
              (@Crawler.crawl_init Ref.urlLib Examples.with_sitemap))
    as [s|] eqn:Hs; [|by vm_compute in Hs].
  exists s. split; [reflexivity|].
  exact (@orphans_are_unfetched_or_seeds Ref.urlLib Examples.site_docs
           Examples.with_sitemap [] 0 s (ex_intro _ Examples.links_in_flight Hs)).
Defined.

Lemma range_test (lo hi n : nat) :
  (lo <=? n) && (n <? hi) = bool_decide (lo ≤ n < hi).
Proof.
  destruct (Nat.leb_spec lo n), (Nat.ltb_spec n hi); cbn [andb]; symmetry;
    (apply bool_decide_eq_true_2 || apply bool_decide_eq_false_2); lia.
Qed.

Lemma status_in_cons (lo hi : nat) (it : InventoryItem) (l : list InventoryItem) :
  status_in lo hi (it :: l) = status_in lo hi [it] + status_in lo hi l.
Proof.
  unfold status_in. rewrite !filter_cons, filter_nil.
  by destruct (decide (lo ≤ status it < hi)).
Qed.

Lemma status_in_one (lo hi : nat) (it : InventoryItem) :
  status_in lo hi [it] = if bool_decide (lo ≤ status it < hi) then 1 else 0.
Proof.
  unfold status_in. rewrite filter_cons, filter_nil.
  case_bool_decide; [by rewrite decide_True|by rewrite decide_False].
Qed.

Lemma count_status_item (acc : CrawlSite.StatusBuckets) (it : InventoryItem) :
  CrawlSite.count_status acc it
  = CrawlSite.mkBuckets
      (CrawlSite.b0xx acc + status_in 0 1 [it])
      (CrawlSite.b2xx acc + status_in 200 300 [it])
      (CrawlSite.b3xx acc + status_in 300 400 [it])
      (CrawlSite.b4xx acc + status_in 400 500 [it])
      (CrawlSite.b5xx acc + status_in 500 600 [it]).
Proof.
  unfold CrawlSite.count_status. rewrite !status_in_one, !range_test.
  destruct (Nat.eqb_spec (status it) 0) as [E|E].
  { rewrite (bool_decide_eq_true_2 (0 ≤ status it < 1)) by lia.
    rewrite !bool_decide_eq_false_2 by lia. f_equal; lia. }
  rewrite (bool_decide_eq_false_2 (0 ≤ status it < 1)) by lia.
  destruct (decide (200 ≤ status it < 300)) as [R|R].
  { rewrite (bool_decide_eq_true_2 _ R).
    rewrite !bool_decide_eq_false_2 by lia. f_equal; lia. }
  rewrite (bool_decide_eq_false_2 _ R).
  destruct (decide (300 ≤ status it < 400)) as [R3|R3].
  { rewrite (bool_decide_eq_true_2 _ R3).
    rewrite !bool_decide_eq_false_2 by lia. f_equal; lia. }
  rewrite (bool_decide_eq_false_2 _ R3).
  destruct (decide (400 ≤ status it < 500)) as [R4|R4].
  { rewrite (bool_decide_eq_true_2 _ R4).
    rewrite !bool_decide_eq_false_2 by lia. f_equal; lia. }
  rewrite (bool_decide_eq_false_2 _ R4).
  destruct (decide (500 ≤ status it < 600)) as [R5|R5].
  { rewrite (bool_decide_eq_true_2 _ R5). f_equal; lia. }
  rewrite (bool_decide_eq_false_2 _ R5). destruct acc. cbn. f_equal; lia.
Qed.

Lemma count_status_fold (inventory : list InventoryItem) : ∀ acc,
  foldl CrawlSite.count_status acc inventory
  = CrawlSite.mkBuckets
      (CrawlSite.b0xx acc + status_in 0 1 inventory)
      (CrawlSite.b2xx acc + status_in 200 300 inventory)
      (CrawlSite.b3xx acc + status_in 300 400 inventory)
      (CrawlSite.b4xx acc + status_in 400 500 inventory)
      (CrawlSite.b5xx acc + status_in 500 600 inventory).
Proof.
  induction inventory as [|it inventory IH]; intros acc; cbn [foldl].
  - destruct acc. unfold status_in. rewrite !filter_nil. cbn. f_equal; lia.
  - rewrite IH.
    rewrite (status_in_cons 0 1), (status_in_cons 200 300), (status_in_cons 300 400),
      (status_in_cons 400 500), (status_in_cons 500 600), count_status_item.
    cbn [CrawlSite.b0xx CrawlSite.b2xx CrawlSite.b3xx CrawlSite.b4xx CrawlSite.b5xx].
    f_equal; lia.
Qed.

Lemma bucketed_count (l : list InventoryItem) :
  status_in 0 1 l + status_in 200 300 l + status_in 300 400 l
  + status_in 400 500 l + status_in 500 600 l
  = length (filter bucketed l).
Proof.
  induction l as [|it l IH]; [done|].
  rewrite (status_in_cons 0 1), (status_in_cons 200 300), (status_in_cons 300 400),
    (status_in_cons 400 500), (status_in_cons 500 600), !status_in_one, filter_cons.
  unfold bucketed at 1.
  destruct (decide (status it = 0 ∨ 200 ≤ status it < 600)) as [B|B]; cbn [length].
  - destruct (decide (status it = 0)).
    { rewrite (bool_decide_eq_true_2 (0 ≤ status it < 1)) by lia.
      rewrite !bool_decide_eq_false_2 by lia. lia. }
    rewrite (bool_decide_eq_false_2 (0 ≤ status it < 1)) by lia.
    destruct (decide (status it < 300)).
    { rewrite (bool_decide_eq_true_2 (200 ≤ status it < 300)) by lia.
      rewrite !bool_decide_eq_false_2 by lia. lia. }
    rewrite (bool_decide_eq_false_2 (200 ≤ status it < 300)) by lia.
    destruct (decide (status it < 400)).
    { rewrite (bool_decide_eq_true_2 (300 ≤ status it < 400)) by lia.
      rewrite !bool_decide_eq_false_2 by lia. lia. }
    rewrite (bool_decide_eq_false_2 (300 ≤ status it < 400)) by lia.
    destruct (decide (status it < 500)).
    { rewrite (bool_decide_eq_true_2 (400 ≤ status it < 500)) by lia.
      rewrite !bool_decide_eq_false_2 by lia. lia. }
    rewrite (bool_decide_eq_false_2 (400 ≤ status it < 500)) by lia.
    rewrite (bool_decide_eq_true_2 (500 ≤ status it < 600)) by lia. lia.
  - rewrite !bool_decide_eq_false_2 by lia. lia.
Qed.

Lemma filter_length_all {A} (P : A → Prop) `{!∀ x, Decision (P x)} (l : list A) :
  length (filter P l) = length l ↔ Forall P l.
Proof.
  induction l as [|x l IH]; [by rewrite filter_nil|].
  rewrite filter_cons, Forall_cons. pose proof (length_filter P l) as Hle.
  destruct (decide (P x)); simpl.
  - rewrite <- IH. split; [intros [= ?]; by split|intros [_ ->]; done].
  - split; [lia|tauto].
Qed.

(** X20. Each status bucket of the report counts the inventory items
    of its range ([0xx] those with status 0), and an item with any other
    status (below 200 but not 0, or 600 and above) is in no bucket: the
    buckets add up to the size of the inventory exactly when there is no
    such item. *)
Theorem statusBuckets_count_their_ranges (cfg : Crawler.Setup) (sm : list string)
        (elapsed : nat) (s : Crawler.State) :
  CrawlSite.statusBuckets (CrawlSite.out_reports (CrawlSite.output cfg sm elapsed s))
  = CrawlSite.mkBuckets
      (status_in 0 1 (Crawler.inventory s))
      (status_in 200 300 (Crawler.inventory s))
      (status_in 300 400 (Crawler.inventory s))
      (status_in 400 500 (Crawler.inventory s))
      (status_in 500 600 (Crawler.inventory s))
  ∧ (buckets_total
       (CrawlSite.statusBuckets (CrawlSite.out_reports (CrawlSite.output cfg sm elapsed s)))
     = length (Crawler.inventory s)
     ↔ Forall bucketed (Crawler.inventory s)).
Proof.
  cbn [CrawlSite.output CrawlSite.out_reports CrawlSite.statusBuckets].
  rewrite count_status_fold.
  cbn [CrawlSite.b0xx CrawlSite.b2xx CrawlSite.b3xx CrawlSite.b4xx CrawlSite.b5xx].
  split; [done|]. unfold buckets_total.
  cbn [CrawlSite.b0xx CrawlSite.b2xx CrawlSite.b3xx CrawlSite.b4xx CrawlSite.b5xx].
  rewrite <- (filter_length_all bucketed).
  change (0 + status_in 0 1 (Crawler.inventory s)) with (status_in 0 1 (Crawler.inventory s)).
  by rewrite !Nat.add_0_l, bucketed_count.
Qed.

(* ===================================================================== *)
(** ** Properties of utils/sitemap.ts *)
(* ===================================================================== *)

Lemma push_urls_spec (limit : nat) (childUrls : list string) : ∀ acc,
  length acc + length childUrls ≤ limit →
  length (Sitemap.push_urls limit childUrls acc) ≤ limit
  ∧ ∀ u, u ∈ Sitemap.push_urls limit childUrls acc → u ∈ acc ∨ u ∈ childUrls.
Proof.
  induction childUrls as [|cu rest IH]; intros acc Hlen; cbn [Sitemap.push_urls].
  - simpl in Hlen. split; [lia|]. by left.
  - simpl in Hlen. destruct (limit <=? length (acc ++ [cu])).
    + rewrite length_app. simpl. split; [lia|].
      intros u [?| ->%list_elem_of_singleton]%elem_of_app; [by left|right; by left].
    + destruct (IH (acc ++ [cu])) as [Hle Hel]; [rewrite length_app; simpl; lia|].
      split; [done|]. intros u [[?| ->%list_elem_of_singleton]%elem_of_app|?]%Hel;
        [by left|right; by left|right; by right].
Qed.

Section SitemapFacts.
Context `{UrlLib} `{Network} `{Sitemap.XmlLib}.

Lemma children_loop_within recur (limit : nat) (children : list Sitemap.SitemapItem) :
  (∀ url lim w w' urls, recur url lim w = Some (w', urls) → within lim urls) →
  ∀ acc w w' urls,
    within limit acc →
    Sitemap.children_loop recur limit children acc w = Some (w', urls) →
    within limit urls.
Proof.
  intros Hrecur. induction children as [|child rest IH]; intros acc w w' urls Hacc;
    cbn [Sitemap.children_loop].
  - by intros [= <- <-].
  - destruct (negb _); [by apply IH|].
    destruct (recur _ _ w) as [[w1 childUrls]|] eqn:Hchild; [|done].
    destruct (Hrecur _ _ _ _ _ Hchild) as [Hlen Hne]. destruct Hacc as [Hlacc Hnacc].
    destruct (push_urls_spec limit childUrls acc) as [Hle Hel]; [lia|].
    assert (within limit (Sitemap.push_urls limit childUrls acc)) as Hpush.
    { split; [done|]. rewrite Forall_forall in Hnacc, Hne.
      apply Forall_forall. intros u [Hu|Hu]%Hel; auto. }
    destruct (limit <=? _); [by intros [= <- <-]|]. by apply IH.
Qed.

Lemma collect_within (fuel : nat) : ∀ url ua limit w w' urls,
  Sitemap.collectSitemapUrls fuel url ua limit w = Some (w', urls) → within limit urls.
Proof.
  induction fuel as [|fuel IH]; intros url ua limit w w' urls; [done|].
  cbn [Sitemap.collectSitemapUrls].
  assert (within limit []) as Hnil by (split; [simpl; lia|constructor]).
  destruct (Sitemap.fetchText url ua w) as [w1 [xml|]]; [|by intros [= <- <-]].
  destruct (Sitemap.xml_parse xml) as [doc|]; [|by intros [= <- <-]].
  destruct (Sitemap.as_array (Sitemap.sitemapindex_sitemap doc)) as [children|].
  - apply children_loop_within; [|done]. intros u lim w0 w0' l. apply IH.
  - destruct (Sitemap.as_array (Sitemap.urlset_url doc)) as [entries|];
      [|by intros [= <- <-]].
    intros [= <- <-]. unfold Sitemap.urlset_urls. split.
    + rewrite length_take. lia.
    + apply Forall_take, Forall_forall. intros u [Hu _]%list_elem_of_filter.
      by destruct u.
Qed.

(** X21. Whatever [collectSitemapUrls] returns holds at most [limit]
    URLs, however the sitemap indexes nest, and none of them is the empty
    string. *)
Theorem collectSitemapUrls_within_limit (fuel : nat) (sitemapUrl userAgent : string)
        (limit : nat) (w w' : World) (urls : list string) :
  Sitemap.collectSitemapUrls fuel sitemapUrl userAgent limit w = Some (w', urls) →
  length urls ≤ limit ∧ Forall (fun u => u ≠ "") urls.
Proof.
  intros Hreturned.
  destruct (collect_within fuel sitemapUrl userAgent limit w w' urls Hreturned)
    as [Hcount Hnonempty].
  split; [exact Hcount|exact Hnonempty].
Qed.

Lemma children_loop_mono recur1 recur2 (limit : nat) (children : list Sitemap.SitemapItem) :
  (∀ url lim w r, recur1 url lim w = Some r → recur2 url lim w = Some r) →
  ∀ acc w r,
    Sitemap.children_loop recur1 limit children acc w = Some r →
    Sitemap.children_loop recur2 limit children acc w = Some r.
Proof.
  intros Hrecur. induction children as [|child rest IH]; intros acc w r;
    cbn [Sitemap.children_loop]; [done|].
  destruct (negb _); [by apply IH|].
  destruct (recur1 _ _ w) as [[w1 childUrls]|] eqn:Hchild; [|done].
  rewrite (Hrecur _ _ _ _ Hchild). destruct (limit <=? _); [done|]. by apply IH.
Qed.

Lemma collect_mono (fuel : nat) : ∀ url ua limit w r,
  Sitemap.collectSitemapUrls fuel url ua limit w = Some r →
  Sitemap.collectSitemapUrls (S fuel) url ua limit w = Some r.
Proof.
  induction fuel as [|fuel IH]; intros url ua limit w r; [done|].
  intros Hr. cbn [Sitemap.collectSitemapUrls] in *.
  destruct (Sitemap.fetchText url ua w) as [w1 [xml|]]; [|done].
  destruct (Sitemap.xml_parse xml) as [doc|]; [|done].
  destruct (Sitemap.as_array (Sitemap.sitemapindex_sitemap doc)) as [children|]; [|done].
  revert Hr. apply children_loop_mono. intros u lim w0 r0. apply IH.
Qed.

Lemma collect_mono_le (fuel fuel' : nat) url ua limit w r :
  fuel ≤ fuel' →
  Sitemap.collectSitemapUrls fuel url ua limit w = Some r →
  Sitemap.collectSitemapUrls fuel' url ua limit w = Some r.
Proof.
  induction 1 as [|fuel' _ IH]; [done|]. intros Hr. by apply collect_mono, IH.
Qed.

Lemma children_loop_returns recur (limit : nat) (children : list Sitemap.SitemapItem) :
  (∀ l, Sitemap.mkSitemapItem (Some l) ∈ children → l ≠ "" →
        ∀ lim w, is_Some (recur l lim w)) →
  ∀ acc w, is_Some (Sitemap.children_loop recur limit children acc w).
Proof.
  induction children as [|child rest IH]; intros Hrecur acc w;
    cbn [Sitemap.children_loop]; [done|].
  assert (∀ acc w, is_Some (Sitemap.children_loop recur limit rest acc w)) as Hrest.
  { apply IH. intros l Hl. apply Hrecur. by right. }
  destruct child as [[l|]]; cbn [Sitemap.loc Js.truthy_opt default]; [|apply Hrest].
  destruct l as [|c l]; cbn [Js.truthy negb id]; [apply Hrest|].
  destruct (Hrecur (String c l)) with (lim := limit - length acc) (w := w)
    as [[w1 childUrls] ->]; [by left|done|].
  destruct (limit <=? _); [done|apply Hrest].
Qed.

Lemma collect_returns (ua : string) (rank : string → nat) :
  well_nested ua rank →
  ∀ fuel url limit w,
    rank url < fuel → is_Some (Sitemap.collectSitemapUrls fuel url ua limit w).
Proof.
  intros Hnested. induction fuel as [|fuel IH]; intros url limit w Hrank; [lia|].
  cbn [Sitemap.collectSitemapUrls].
  destruct (Sitemap.fetchText url ua w) as [w1 [xml|]] eqn:Hfetch; [|done].
  destruct (Sitemap.xml_parse xml) as [doc|] eqn:Hdoc; [|done].
  destruct (Sitemap.as_array (Sitemap.sitemapindex_sitemap doc)) as [children|] eqn:Hidx.
  - apply children_loop_returns. intros l Hl Hne lim w0. apply IH.
    assert (rank l < rank url); [|lia].
    apply (Hnested url w children l); [|done|done]. by exists w1, xml, doc.
  - by destruct (Sitemap.as_array (Sitemap.urlset_url doc)).
Qed.

(** X22. When the sitemap indexes nest without cycle (some rank
    decreases from every index to the child sitemaps it lists),
    [collectSitemapUrls] returns: there is one result, reached as soon as
    the nesting allowed exceeds the rank of the URL asked for and the same
    for every larger allowance. *)
Theorem collectSitemapUrls_returns (userAgent : string) (rank : string → nat)
        (sitemapUrl : string) (limit : nat) (w : World) :
  well_nested userAgent rank →
  ∃ w' urls,
    ∀ fuel, rank sitemapUrl < fuel →
            Sitemap.collectSitemapUrls fuel sitemapUrl userAgent limit w = Some (w', urls).
Proof.
  intros Hnested.
  destruct (collect_returns userAgent rank Hnested (S (rank sitemapUrl)) sitemapUrl limit w)
    as [[w' urls] Hr]; [lia|].
  exists w', urls. intros fuel Hfuel. eapply collect_mono_le; [|exact Hr]. lia.
Qed.

Lemma children_loop_first recur (limit : nat) (children : list Sitemap.SitemapItem)
      (url : string) :
  first_loc children = Some url →
  ∀ w, recur url limit w = None →
       Sitemap.children_loop recur limit children [] w = None.
Proof.
  induction children as [|child rest IH]; intros Hfirst w Hrecur;
    cbn [Sitemap.children_loop first_loc] in *; [done|].
  destruct (Js.truthy_opt (Sitemap.loc child)); cbn [negb]; [|by apply IH].
  rewrite Hfirst. cbn [default length id]. by rewrite Nat.sub_0_r, Hrecur.
Qed.

(** X23. A sitemap index whose first child sitemap is the index
    itself makes [collectSitemapUrls] recurse without end: whatever
    nesting is allowed, and whatever the limit, the call has not
    returned. *)
Theorem collectSitemapUrls_self_reference_never_returns
        (sitemapUrl userAgent : string) :
  (∀ w, ∃ children, index_children userAgent sitemapUrl w children
                    ∧ first_loc children = Some sitemapUrl) →
  ∀ fuel limit w, Sitemap.collectSitemapUrls fuel sitemapUrl userAgent limit w = None.
Proof.
  intros Hself. induction fuel as [|fuel IH]; intros limit w; [done|].
  cbn [Sitemap.collectSitemapUrls].
  destruct (Hself w) as (children & (w1 & xml & doc & -> & -> & ->) & Hfirst).
  apply (children_loop_first _ limit children sitemapUrl Hfirst). apply IH.
Qed.

Lemma discoverSitemaps_covers (startUrl : string) (robotsSitemaps : list string)
      (userAgent : string) :
  (∀ x, x ∈ robotsSitemaps →
        x ∈ Sitemap.discoverSitemaps startUrl robotsSitemaps userAgent)
  ∧ length (Sitemap.discoverSitemaps startUrl robotsSitemaps userAgent)
    ≤ length (JsSet.from_array robotsSitemaps) + 1.
Proof.
  unfold Sitemap.discoverSitemaps.
  assert (∀ x, x ∈ robotsSitemaps → x ∈ JsSet.from_array robotsSitemaps) as Hrob
    by (intros x; by rewrite elem_of_from_array).
  destruct (url_parse startUrl) as [u|]; [|split; [done|lia]].
  destruct (url_resolve _ _) as [g|]; [|split; [done|lia]].
  unfold Crawler.set_add. case_bool_decide; [split; [done|lia]|]. split.
  - intros x Hx. apply elem_of_app. left. by apply Hrob.
  - rewrite length_app. simpl. lia.
Qed.

(** X24. [discoverSitemaps] returns the sitemaps declared in
    robots.txt, each once and in their order, followed by at most one
    more URL, the [/sitemap.xml] of the start URL's origin; a start URL
    that does not parse adds nothing. *)
Theorem discoverSitemaps_robots_then_guess (startUrl : string)
        (robotsSitemaps : list string) (userAgent : string) :
  NoDup (Sitemap.discoverSitemaps startUrl robotsSitemaps userAgent)
  ∧ (∀ x, x ∈ robotsSitemaps →
          x ∈ Sitemap.discoverSitemaps startUrl robotsSitemaps userAgent)
  ∧ (∃ guess, Sitemap.discoverSitemaps startUrl robotsSitemaps userAgent
              = JsSet.from_array robotsSitemaps ++ guess
              ∧ length guess ≤ 1
              ∧ ∀ x, x ∈ guess →
                     ∃ u g, url_parse startUrl = Some u
                            ∧ url_resolve "/sitemap.xml" (protocol u +:+ "//" +:+ host u)
                              = Some g
                            ∧ x = url_href g).
Proof.
  unfold Sitemap.discoverSitemaps.
  pose proof (NoDup_from_array robotsSitemaps) as Hnd.
  assert (∃ guess, JsSet.from_array robotsSitemaps = JsSet.from_array robotsSitemaps ++ guess
                   ∧ length guess ≤ 1 ∧ ∀ x : string, x ∈ guess → False) as Hnone.
  { exists []. rewrite app_nil_r. split_and!; [done|simpl; lia|].
    by intros x ?%elem_of_nil. }
  destruct (url_parse startUrl) as [u|].
  2: { split_and!; [done|intros x; by rewrite elem_of_from_array|].
       destruct Hnone as (guess & ? & ? & Hg). exists guess. split_and!; [done|done|].
       intros x Hx. destruct (Hg x Hx). }
  destruct (url_resolve _ _) as [g|] eqn:Hguess.
  2: { split_and!; [done|intros x; by rewrite elem_of_from_array|].
       destruct Hnone as (guess & ? & ? & Hg). exists guess. split_and!; [done|done|].
       intros x Hx. destruct (Hg x Hx). }
  unfold Crawler.set_add. case_bool_decide as Hin.
  - split_and!; [done|intros x; by rewrite elem_of_from_array|].
    destruct Hnone as (guess & ? & ? & Hg). exists guess. split_and!; [done|done|].
    intros x Hx. destruct (Hg x Hx).
  - split_and!.
    + apply NoDup_app. split_and!; [done| |apply NoDup_singleton].
      by intros x Hx ->%list_elem_of_singleton.
    + intros x Hx. apply elem_of_app. left. by apply elem_of_from_array.
    + exists [url_href g]. split_and!; [done|simpl; lia|].
      intros x ->%list_elem_of_singleton. by exists u, g.
Qed.


End SitemapFacts.

Lemma collectSitemapUrls_within_limit_witness :
  ∃ urls,
    @Sitemap.collectSitemapUrls Ref.urlLib Examples2.sitemap_server Examples2.sitemap_docs
      5 "https://ex.com/sitemap.xml" "mcp-crawler" 2 tt = Some (tt, urls)
    ∧ length urls ≤ 2 ∧ Forall (fun u => u ≠ "") urls.
Proof.
  eexists. split; [vm_compute; reflexivity|].
  apply (@collectSitemapUrls_within_limit Ref.urlLib Examples2.sitemap_server
           Examples2.sitemap_docs 5 "https://ex.com/sitemap.xml" "mcp-crawler" 2 tt tt).
  vm_compute. reflexivity.
Defined.

Lemma sitemap_server_well_nested :
  @well_nested Ref.urlLib Examples2.sitemap_server Examples2.sitemap_docs
    "mcp-crawler" Examples2.sitemap_rank.
Proof.
  intros url w children l (w1 & xml & doc & Hfetch & Hdoc & Hidx) Hl Hne.
  unfold Sitemap.fetchText, abind, fetch in Hfetch. cbn in Hfetch.
  destruct (Ref.parse url); [|done]. cbn in Hfetch.
  unfold Examples2.sitemap_rank.
  destruct (String.eqb_spec url "https://ex.com/sitemap.xml") as [->|_].
  - injection Hfetch as _ <-. vm_compute in Hdoc. injection Hdoc as <-.
    vm_compute in Hidx. injection Hidx as <-.
    apply elem_of_cons in Hl as [[= ->]|Hl]; [vm_compute; lia|].
    apply elem_of_cons in Hl as [[=]|Hl].
    apply elem_of_cons in Hl as [[= ->]|Hl]; [vm_compute; lia|].
    by apply elem_of_nil in Hl.
  - destruct (String.eqb url "https://ex.com/a.xml").
    { injection Hfetch as _ <-. vm_compute in Hdoc. injection Hdoc as <-. done. }
    destruct (String.eqb url "https://ex.com/b.xml").
    { injection Hfetch as _ <-. vm_compute in Hdoc. injection Hdoc as <-. done. }
    done.
Defined.

Lemma collectSitemapUrls_returns_witness :
  ∃ w' urls,
    ∀ fuel, Examples2.sitemap_rank "https://ex.com/sitemap.xml" < fuel →
            @Sitemap.collectSitemapUrls Ref.urlLib Examples2.sitemap_server
              Examples2.sitemap_docs fuel "https://ex.com/sitemap.xml" "mcp-crawler" 10 tt
            = Some (w', urls).
Proof.
  exact (@collectSitemapUrls_returns Ref.urlLib Examples2.sitemap_server
           Examples2.sitemap_docs "mcp-crawler" Examples2.sitemap_rank
           "https://ex.com/sitemap.xml" 10 tt sitemap_server_well_nested).
Defined.

Lemma collectSitemapUrls_self_reference_never_returns_witness :
  @Sitemap.collectSitemapUrls Ref.urlLib Examples2.self_listing_server
    Examples2.sitemap_docs 1000 "https://ex.com/loop.xml" "mcp-crawler" 10 tt = None.
Proof.
  apply (@collectSitemapUrls_self_reference_never_returns Ref.urlLib
           Examples2.self_listing_server Examples2.sitemap_docs).
  intros []. exists [Examples2.entry "https://ex.com/loop.xml"]. split; [|reflexivity].
  exists tt, "loop", (Sitemap.mkSitemapDoc
                        (Sitemap.single (Examples2.entry "https://ex.com/loop.xml"))
                        Sitemap.absent).
  split_and!; reflexivity.
Defined.

(* ===================================================================== *)
(** ** Properties of utils/robots.ts *)
(* ===================================================================== *)

Section RobotsFacts.
Context `{UrlLib} `{Network} `{Robots.RobotsLib}.

Lemma getRobotsAgent_cached (origin userAgent : string) (cache : Robots.Cache)
      (w : World) (agent : Robots.RobotsAgent) :
  cache !! origin = Some agent →
  Robots.getRobotsAgent origin userAgent cache w = (w, cache, Some agent).
Proof. unfold Robots.getRobotsAgent. by intros ->. Qed.

(** What a call leaves in the cache. *)
Lemma getRobotsAgent_stores (origin userAgent : string) (cache cache1 : Robots.Cache)
      (w w1 : World) (agent : Robots.RobotsAgent) :
  Robots.getRobotsAgent origin userAgent cache w = (w1, cache1, Some agent) →
  cache1 !! origin = Some agent
  ∧ ∀ o, o ≠ origin → cache1 !! o = cache !! o.
Proof.
  unfold Robots.getRobotsAgent.
  destruct (cache !! origin) as [a|] eqn:Hhit; [by intros [= <- <- <-]|].
  destruct (url_resolve "/robots.txt" origin) as [r|]; [|done].
  destruct (fetch _ w) as [w2 [res|]].
  - destruct (res_text res) as [body|]; intros [= <- <- <-];
      (split; [apply lookup_insert_eq|intros o Ho; by apply lookup_insert_ne]).
  - intros [= <- <- <-].
    split; [apply lookup_insert_eq|intros o Ho; by apply lookup_insert_ne].
Qed.

(** X25. The robots agent is cached by origin alone: once a call
    for an origin has returned an agent, every later call for that origin
    returns the same agent, whatever user agent it is asked for, without
    a request and without changing the cache; the entries of other
    origins are left as they were. *)
Theorem getRobotsAgent_caches_by_origin (origin userAgent userAgent' : string)
        (cache cache1 : Robots.Cache) (w w1 w2 : World) (agent : Robots.RobotsAgent) :
  Robots.getRobotsAgent origin userAgent cache w = (w1, cache1, Some agent) →
  Robots.getRobotsAgent origin userAgent' cache1 w2 = (w2, cache1, Some agent)
  ∧ ∀ o, o ≠ origin → cache1 !! o = cache !! o.
Proof.
  intros [Hstored Hother]%getRobotsAgent_stores. split; [|done].
  by apply getRobotsAgent_cached.
Qed.

(** X26. An agent built on a cache miss fails open: if robots.txt
    could not be fetched or read, it allows every URL and declares no
    sitemap; and it disallows a URL only when robots.txt was fetched and
    its parser answered [false] for that URL and the user agent (no answer
    counts as allowed). *)
Theorem getRobotsAgent_fails_open (origin userAgent : string)
        (cache cache1 : Robots.Cache) (w w1 : World) (agent : Robots.RobotsAgent) :
  cache !! origin = None →
  Robots.getRobotsAgent origin userAgent cache w = (w1, cache1, Some agent) →
  ((¬ ∃ robotsUrl body, robots_txt origin userAgent w w1 robotsUrl body) →
   agent = Robots.allow_all)
  ∧ ∀ url, Robots.isAllowed agent url = false →
           ∃ robotsUrl body,
             robots_txt origin userAgent w w1 robotsUrl body
             ∧ Robots.parser_isAllowed (Robots.robotsParser robotsUrl body) url userAgent
               = Some false.
Proof.
  unfold Robots.getRobotsAgent. intros ->.
  destruct (url_resolve "/robots.txt" origin) as [r|] eqn:Hr; [|done].
  destruct (fetch _ w) as [w2 [res|]] eqn:Hfetch.
  - destruct (res_text res) as [body|] eqn:Hbody; intros [= <- <- <-].
    + assert (robots_txt origin userAgent w w2 (url_href r) body) as Htxt
        by (by exists r, res).
      split.
      * intros Hno. destruct Hno. by exists (url_href r), body.
      * cbn. intros url Hurl. exists (url_href r), body. split; [done|].
        by destruct (Robots.parser_isAllowed _ url userAgent) as [[]|].
    + split; [done|]. by intros url.
  - intros [= <- <- <-]. split; [done|]. by intros url.
Qed.

End RobotsFacts.

Lemma getRobotsAgent_caches_by_origin_witness :
  ∃ agent cache1,
    @Robots.getRobotsAgent Ref.urlLib Examples2.robots_server Examples2.robots_parser
      "https://ex.com" "mcp-crawler" ∅ tt = (tt, cache1, Some agent)
    ∧ @Robots.getRobotsAgent Ref.urlLib Examples2.robots_server Examples2.robots_parser
        "https://ex.com" "other-bot" cache1 tt = (tt, cache1, Some agent)
    ∧ ∀ o, o ≠ "https://ex.com" → cache1 !! o = (∅ : Robots.Cache) !! o.
Proof.
  destruct (@Robots.getRobotsAgent Ref.urlLib Examples2.robots_server
              Examples2.robots_parser "https://ex.com" "mcp-crawler" ∅ tt)
    as [[[] cache1] [agent|]] eqn:Hcall; [|by vm_compute in Hcall].
  exists agent, cache1. split; [reflexivity|].
  exact (@getRobotsAgent_caches_by_origin Ref.urlLib Examples2.robots_server
           Examples2.robots_parser "https://ex.com" "mcp-crawler" "other-bot"
           ∅ cache1 tt tt tt agent Hcall).
Defined.

Lemma getRobotsAgent_fails_open_witness :
  ∃ agent cache1,
    @Robots.getRobotsAgent Ref.urlLib Examples.dead_server Examples2.robots_parser
      "https://ex.com" "mcp-crawler" ∅ tt = (tt, cache1, Some agent)
    ∧ ((¬ ∃ robotsUrl body,
            @robots_txt Ref.urlLib Examples.dead_server
              "https://ex.com" "mcp-crawler" tt tt robotsUrl body) →
       agent = Robots.allow_all)
    ∧ ∀ url, Robots.isAllowed agent url = false →
             ∃ robotsUrl body,
               @robots_txt Ref.urlLib Examples.dead_server
                 "https://ex.com" "mcp-crawler" tt tt robotsUrl body
               ∧ Robots.parser_isAllowed
                   (@Robots.robotsParser Examples2.robots_parser robotsUrl body)
                   url "mcp-crawler" = Some false.
Proof.
  destruct (@Robots.getRobotsAgent Ref.urlLib Examples.dead_server
              Examples2.robots_parser "https://ex.com" "mcp-crawler" ∅ tt)
    as [[[] cache1] [agent|]] eqn:Hcall; [|by vm_compute in Hcall].
  exists agent, cache1. split; [reflexivity|].
  exact (@getRobotsAgent_fails_open Ref.urlLib Examples.dead_server
           Examples2.robots_parser "https://ex.com" "mcp-crawler"
           ∅ cache1 tt tt agent (lookup_empty _) Hcall).
Defined.

(* ===================================================================== *)
(** ** Properties of [crawlSite] before the loop *)
(* ===================================================================== *)

Lemma set_add_spec (x : string) (l : list string) :
  (NoDup l → NoDup (Crawler.set_add x l))
  ∧ (∀ y, y ∈ Crawler.set_add x l ↔ y ∈ l ∨ y = x)
  ∧ length l ≤ length (Crawler.set_add x l) ≤ length l + 1.
Proof.
  unfold Crawler.set_add. case_bool_decide as Hx.
  - split_and!; [done| |lia|lia]. intros y. split; [by left|]. by intros [?| ->].
  - split_and!.
    + intros Hnd. apply NoDup_app. split_and!; [done| |apply NoDup_singleton].
      by intros y Hy ->%list_elem_of_singleton.
    + intros y. by rewrite elem_of_app, list_elem_of_singleton.
    + rewrite length_app. simpl. lia.
    + rewrite length_app. simpl. lia.
Qed.

Lemma length_from_array (l : list string) : length (JsSet.from_array l) ≤ length l.
Proof.
  unfold JsSet.from_array.
  assert (∀ acc, length (foldl (fun found x => Crawler.set_add x found) acc l)
                 ≤ length acc + length l) as Hgo; [|apply (Hgo [])].
  induction l as [|x l IH]; intros acc; cbn [foldl]; [simpl; lia|].
  specialize (IH (Crawler.set_add x acc)).
  destruct (set_add_spec x acc) as (_ & _ & _ & Hle). simpl. lia.
Qed.

Section PreludeFacts.
Context `{UrlLib} `{Network} `{Robots.RobotsLib} `{Sitemap.XmlLib}.

(** X27. The sitemap endpoints [crawlSite] tries are pairwise
    distinct; they include every sitemap declared in robots.txt, the
    [/sitemap.xml] of the start URL and the [/sitemap.xml] of its twin
    host (without [www.] if the start host has it, with it otherwise);
    and there are at most three more of them than robots.txt declares. *)
Theorem sitemap_candidates_cover_both_hosts (input : CrawlSite.CrawlInput) (base : URL)
        (robots : Robots.RobotsAgent) (ua : string) (candidates : list string) :
  CrawlSite.sitemap_candidates input base robots ua = Some candidates →
  NoDup candidates
  ∧ (∀ x, x ∈ Robots.sitemaps robots → x ∈ candidates)
  ∧ (∃ r, url_resolve "/sitemap.xml" (url_href base) = Some r ∧ url_href r ∈ candidates)
  ∧ (if Js.startsWith (hostname base) "www."
     then protocol base +:+ "//"
          +:+ String.substring 4 (String.length (hostname base) - 4) (hostname base)
          +:+ "/sitemap.xml" ∈ candidates
     else protocol base +:+ "//www." +:+ hostname base +:+ "/sitemap.xml" ∈ candidates)
  ∧ length candidates ≤ length (Robots.sitemaps robots) + 3.
Proof.
  unfold CrawlSite.sitemap_candidates.
  destruct (url_resolve "/sitemap.xml" (url_href base)) as [r|]; [|done].
  cbn [fmap option_fmap option_map mbind option_bind].
  set (found := JsSet.from_array _).
  assert (NoDup found ∧ (∀ x, x ∈ Robots.sitemaps robots → x ∈ found)
          ∧ length found ≤ length (Robots.sitemaps robots) + 1) as (Hnd & Hrob & Hlen).
  { unfold found. split_and!.
    - apply NoDup_from_array.
    - intros x Hx. apply elem_of_from_array.
      by apply (discoverSitemaps_covers (CrawlSite.startUrl input)).
    - etrans; [apply length_from_array|].
      destruct (discoverSitemaps_covers (CrawlSite.startUrl input)
                  (Robots.sitemaps robots) ua) as [_ Hlen].
      pose proof (length_from_array (Robots.sitemaps robots)). lia. }
  destruct (set_add_spec (url_href r) found) as (Hnd1 & Hel1 & _ & Hlen1).
  set (twin := if Js.startsWith (hostname base) "www." then _ else _).
  intros [= <-].
  assert (∀ x, (if Js.startsWith (hostname base) "www."
                then Crawler.set_add
                       (protocol base +:+ "//"
                        +:+ String.substring 4 (String.length (hostname base) - 4)
                                             (hostname base)
                        +:+ "/sitemap.xml") x
                else Crawler.set_add
                       (protocol base +:+ "//www." +:+ hostname base +:+ "/sitemap.xml") x)
               = Crawler.set_add
                   (if Js.startsWith (hostname base) "www."
                    then protocol base +:+ "//"
                         +:+ String.substring 4 (String.length (hostname base) - 4)
                                              (hostname base)
                         +:+ "/sitemap.xml"
                    else protocol base +:+ "//www." +:+ hostname base +:+ "/sitemap.xml") x)
    as Hif by (intros x; by destruct (Js.startsWith _ _)).
  unfold twin. rewrite Hif.
  match goal with |- context [Crawler.set_add ?t (Crawler.set_add _ _)] => set (tw := t) end.
  destruct (set_add_spec tw (Crawler.set_add (url_href r) found))
    as (Hnd2 & Hel2 & _ & Hlen2).
  split_and!.
  - by apply Hnd2, Hnd1.
  - intros x Hx. apply Hel2. left. apply Hel1. left. by apply Hrob.
  - exists r. split; [done|]. apply Hel2. left. apply Hel1. by right.
  - assert (tw ∈ Crawler.set_add tw (Crawler.set_add (url_href r) found)) as Htw
      by (apply Hel2; by right).
    unfold tw in Htw at 1. by destruct (Js.startsWith _ _).
  - lia.
Qed.

Lemma add_keys_spec (urls : list string) : ∀ acc,
  NoDup acc →
  NoDup (CrawlSite.add_keys urls acc)
  ∧ length (CrawlSite.add_keys urls acc) ≤ length acc + length urls.
Proof.
  induction urls as [|u urls IH]; intros acc Hacc; cbn [CrawlSite.add_keys].
  - split; [done|simpl; lia].
  - destruct (UrlUtils.normalizeForKey u) as [k|]; [|split; [done|simpl; lia]].
    destruct (set_add_spec k acc) as (Hnd & _ & _ & Hlen).
    destruct (IH _ (Hnd Hacc)) as [Hnd' Hlen']. split; [done|simpl; lia].
Qed.

Lemma collect_all_spec (fuel : nat) (ua : string) (maxPages : nat) (sms : list string) :
  ∀ acc w w' keys,
    NoDup acc →
    CrawlSite.collect_all fuel ua maxPages sms acc w = Some (w', keys) →
    NoDup keys ∧ length keys ≤ length acc + length sms * maxPages.
Proof.
  induction sms as [|sm sms IH]; intros acc w w' keys Hacc; cbn [CrawlSite.collect_all].
  - intros [= <- <-]. split; [done|simpl; lia].
  - destruct (Sitemap.collectSitemapUrls fuel sm ua maxPages w) as [[w1 urls]|] eqn:Hc;
      [|done].
    apply collect_within in Hc as [Hlen _].
    destruct (add_keys_spec urls acc Hacc) as [Hnd Hle].
    intros [Hnd' Hle']%IH; [|done]. split; [done|]. simpl. lia.
Qed.

(** X28. [maxPages] limits the URLs taken from each sitemap
    endpoint, not their total: in the output of a crawl whose prelude has
    returned, [stats.pagesFromSitemap] is at most the number of endpoints
    in [sitemap] times [maxPages]; and the sitemap keys the crawl starts
    from are pairwise distinct. *)
Theorem pagesFromSitemap_bounded_per_endpoint
        (fuel : nat) (DEFAULTS : CrawlSite.Defaults) (ignoredExt : list string)
        (input : CrawlSite.CrawlInput) (cache cache' : Robots.Cache) (w w' : World)
        (p : CrawlSite.Prelude) (elapsed : nat) (s : Crawler.State) :
  CrawlSite.before_loop fuel DEFAULTS ignoredExt input cache w = Some (w', cache', Some p) →
  NoDup (Crawler.fromSitemaps (CrawlSite.setup p))
  ∧ CrawlSite.pagesFromSitemap
      (CrawlSite.out_stats
         (CrawlSite.output (CrawlSite.setup p) (CrawlSite.smCandidates p) elapsed s))
    ≤ length (CrawlSite.out_sitemap
                (CrawlSite.output (CrawlSite.setup p) (CrawlSite.smCandidates p) elapsed s))
      * Crawler.maxPages (CrawlSite.setup p).
Proof.
  unfold CrawlSite.before_loop.
  destruct (url_parse (CrawlSite.startUrl input)) as [base|]; [|done].
  destruct (if CrawlSite.respectRobots DEFAULTS then _ else _) as [[w1 cache1] [robots|]];
    [|done].
  destruct (CrawlSite.sitemap_candidates _ _ _ _) as [candidates|]; [|done].
  destruct (CrawlSite.collect_all _ _ _ _ _ _) as [[w2 keys]|] eqn:Hall; [|done].
  intros [= <- <- <-]. cbn.
  apply collect_all_spec in Hall as [Hnd Hlen]; [|apply NoDup_nil_2].
  split; [done|]. etrans; [apply length_from_array|]. simpl in Hlen. lia.
Qed.

End PreludeFacts.

Lemma sitemap_candidates_cover_both_hosts_witness :
  ∃ candidates,
    @CrawlSite.sitemap_candidates Ref.urlLib Examples2.small_crawl
      (mkURL "https:" "ex.com" "" "/" [] "") Examples2.declared_map "mcp-crawler"
    = Some candidates
    ∧ NoDup candidates
    ∧ "https://ex.com/map.xml" ∈ candidates
    ∧ "https://www.ex.com/sitemap.xml" ∈ candidates
    ∧ length candidates ≤ 4.
Proof.
  destruct (@CrawlSite.sitemap_candidates Ref.urlLib Examples2.small_crawl
              (mkURL "https:" "ex.com" "" "/" [] "") Examples2.declared_map "mcp-crawler")
    as [candidates|] eqn:Hc; [|by vm_compute in Hc].
  exists candidates. split; [reflexivity|].
  destruct (@sitemap_candidates_cover_both_hosts Ref.urlLib Examples2.small_crawl
              (mkURL "https:" "ex.com" "" "/" [] "") Examples2.declared_map
              "mcp-crawler" candidates Hc) as (Hnd & Hrobots & _ & Htwin & Hlen).
  split_and!; [exact Hnd| |exact Htwin|exact Hlen].
  apply Hrobots. by left.
Defined.

Lemma pagesFromSitemap_bounded_per_endpoint_witness :
  ∃ cache' p,
    @CrawlSite.before_loop Ref.urlLib Examples2.full_server Examples2.robots_parser
      Examples2.sitemap_docs 5 Examples2.DEFAULTS [] Examples2.small_crawl ∅ tt
    = Some (tt, cache', Some p)
    ∧ NoDup (Crawler.fromSitemaps (CrawlSite.setup p))
    ∧ CrawlSite.pagesFromSitemap
        (CrawlSite.out_stats
           (CrawlSite.output (CrawlSite.setup p) (CrawlSite.smCandidates p) 0
                             (@Crawler.crawl_init Ref.urlLib (CrawlSite.setup p))))
      ≤ length (CrawlSite.out_sitemap
                  (CrawlSite.output (CrawlSite.setup p) (CrawlSite.smCandidates p) 0
                                    (@Crawler.crawl_init Ref.urlLib (CrawlSite.setup p))))
        * Crawler.maxPages (CrawlSite.setup p).
Proof.
  destruct (@CrawlSite.before_loop Ref.urlLib Examples2.full_server
              Examples2.robots_parser Examples2.sitemap_docs 5 Examples2.DEFAULTS []
              Examples2.small_crawl ∅ tt)
    as [[[[] cache'] [p|]]|] eqn:Hp; [|by vm_compute in Hp|by vm_compute in Hp].
  exists cache', p. split; [reflexivity|].
  exact (@pagesFromSitemap_bounded_per_endpoint Ref.urlLib Examples2.full_server
           Examples2.robots_parser Examples2.sitemap_docs 5 Examples2.DEFAULTS []
           Examples2.small_crawl ∅ cache' tt tt p 0
           (@Crawler.crawl_init Ref.urlLib (CrawlSite.setup p)) Hp).
Defined.
